(** * FIDO2 client ceremonies of lib/auth/webauthncli

    The development has two layers.

    - The fake authenticator [fakeFIDO2Device] of
      [lib/auth/webauthncli/fido2_test.go] together with the prompts and
      the device registry [fakeFIDO2] of that file.  These are embedded
      from the Go source, statement by statement.
    - The ceremony engine ([FIDO2Login], [FIDO2Register]).  Its Go source
      is not part of the sources at hand, only its tests are; it is
      modelled from the specification (sections 4.D, 5 and 7) and runs on
      top of the embedded authenticator.

    Go strings and byte slices are both sequences of bytes and are both
    rendered as [string]; [len(b) == 0] is [String.length b =? 0]. *)

From stdpp Require Import base option list strings gmap pretty.
From Stdlib Require Import ZArith Lia Bool.

Local Open Scope string_scope.

(** ** Values of go-libfido2 used by the fake authenticator *)

(** [type OptionValue string] with the constants [Default], [True] and
    [False]. *)
Definition OptionValue := string.

Module libfido2.
Definition Default : OptionValue := "".
Definition True : OptionValue := "true".
Definition False : OptionValue := "false".

(** [type CredentialType int]; [ES256] is COSE algorithm -7. *)
Definition CredentialType := Z.
Definition ES256 : CredentialType := (-7)%Z.
Definition EDDSA : CredentialType := (-8)%Z.
Definition RS256 : CredentialType := (-257)%Z.
End libfido2.

(** The [error] values the fake authenticator produces or replays.
    [Libfido2Error c] is [libfido2.Error{Code: c}]; [errorsNew m] is
    [errors.New(m)]. *)
Inductive error : Type :=
  | ErrUnsupportedOption
  | ErrNoCredentials
  | ErrPinRequired
  | ErrPinInvalid
  | ErrKeepaliveCancel
  | ErrNotFIDO2
  | Libfido2Error (Code : Z)
  | errorsNew (msg : string).

Global Instance error_eq_dec : EqDecision error.
Proof. solve_decision. Defined.

Inductive Result (A : Type) : Type :=
  | Ok (a : A)
  | Err (e : error).
Arguments Ok {A} a.
Arguments Err {A} e.

(** [libfido2.Option] *)
Record Option := { opt_Name : string; opt_Value : OptionValue }.

(** [libfido2.DeviceInfo]; only [Options] is read by the fake. *)
Record DeviceInfo := { Options : list Option }.

(** [libfido2.User] *)
Record User := {
  user_ID : string;
  user_Name : string;
  user_DisplayName : string;
  user_Icon : string
}.

(** [libfido2.RelyingParty] *)
Record RelyingParty := { rp_ID : string; rp_Name : string }.

(** [libfido2.Credential] *)
Record Credential := {
  cred_ID : string;
  cred_Type : libfido2.CredentialType;
  cred_User : User
}.

(** [libfido2.Assertion] (the struct; [Assertion] below is the device
    method).  [HMACSecret] is [None] for a nil slice. *)
Record libfido2_Assertion := {
  AuthDataCBOR : string;
  Sig : string;
  HMACSecret : option string;
  CredentialID : string;
  asr_User : User
}.

(** [libfido2.Attestation].  [att_Cert] and [att_Sig] are [None] when
    the Go value is nil. *)
Record Attestation := {
  att_ClientDataHash : string;
  att_AuthData : string;
  att_CredentialID : string;
  att_CredentialType : libfido2.CredentialType;
  att_PubKey : string;
  att_Cert : option string;
  att_Sig : option string;
  att_Format : string
}.

(** [libfido2.MakeCredentialOpts] and [libfido2.AssertionOpts], with the
    fields the fake reads. *)
Record MakeCredentialOpts := { mc_RK : OptionValue; mc_UV : OptionValue }.
Record AssertionOpts := { as_UP : OptionValue; as_UV : OptionValue }.

(** The package-level byte arrays that [init] fills with random data. *)
Record TestData := {
  makeCredentialAuthDataCBOR : string;
  makeCredentialSig : string;
  assertionAuthDataCBOR : string;
  assertionSig : string
}.

(** ** The fake authenticator *)

(** [mocku2f.Key], reduced to the two members the fake reads. *)
Record Key := { KeyHandle : string; Cert : string }.

(** [type fakeFIDO2Device struct].  [cond] guards [up] and [cancel]; a
    call that waits on it is rendered by [Blocks] below. *)
Record fakeFIDO2Device := {
  failUV : bool;
  u2fOnly : bool;
  assertionErrors : list error;
  path : string;
  info : option DeviceInfo;
  pin : string;
  credentials : list Credential;
  wantRPID : string;
  format : string;
  key : Key;
  pubKey : string;
  up : bool;
  cancel : bool
}.

Definition set_assertionErrors (errs : list error) (f : fakeFIDO2Device) :=
  {| failUV := failUV f; u2fOnly := u2fOnly f; assertionErrors := errs;
     path := path f; info := info f; pin := pin f;
     credentials := credentials f; wantRPID := wantRPID f;
     format := format f; key := key f; pubKey := pubKey f;
     up := up f; cancel := cancel f |}.

Definition set_credentials (cs : list Credential) (f : fakeFIDO2Device) :=
  {| failUV := failUV f; u2fOnly := u2fOnly f;
     assertionErrors := assertionErrors f;
     path := path f; info := info f; pin := pin f;
     credentials := cs; wantRPID := wantRPID f;
     format := format f; key := key f; pubKey := pubKey f;
     up := up f; cancel := cancel f |}.

Definition set_up_cancel (u c : bool) (f : fakeFIDO2Device) :=
  {| failUV := failUV f; u2fOnly := u2fOnly f;
     assertionErrors := assertionErrors f;
     path := path f; info := info f; pin := pin f;
     credentials := credentials f; wantRPID := wantRPID f;
     format := format f; key := key f; pubKey := pubKey f;
     up := u; cancel := c |}.

(** The outcome of a device call: it returns a value and leaves the
    device in a new state, or it is parked in [cond.Wait()] because
    neither a touch nor a cancel has arrived. *)
Inductive Call (A : Type) : Type :=
  | Returns (a : A) (f : fakeFIDO2Device)
  | Blocks.
Arguments Returns {A} a f.
Arguments Blocks {A}.

Definition credentialID (f : fakeFIDO2Device) : string := KeyHandle (key f).
Definition cert (f : fakeFIDO2Device) : string := Cert (key f).

(** [func (f *fakeFIDO2Device) Info()] *)
Definition Info (f : fakeFIDO2Device) : Result (option DeviceInfo) :=
  if u2fOnly f then Err ErrNotFIDO2 else Ok (info f).

(** [func (f *fakeFIDO2Device) setUP()] *)
Definition setUP (f : fakeFIDO2Device) : fakeFIDO2Device :=
  set_up_cancel true (cancel f) f.

(** [func (f *fakeFIDO2Device) Cancel()] *)
Definition Cancel (f : fakeFIDO2Device) : fakeFIDO2Device :=
  set_up_cancel (up f) true f.

(** The loop of [hasBoolOpt]: the first option of that name decides. *)
Fixpoint findBoolOpt (name : string) (opts : list Option) : bool :=
  match opts with
  | [] => false
  | opt :: rest =>
      if String.eqb (opt_Name opt) name
      then String.eqb (opt_Value opt) libfido2.True
      else findBoolOpt name rest
  end.

(** [func (f *fakeFIDO2Device) hasBoolOpt(name string) bool] *)
Definition hasBoolOpt (f : fakeFIDO2Device) (name : string) : bool :=
  match info f with
  | None => false
  | Some i => findBoolOpt name (Options i)
  end.

Definition hasClientPin (f : fakeFIDO2Device) : bool := hasBoolOpt f "clientPin".
Definition hasRK (f : fakeFIDO2Device) : bool := hasBoolOpt f "rk".
Definition hasUV (f : fakeFIDO2Device) : bool := hasBoolOpt f "uv".
Definition isBio (f : fakeFIDO2Device) : bool := hasBoolOpt f "bioEnroll".

(** [func (f *fakeFIDO2Device) validatePIN(pin string) error];
    [None] is the nil error. *)
Definition validatePIN (f : fakeFIDO2Device) (pinArg : string) : option error :=
  if isBio f && String.eqb pinArg "" then None
  else if negb (String.eqb (pin f) "") && String.eqb pinArg "" then
    Some ErrPinRequired
  else if negb (String.eqb (pin f) "") && negb (String.eqb (pin f) pinArg) then
    Some ErrPinInvalid
  else None.

(** [func (f *fakeFIDO2Device) maybeLockUntilInteraction(up bool) error] *)
Definition maybeLockUntilInteraction (upArg : bool) (f : fakeFIDO2Device)
  : Call (option error) :=
  if negb upArg then Returns None f
  else if negb (up f) && negb (cancel f) then Blocks
  else
    let isCancel := cancel f in
    let f' := set_up_cancel false false f in
    if isCancel then Returns (Some ErrKeepaliveCancel) f' else Returns None f'.

(** [func (f *fakeFIDO2Device) MakeCredential(...)].  [rnd] stands for
    the sixteen bytes read from [crypto/rand] for a resident
    credential. *)
Definition MakeCredential (td : TestData) (rnd : string)
    (f : fakeFIDO2Device) (clientDataHash : string) (rp : RelyingParty)
    (user : User) (typ : libfido2.CredentialType) (pinArg : string)
    (opts : MakeCredentialOpts) : Call (Result Attestation) :=
  if Nat.eqb (String.length clientDataHash) 0 then
    Returns (Err (errorsNew "clientDataHash required")) f
  else if String.eqb (rp_ID rp) "" then
    Returns (Err (errorsNew "rp.ID required")) f
  else if negb (Z.eqb typ libfido2.ES256) then
    Returns (Err (errorsNew "bad credential type")) f
  else if String.eqb (mc_UV opts) libfido2.False then
    Returns (Err ErrUnsupportedOption) f
  else if String.eqb (mc_UV opts) libfido2.True && negb (hasUV f) then
    Returns (Err ErrUnsupportedOption) f
  else if String.eqb (mc_RK opts) libfido2.True && negb (hasRK f) then
    Returns (Err ErrUnsupportedOption) f
  else
    match validatePIN f pinArg with
    | Some err => Returns (Err err) f
    | None =>
        match maybeLockUntilInteraction true f with
        | Blocks => Blocks
        | Returns (Some err) f1 => Returns (Err err) f1
        | Returns None f1 =>
            let '(cert_, sig_) :=
              if String.eqb (format f1) "none" then (None, None)
              else (Some (cert f1), Some (makeCredentialSig td)) in
            let '(cID, f2) :=
              if String.eqb (mc_RK opts) libfido2.True then
                (rnd,
                 set_credentials
                   (credentials f1 ++
                    [{| cred_ID := rnd; cred_Type := libfido2.ES256;
                        cred_User := user |}]) f1)
              else (KeyHandle (key f1), f1) in
            Returns
              (Ok {| att_ClientDataHash := clientDataHash;
                     att_AuthData := makeCredentialAuthDataCBOR td;
                     att_CredentialID := cID;
                     att_CredentialType := libfido2.ES256;
                     att_PubKey := pubKey f2;
                     att_Cert := cert_;
                     att_Sig := sig_;
                     att_Format := format f2 |})
              f2
        end
    end.

(** The user record the authenticator attaches to the "base"
    credential: it holds no data. *)
Definition emptyUser : User :=
  {| user_ID := ""; user_Name := ""; user_DisplayName := ""; user_Icon := "" |}.

(** The assertion appended for the "base" credential. *)
Definition baseAssertion (td : TestData) (f : fakeFIDO2Device) : libfido2_Assertion :=
  {| AuthDataCBOR := assertionAuthDataCBOR td;
     Sig := assertionSig td;
     HMACSecret := None;
     CredentialID := KeyHandle (key f);
     asr_User := emptyUser |}.

(** The assertion appended for a resident credential. *)
Definition residentAssertion (td : TestData) (resident : Credential) : libfido2_Assertion :=
  {| AuthDataCBOR := assertionAuthDataCBOR td;
     Sig := assertionSig td;
     HMACSecret := Some "";
     CredentialID := cred_ID resident;
     asr_User :=
       {| user_ID := user_ID (cred_User resident);
          user_Name := user_Name (cred_User resident);
          user_DisplayName := user_DisplayName (cred_User resident);
          user_Icon := user_Icon (cred_User resident) |} |}.

(** The test of the loop over [f.credentials]: with an empty index every
    resident credential is allowed, otherwise only the indexed ones. *)
Definition residentAllowed (credIDs : gset string) (resident : Credential) : bool :=
  bool_decide (size credIDs = 0) || bool_decide (cred_ID resident ∈ credIDs).

(** Removal of user name, display name and icon in the one-assertion
    case. *)
Definition stripUser (a : libfido2_Assertion) : libfido2_Assertion :=
  {| AuthDataCBOR := AuthDataCBOR a;
     Sig := Sig a;
     HMACSecret := HMACSecret a;
     CredentialID := CredentialID a;
     asr_User :=
       {| user_ID := user_ID (asr_User a);
          user_Name := "";
          user_DisplayName := "";
          user_Icon := "" |} |}.

(** The assertions collected before the final [switch]: the "base"
    credential when it was asked for, then the allowed resident
    credentials when access is privileged. *)
Definition collectAssertions (td : TestData) (f : fakeFIDO2Device)
    (credentialIDs : list string) (privilegedAccess : bool) : list libfido2_Assertion :=
  let credIDs : gset string := list_to_set credentialIDs in
  (if bool_decide (KeyHandle (key f) ∈ credIDs) then [baseAssertion td f] else [])
  ++
  (if privilegedAccess
   then map (residentAssertion td) (filter (λ r, residentAllowed credIDs r = true) (credentials f))
   else []).

(** [func (f *fakeFIDO2Device) Assertion(...)] *)
Definition Assertion (td : TestData) (f : fakeFIDO2Device) (rpID : string)
    (clientDataHash : string) (credentialIDs : list string) (pinArg : string)
    (opts : AssertionOpts) : Call (Result (list libfido2_Assertion)) :=
  match assertionErrors f with
  | err :: rest => Returns (Err err) (set_assertionErrors rest f)
  | [] =>
      if String.eqb rpID "" then
        Returns (Err (errorsNew "rp.ID required")) f
      else if negb (String.eqb (wantRPID f) "") && negb (String.eqb (wantRPID f) rpID) then
        Returns (Err ErrNoCredentials) f
      else if Nat.eqb (String.length clientDataHash) 0 then
        Returns (Err (errorsNew "clientDataHash required")) f
      else
        let uvOK :=
          if String.eqb (as_UV opts) "" then true
          else if String.eqb (as_UV opts) libfido2.True && failUV f then false
          else if String.eqb (as_UV opts) libfido2.True && isBio f then true
          else if String.eqb (as_UV opts) libfido2.True && hasClientPin f
                  && negb (String.eqb pinArg "") then true
          else false in
        if negb uvOK then Returns (Err ErrUnsupportedOption) f
        else
          let checkPIN := negb (String.eqb pinArg "")
                          && String.eqb (as_UP opts) libfido2.True in
          match (if checkPIN then validatePIN f pinArg else None) with
          | Some err => Returns (Err err) f
          | None =>
              let privilegedAccess := isBio f || checkPIN in
              match maybeLockUntilInteraction
                      (String.eqb (as_UP opts) libfido2.True) f with
              | Blocks => Blocks
              | Returns (Some err) f1 => Returns (Err err) f1
              | Returns None f1 =>
                  let assertions :=
                    collectAssertions td f1 credentialIDs privilegedAccess in
                  match assertions with
                  | [] => Returns (Err ErrNoCredentials) f1
                  | [a] => Returns (Ok [stripUser a]) f1
                  | _ => Returns (Ok assertions) f1
                  end
              end
          end
  end.

(** ** The device registry, the context and the prompts of the tests *)

(** The result of an arithmetic operation on Go's [int], 64 bits wide
    on the platforms the tests run on: it wraps around in two's
    complement. *)
Definition wrapInt (x : Z) : Z := ((x + 2 ^ 63) mod 2 ^ 64 - 2 ^ 63)%Z.

(** The closure that [newMeteredDeviceLocations] returns, over the
    locations [ls] of the registry: one call, from the counter [i] it
    captured to the answer and the counter it leaves. *)
Definition meteredDeviceLocations (ls : list string) (i : Z)
  : list string * Z :=
  let i' := wrapInt (i + 1) in
  (if (i' <? 2)%Z then [] else ls, i').

(** The state the tests share with the engine: the registry [fakeFIDO2]
    ([useNonMeteredLocs], [locs], and [devices], which maps a path to
    the device object registered under it), the number [meter] of calls
    made to the closure of [newMeteredDeviceLocations], the random
    arrays of [init], and whether the [context.CancelFunc] of the test
    body has been called.  Device objects are identified by their path,
    which [newFakeFIDO2] keeps unique; a prompt that is a device refers
    to the same object by that path. *)
Record World := {
  useNonMeteredLocs : bool;
  locs : list string;
  meter : nat;
  devices : gmap string fakeFIDO2Device;
  data : TestData;
  ctxCancelled : bool
}.

Definition setDevices (ds : gmap string fakeFIDO2Device) (w : World) : World :=
  {| useNonMeteredLocs := useNonMeteredLocs w; locs := locs w;
     meter := meter w; devices := ds; data := data w;
     ctxCancelled := ctxCancelled w |}.

Definition setMeter (i : nat) (w : World) : World :=
  {| useNonMeteredLocs := useNonMeteredLocs w; locs := locs w;
     meter := i; devices := devices w; data := data w;
     ctxCancelled := ctxCancelled w |}.

Definition setCancelled (w : World) : World :=
  {| useNonMeteredLocs := useNonMeteredLocs w; locs := locs w;
     meter := meter w; devices := devices w; data := data w;
     ctxCancelled := true |}.

(** [newFakeFIDO2(devs...)], metered unless [withNonMeteredLocations]
    is applied. *)
Definition newFakeFIDO2 (td : TestData) (devs : list fakeFIDO2Device) : World :=
  {| useNonMeteredLocs := false;
     locs := map path devs;
     meter := 0;
     devices := list_to_map (map (λ d, (path d, d)) devs);
     data := td;
     ctxCancelled := false |}.

Definition withNonMeteredLocations (w : World) : World :=
  {| useNonMeteredLocs := true; locs := locs w;
     meter := meter w; devices := devices w; data := data w;
     ctxCancelled := ctxCancelled w |}.

(** The hook [*wancli.FIDODeviceLocations] as [setCallbacks] installs
    it: [f.DeviceLocations] or the closure of
    [newMeteredDeviceLocations], which hides the devices on its first
    call.  The closure is followed by the number of calls made to it,
    which is its counter for as long as a ceremony can poll: up to
    2^63 - 1 calls, see [meteredDeviceLocations]. *)
Definition FIDODeviceLocations (w : World) : list string * World :=
  if useNonMeteredLocs w then (locs w, w)
  else
    let i := S (meter w) in
    (if Nat.ltb i 2 then [] else locs w, setMeter i w).

(** [func (f *fakeFIDO2) NewDevice(path string)]; [None] is the
    "not found" error. *)
Definition NewDevice (w : World) (p : string) : option fakeFIDO2Device :=
  devices w !! p.

(** [wancli.CredentialInfo], as the credential picker sees it. *)
Record CredentialInfo := {
  ci_ID : string;
  ci_UserHandle : string;
  ci_Name : string
}.

(** The prompts of the tests: [noopPrompt], [pinCancelPrompt] (whose
    [cancel] is the cancel function of the test's context), a
    [*fakeFIDO2Device] used as prompt, and [countingPrompt] wrapped
    around another prompt, with its field [count int]. *)
Inductive LoginPrompt : Type :=
  | noopPrompt
  | pinCancelPrompt (pinArg : string)
  | devicePrompt (pathArg : string)
  | countingPrompt (inner : LoginPrompt) (count : Z).

(** [PromptPIN] of each prompt. *)
Fixpoint PromptPIN (p : LoginPrompt) (w : World) : string * World :=
  match p with
  | noopPrompt => ("", w)
  | pinCancelPrompt pinArg => (pinArg, setCancelled w)
  | devicePrompt pathArg => (from_option pin "" (devices w !! pathArg), w)
  | countingPrompt inner _ => PromptPIN inner w
  end.

(** [PromptTouch] of each prompt; [countingPrompt] counts
    ([cp.count++]), then delegates. *)
Fixpoint PromptTouch (p : LoginPrompt) (w : World) : LoginPrompt * World :=
  match p with
  | noopPrompt => (p, w)
  | pinCancelPrompt _ => (p, w)
  | devicePrompt pathArg => (p, setDevices (alter setUP pathArg (devices w)) w)
  | countingPrompt inner n =>
      let '(inner', w') := PromptTouch inner w in
      (countingPrompt inner' (wrapInt (n + 1)), w')
  end.

(** [simplePicker.PromptCredential]: the first credential; [None] is the
    index-out-of-range panic on an empty list. *)
Definition PromptCredential (p : LoginPrompt) (creds : list CredentialInfo)
  : option CredentialInfo := head creds.

(** The number of touch prompts a [countingPrompt] has counted. *)
Definition promptCount (p : LoginPrompt) : Z :=
  match p with
  | countingPrompt _ n => n
  | _ => 0%Z
  end.

(** ** The ceremony engine *)

(** Modelled from the spec: the Go source of the engine
    ([lib/auth/webauthncli/fido2.go]) is missing.  The challenge of a
    login (section 3, "Challenge"): challenge bytes, relying-party id,
    allowed-credential list (empty means passwordless),
    user-verification preference and the optional [appid] extension. *)
Inductive UserVerificationRequirement : Type :=
  | VerificationDiscouraged
  | VerificationPreferred
  | VerificationRequired.

Record CredentialAssertion := {
  ca_Challenge : string;
  ca_RelyingPartyID : string;
  ca_AllowedCredentials : list string;
  ca_UserVerification : UserVerificationRequirement;
  ca_AppID : option string
}.

(** Modelled from the spec: the missing engine's [LoginOpts], section 6
    ([opts{user?}]); the empty string is "no user". *)
Record LoginOpts := { opts_User : string }.

(** Modelled from the spec: the missing engine's client data (section
    4.E): type, challenge and origin.  The JSON text and its base64url
    coding are not modelled. *)
Record ClientData := {
  cd_Type : string;
  cd_Challenge : string;
  cd_Origin : string
}.

(** Modelled from the spec: the missing engine's digest of the client
    data (section 4.E, "hashes it with SHA-256 to feed the device").
    The digest is symbolic: a tagged rendering of the three members,
    never empty. *)
Definition clientDataHash (cd : ClientData) : string :=
  "sha256:" ++ cd_Type cd ++ ":" ++ cd_Challenge cd ++ ":" ++ cd_Origin cd.

(** Modelled from the spec: the missing engine's login response
    (section 3, "WebAuthn Response").  [car_AuthenticatorData] carries
    the authenticator data as the device returned it; CBOR is not
    modelled. *)
Record CredentialAssertionResponse := {
  car_RawId : string;
  car_ClientData : ClientData;
  car_AuthenticatorData : string;
  car_Signature : string;
  car_UserHandle : string;
  car_AppId : bool
}.

(** Modelled from the spec: the missing engine's error kinds (section
    7).  [DeviceError e] surfaces the underlying libfido2 error [e]:
    NoCredentials, PinRequired, PinInvalid, Unsupported and the
    transient UV error beyond its retry limit all travel this way. *)
Inductive EngineError : Type :=
  | InvalidArgument (msg : string)
  | DeadlineExceeded
  | Cancelled
  | UserVerificationFailed
  | NoCredentialsForUser (user : string)
  | Internal (msg : string)
  | DeviceError (e : error).

Global Instance EngineError_eq_dec : EqDecision EngineError.
Proof. solve_decision. Defined.

(** The text of a go-libfido2 error.  That library is not part of this
    repository; [libfido2.Error{Code: c}] prints as "libfido2 error c",
    which the tests rely on. *)
Definition libfido2ErrorString (e : error) : string :=
  match e with
  | ErrUnsupportedOption => "unsupported option"
  | ErrNoCredentials => "no credentials"
  | ErrPinRequired => "pin required"
  | ErrPinInvalid => "pin invalid"
  | ErrKeepaliveCancel => "keep alive cancel"
  | ErrNotFIDO2 => "not a FIDO2 device"
  | Libfido2Error c => "libfido2 error " ++ pretty c
  | errorsNew m => m
  end.

(** Modelled from the spec: the text of the missing engine's errors.
    Error 60 is "surfaced as user verification function failed"
    (section 4.B); the context errors print as Go's [context] package
    prints them. *)
Definition errorString (e : EngineError) : string :=
  match e with
  | InvalidArgument m => m
  | DeadlineExceeded => "context deadline exceeded"
  | Cancelled => "context canceled"
  | UserVerificationFailed => "user verification function failed"
  | NoCredentialsForUser u => "no credentials for user " ++ u
  | Internal m => m
  | DeviceError e => libfido2ErrorString e
  end.

(** [contains needle s]: [strings.Contains(s, needle)]. *)
Definition contains (needle s : string) : bool :=
  match String.index 0 needle s with
  | Some _ => true
  | None => false
  end.

(** Modelled from the spec: the missing engine's INIT state for login
    (section 4.D.1, step 1): "reject immediately on missing origin /
    challenge / relying-party id / missing prompt".  The texts contain
    what [TestFIDO2Login_errors] looks for. *)
Definition validateLogin (origin : string)
    (assertion : option CredentialAssertion) (prompt : option LoginPrompt)
  : option string :=
  if String.eqb origin "" then Some "origin required"
  else
    match assertion with
    | None => Some "assertion required"
    | Some a =>
        if Nat.eqb (String.length (ca_Challenge a)) 0 then
          Some "assertion challenge required"
        else if String.eqb (ca_RelyingPartyID a) "" then
          Some "assertion relying party ID required"
        else
          match prompt with
          | None => Some "prompt required"
          | Some _ => None
          end
    end.

(** Modelled from the spec: the prompt capabilities of section 4.C as
    the missing engine observes them. *)
Inductive Event : Type :=
  | EvPromptTouch
  | EvPromptPIN
  | EvPromptCredential.

Global Instance Event_eq_dec : EqDecision Event.
Proof. solve_decision. Defined.

(** Modelled from the spec: the state of one ceremony of the missing
    engine: the world it drives, the prompt object it was given, the
    log of prompt invocations, and the winner slot of section 4.D.2. *)
Record Run := {
  world : World;
  prompt : option LoginPrompt;
  trace : list Event;
  winner : option string
}.

Definition setWorld (w : World) (r : Run) : Run :=
  {| world := w; prompt := prompt r; trace := trace r; winner := winner r |}.

(** Modelled from the spec: the missing engine's ceremonies thread the
    run state and stop at the first error. *)
Definition M (A : Type) : Type := Run → (EngineError + A) * Run.

Global Instance M_ret : MRet M := λ A a r, (inr a, r).

Global Instance M_bind : MBind M := λ A B k m r,
  match m r with
  | (inl e, r') => (inl e, r')
  | (inr a, r') => k a r'
  end.

Definition failWith {A : Type} (e : EngineError) : M A := λ r, (inl e, r).

Definition liftW {A : Type} (f : World → A * World) : M A := λ r,
  let '(a, w') := f (world r) in (inr a, setWorld w' r).

(** Modelled from the spec: cancellation as the missing engine sees it
    (section 4.D.5): a cancelled context ends the ceremony with
    Cancelled. *)
Definition checkCtx : M unit := λ r,
  if ctxCancelled (world r) then (inl Cancelled, r) else (inr (), r).

(** Modelled from the spec: [prompt_touch()] of section 4.C, called by
    the missing engine once per expected touch. *)
Definition promptTouch : M unit := λ r,
  match prompt r with
  | None => (inl (InvalidArgument "prompt required"), r)
  | Some p =>
      let '(p', w') := PromptTouch p (world r) in
      (inr (), {| world := w'; prompt := Some p';
                  trace := trace r ++ [EvPromptTouch]; winner := winner r |})
  end.

(** Modelled from the spec: [prompt_pin()] of section 4.C. *)
Definition promptPIN : M string := λ r,
  match prompt r with
  | None => (inl (InvalidArgument "prompt required"), r)
  | Some p =>
      let '(pinArg, w') := PromptPIN p (world r) in
      (inr pinArg, {| world := w'; prompt := Some p;
                      trace := trace r ++ [EvPromptPIN]; winner := winner r |})
  end.

(** Modelled from the spec: [prompt_credential(list)] of section 4.C. *)
Definition promptCredential (creds : list CredentialInfo) : M CredentialInfo := λ r,
  match prompt r with
  | None => (inl (InvalidArgument "prompt required"), r)
  | Some p =>
      let r' := {| world := world r; prompt := Some p;
                   trace := trace r ++ [EvPromptCredential];
                   winner := winner r |} in
      match PromptCredential p creds with
      | None => (inl (Internal "no credential picked"), r')
      | Some ci => (inr ci, r')
      end
  end.

(** Modelled from the spec: the winner slot of section 4.D.2, step 4. *)
Definition setWinner (p : string) : M unit := λ r,
  (inr (), {| world := world r; prompt := prompt r; trace := trace r;
              winner := Some p |}).

(** Modelled from the spec: a retained device of the missing engine's
    DISCOVERING state (section 4.D.1, step 2) with the capability flags
    of section 3, "Device Info". *)
Record Candidate := {
  c_path : string;
  c_u2f : bool;
  c_rk : bool;
  c_uv : bool;
  c_clientPin : bool;
  c_bioEnroll : bool
}.

(** Modelled from the spec: section 3, "one reporting clientPin=true
    without bioEnroll is PIN-protected". *)
Definition isPINProtected (c : Candidate) : bool :=
  c_clientPin c && negb (c_bioEnroll c).

(** Modelled from the spec: the probe of the missing engine's
    DISCOVERING state: open the adapter, call [info()], classify as
    FIDO2, as U2F-only, or discard. *)
Definition openDevice (w : World) (p : string) : option Candidate :=
  match NewDevice w p with
  | None => None
  | Some d =>
      match Info d with
      | Ok (Some i) =>
          Some {| c_path := p; c_u2f := false;
                  c_rk := findBoolOpt "rk" (Options i);
                  c_uv := findBoolOpt "uv" (Options i);
                  c_clientPin := findBoolOpt "clientPin" (Options i);
                  c_bioEnroll := findBoolOpt "bioEnroll" (Options i) |}
      | Ok None => None
      | Err ErrNotFIDO2 =>
          Some {| c_path := p; c_u2f := true; c_rk := false; c_uv := false;
                  c_clientPin := false; c_bioEnroll := false |}
      | Err _ => None
      end
  end.

(** Modelled from the spec: the polling of the missing engine's
    DISCOVERING state.  [ticks] is the number of polls the caller's
    deadline allows; the first poll that retains a device ends the
    discovery, later arrivals are not modelled. *)
Fixpoint discover (ticks : nat) (w : World) : option (list Candidate) * World :=
  match ticks with
  | 0 => (None, w)
  | S n =>
      let '(paths, w1) := FIDODeviceLocations w in
      match omap (openDevice w1) paths with
      | [] => discover n w1
      | cs => (Some cs, w1)
      end
  end.

(** Modelled from the spec: the bound of the missing engine's retry of
    UV error 63 (section 4.D.2, step 5: "a small bounded limit (≈ 3)"). *)
Definition uvRetryLimit : nat := 3.

(** Modelled from the spec: the missing engine's call of [assertion]
    with that retry.  [None] is a call still waiting for a touch. *)
Fixpoint assertionWithRetry (retries : nat) (td : TestData)
    (d : fakeFIDO2Device) (rpID h : string) (ids : list string)
    (pinArg : string) (opts : AssertionOpts)
  : option (Result (list libfido2_Assertion)) * fakeFIDO2Device :=
  match Assertion td d rpID h ids pinArg opts with
  | Blocks => (None, d)
  | Returns (Err e) d' =>
      if bool_decide (e = Libfido2Error 63) then
        match retries with
        | 0 => (Some (Err e), d')
        | S n => assertionWithRetry n td d' rpID h ids pinArg opts
        end
      else (Some (Err e), d')
  | Returns r d' => (Some r, d')
  end.

(** Modelled from the spec: one adapter call of the missing engine on
    the device plugged at [p]. *)
Definition devAssertion (p rpID h : string) (ids : list string)
    (pinArg : string) (opts : AssertionOpts) (w : World)
  : option (Result (list libfido2_Assertion)) * World :=
  match devices w !! p with
  | None => (Some (Err (errorsNew "not found")), w)
  | Some d =>
      let '(r, d') :=
        assertionWithRetry uvRetryLimit (data w) d rpID h ids pinArg opts in
      (r, setDevices (<[p := d']> (devices w)) w)
  end.

(** Modelled from the spec: what the missing engine makes of a device
    error: error 60 is fatal and has its own text, any other error is
    surfaced. *)
Definition surface (e : error) : EngineError :=
  if bool_decide (e = Libfido2Error 60) then UserVerificationFailed
  else DeviceError e.

(** Modelled from the spec: a worker of the missing engine's RACING
    state: the device, the relying-party id it is asked under, the
    credential ids, the PIN and the options of its call; whether the
    call is the device-selection touch of a passwordless ceremony;
    whether the app id stands in for the relying-party id; and whether
    the device is PIN-protected. *)
Record Worker := {
  wk_path : string;
  wk_rpID : string;
  wk_ids : list string;
  wk_pin : string;
  wk_opts : AssertionOpts;
  wk_selection : bool;
  wk_appID : bool;
  wk_pinProtected : bool
}.

(** Modelled from the spec: how a worker of the missing engine stands
    when the race is decided. *)
Inductive Attempt : Type :=
  | Waiting
  | Failed (e : EngineError)
  | Touched (l : list libfido2_Assertion)
  | Selected.

Definition attemptOf (selection : bool)
    (r : option (Result (list libfido2_Assertion))) : Attempt :=
  match r with
  | None => Waiting
  | Some (Ok l) => if selection then Selected else Touched l
  | Some (Err e) =>
      if selection && bool_decide (e = ErrNoCredentials) then Selected
      else Failed (surface e)
  end.

(** Modelled from the spec: the workers of the missing engine run in
    parallel on devices they own exclusively; here each runs its call
    in the order of the list.  A worker whose filter probe failed
    carries that error and makes no call. *)
Fixpoint runWorkers (h : string) (ws : list (Worker * option EngineError))
    (w : World) : list (Worker * Attempt) * World :=
  match ws with
  | [] => ([], w)
  | (k, Some e) :: rest =>
      let '(rs, w') := runWorkers h rest w in ((k, Failed e) :: rs, w')
  | (k, None) :: rest =>
      let '(r, w1) :=
        devAssertion (wk_path k) (wk_rpID k) h (wk_ids k) (wk_pin k)
          (wk_opts k) w in
      let '(rs, w2) := runWorkers h rest w1 in
      ((k, attemptOf (wk_selection k) r) :: rs, w2)
  end.

Definition isWin (a : Attempt) : bool :=
  match a with
  | Touched _ | Selected => true
  | _ => false
  end.

Definition isWaiting (a : Attempt) : bool :=
  match a with
  | Waiting => true
  | _ => false
  end.

(** Modelled from the spec: [cancel()] on a device whose call is in
    flight (section 4.D.5): the call wakes up and returns its
    cancellation error. *)
Definition cancelInFlight (d : fakeFIDO2Device) : fakeFIDO2Device :=
  match maybeLockUntilInteraction true (Cancel d) with
  | Returns _ d' => d'
  | Blocks => Cancel d
  end.

Fixpoint cancelSiblings (rs : list (Worker * Attempt)) (w : World) : World :=
  match rs with
  | [] => w
  | (k, Waiting) :: rest =>
      cancelSiblings rest
        (setDevices (alter cancelInFlight (wk_path k) (devices w)) w)
  | _ :: rest => cancelSiblings rest w
  end.

Definition failures (rs : list (Worker * Attempt)) : list EngineError :=
  omap (λ x, match x.2 with Failed e => Some e | _ => None end) rs.

(** Modelled from the spec: the propagation policy of section 7 when
    every worker of the missing engine failed: UserVerification first,
    then NoCredentials over Unsupported over anything else. *)
Definition mostSpecific (es : list EngineError) : EngineError :=
  if bool_decide (UserVerificationFailed ∈ es) then UserVerificationFailed
  else if bool_decide (DeviceError ErrNoCredentials ∈ es) then
    DeviceError ErrNoCredentials
  else if bool_decide (DeviceError ErrUnsupportedOption ∈ es) then
    DeviceError ErrUnsupportedOption
  else
    match es with
    | e :: _ => e
    | [] => DeadlineExceeded
    end.

(** Modelled from the spec: the RACING state of the missing engine.
    The first worker in the list that obtained its touch wins and the
    workers still waiting are cancelled.  Without a winner, a waiting
    worker means the ceremony waits until the context ends; otherwise
    the most specific failure is returned. *)
Definition race (h : string) (ws : list (Worker * option EngineError))
  : M (Worker * Attempt) := λ r,
  let '(rs, w1) := runWorkers h ws (world r) in
  let w2 := cancelSiblings rs w1 in
  match find (λ x, isWin x.2) rs with
  | Some win => (inr win, setWorld w2 r)
  | None =>
      (inl (if ctxCancelled w1 then Cancelled
            else if existsb (λ x, isWaiting x.2) rs then DeadlineExceeded
            else mostSpecific (failures rs)),
       setWorld w2 r)
  end.

(** Modelled from the spec: the DISCOVERING state of the missing engine
    inside a ceremony; a context that ends before a device is retained
    ends the ceremony. *)
Definition discoverM (ticks : nat) : M (list Candidate) := λ r,
  match discover ticks (world r) with
  | (Some cs, w') => (inr cs, setWorld w' r)
  | (None, w') =>
      (inl (if ctxCancelled w' then Cancelled else DeadlineExceeded),
       setWorld w' r)
  end.

(** Modelled from the spec: the options of the presence-free probe by
    which the missing engine learns whether a device holds one of the
    listed credentials (sections 4.D.2 and 4.D.3, step 1). *)
Definition probeOpts : AssertionOpts :=
  {| as_UP := libfido2.False; as_UV := libfido2.Default |}.

(** Modelled from the spec: step 1 of the MFA worker of the missing
    engine.  The device is kept under the relying-party id, or under the
    app id when only that matches, and dropped when neither does; a
    probe that fails otherwise is that worker's failure. *)
Definition filterDevice (h : string) (a : CredentialAssertion) (c : Candidate)
    (w : World) : option (string * bool * option EngineError) * World :=
  let '(r1, w1) :=
    devAssertion (c_path c) (ca_RelyingPartyID a) h (ca_AllowedCredentials a)
      "" probeOpts w in
  match r1 with
  | None => (None, w1)
  | Some (Ok _) => (Some (ca_RelyingPartyID a, false, None), w1)
  | Some (Err e) =>
      if bool_decide (e = ErrNoCredentials) then
        match ca_AppID a with
        | None => (None, w1)
        | Some app =>
            let '(r2, w2) :=
              devAssertion (c_path c) app h (ca_AllowedCredentials a)
                "" probeOpts w1 in
            match r2 with
            | None => (None, w2)
            | Some (Ok _) => (Some (app, true, None), w2)
            | Some (Err e2) =>
                if bool_decide (e2 = ErrNoCredentials) then (None, w2)
                else (Some (app, true, Some (surface e2)), w2)
            end
        end
      else (Some (ca_RelyingPartyID a, false, Some (surface e)), w1)
  end.

Definition uvRequired (a : CredentialAssertion) : bool :=
  match ca_UserVerification a with
  | VerificationRequired => true
  | _ => false
  end.

(** Modelled from the spec: step 2 of the MFA worker of the missing
    engine: [opts{UP=true, UV=based-on-preference}]. *)
Definition mfaOpts (a : CredentialAssertion) : AssertionOpts :=
  {| as_UP := libfido2.True;
     as_UV := if uvRequired a then libfido2.True else libfido2.Default |}.

(** Modelled from the spec: steps 1 and 3 of the MFA worker of the
    missing engine, device by device: filter, and on a PIN-protected
    device with UV required "invoke prompt_pin() before the touch
    call". *)
Fixpoint planMFA (h : string) (a : CredentialAssertion) (cs : list Candidate)
  : M (list (Worker * option EngineError)) :=
  match cs with
  | [] => mret []
  | c :: rest =>
      f ← liftW (filterDevice h a c);
      match f with
      | None => planMFA h a rest
      | Some (rp, app, broken) =>
          pinArg ← (if isPINProtected c && uvRequired a
                       && bool_decide (broken = None)
                    then (p ← promptPIN; _ ← checkCtx; mret p)
                    else mret "");
          ws ← planMFA h a rest;
          mret (({| wk_path := c_path c; wk_rpID := rp;
                    wk_ids := ca_AllowedCredentials a; wk_pin := pinArg;
                    wk_opts := mfaOpts a; wk_selection := false;
                    wk_appID := app;
                    wk_pinProtected := isPINProtected c |}, broken) :: ws)
      end
  end.

(** Modelled from the spec: whether the retained devices are a single
    one (section 8: one touch "for passwordless login on a biometric
    device", two "when more than one device is plugged"). *)
Definition alone (cs : list Candidate) : bool :=
  match cs with
  | [_] => true
  | _ => false
  end.

(** Modelled from the spec: the first call of a passwordless worker of
    the missing engine (section 4.D.2, passwordless step 1): the
    device-selection touch, "each worker calls an assertion with only
    the UP bit (no PIN, no UV, no resident access) to learn which
    device the user has touched".  The one exception is a device that
    is plugged alone ([single]) and is not PIN-protected: there is
    nothing to select, and its first call is the assertion with UV=true
    of step 3, whose touch "simultaneously satisfies presence and
    verification — exactly one physical interaction total"; this is
    the single touch that [TestFIDO2Login_PromptTouch] expects of the
    biometric device plugged alone, which serves as prompt and is
    touched once per touch prompt. *)
Definition passwordlessWorker (a : CredentialAssertion) (single : bool)
    (c : Candidate) : Worker * option EngineError :=
  let direct := single && negb (isPINProtected c) in
  ({| wk_path := c_path c; wk_rpID := ca_RelyingPartyID a; wk_ids := [];
      wk_pin := "";
      wk_opts :=
        if direct
        then {| as_UP := libfido2.True; as_UV := libfido2.True |}
        else {| as_UP := libfido2.True; as_UV := libfido2.Default |};
      wk_selection := negb direct; wk_appID := false;
      wk_pinProtected := isPINProtected c |}, None).

Definition toCredentialInfo (a : libfido2_Assertion) : CredentialInfo :=
  {| ci_ID := CredentialID a; ci_UserHandle := user_ID (asr_User a);
     ci_Name := user_Name (asr_User a) |}.

(** Modelled from the spec: step 4 of the passwordless worker of the
    missing engine.  A single assertion is accepted directly; among
    several, the one named by [opts.user] when that is given ("no
    credentials for user" when none is), otherwise the one the
    credential picker returns.  An MFA ceremony takes the first. *)
Definition pickAssertion (passwordless : bool) (user : string)
    (l : list libfido2_Assertion) : M libfido2_Assertion :=
  match l with
  | [] => failWith (DeviceError ErrNoCredentials)
  | [a] => mret a
  | a :: _ =>
      if negb passwordless then mret a
      else if negb (String.eqb user "") then
        match find (λ x, String.eqb (user_Name (asr_User x)) user) l with
        | Some x => mret x
        | None => failWith (NoCredentialsForUser user)
        end
      else
        ci ← promptCredential (map toCredentialInfo l);
        match find (λ x, String.eqb (CredentialID x) (ci_ID ci)) l with
        | Some x => mret x
        | None => failWith (Internal "unknown credential picked")
        end
  end.

(** Modelled from the spec: the MFA ceremony of the missing engine
    (section 4.D.2): plan the workers, one touch prompt, race, winner. *)
Definition loginMFA (h : string) (a : CredentialAssertion) (cs : list Candidate)
  : M (libfido2_Assertion * Worker) :=
  ws ← planMFA h a cs;
  _ ← promptTouch;
  win ← race h ws;
  match win.2 with
  | Touched l =>
      chosen ← pickAssertion false "" l;
      _ ← setWinner (wk_path win.1);
      mret (chosen, win.1)
  | _ => failWith (Internal "no assertion")
  end.

(** Modelled from the spec: what the missing engine does on the chosen
    device when it is not PIN-protected (section 4.D.2, passwordless
    step 3, "Biometric: call assertion with UV=true"), after the
    device-selection touch among several devices: the post-selection
    touch on the winner of section 8 is prompted, then the call is
    made.  A call that never gets its touch is cancelled when the
    context ends. *)
Definition verifySelected (h : string) (k : Worker)
  : M (list libfido2_Assertion) :=
  _ ← promptTouch;
  r ← liftW (devAssertion (wk_path k) (wk_rpID k) h [] ""
               {| as_UP := libfido2.True; as_UV := libfido2.True |});
  match r with
  | Some (Ok l) => mret l
  | Some (Err e) => failWith (surface e)
  | None =>
      _ ← liftW (λ w, ((), setDevices
                          (alter cancelInFlight (wk_path k) (devices w)) w));
      _ ← checkCtx;
      failWith DeadlineExceeded
  end.

(** Modelled from the spec: what the missing engine does on the chosen
    device (section 4.D.2, passwordless step 3).  On a PIN-protected
    device: "invoke prompt_pin(); then call assertion with the PIN and
    UP=true — a second physical touch is required"; a prompt that
    cancelled the context ends the ceremony before the second touch is
    prompted, and a call that never gets its touch is cancelled when
    the context ends.  On any other device: [verifySelected]. *)
Definition afterSelection (h : string) (k : Worker)
  : M (list libfido2_Assertion) :=
  if wk_pinProtected k then
    pinArg ← promptPIN;
    _ ← checkCtx;
    if String.eqb pinArg "" then failWith (DeviceError ErrPinRequired)
    else
      _ ← promptTouch;
      r ← liftW (devAssertion (wk_path k) (wk_rpID k) h [] pinArg
                   {| as_UP := libfido2.True; as_UV := libfido2.Default |});
      match r with
      | Some (Ok l) => mret l
      | Some (Err e) => failWith (surface e)
      | None =>
          _ ← liftW (λ w, ((), setDevices
                              (alter cancelInFlight (wk_path k) (devices w)) w));
          _ ← checkCtx;
          failWith DeadlineExceeded
      end
  else verifySelected h k.

(** Modelled from the spec: the passwordless ceremony of the missing
    engine (section 4.D.2): the device-selection touch and the race;
    on the winner the PIN and the second touch when it is
    PIN-protected, the second touch and the call with UV=true when it
    is not; the choice of the credential.  A single device that is not
    PIN-protected answers the first touch with its assertions. *)
Definition loginPasswordless (h : string) (a : CredentialAssertion)
    (user : string) (cs : list Candidate) : M (libfido2_Assertion * Worker) :=
  _ ← promptTouch;
  win ← race h (map (passwordlessWorker a (alone cs)) cs);
  l ← match win.2 with
      | Touched l => mret l
      | Selected => afterSelection h win.1
      | _ => failWith (Internal "no assertion")
      end;
  chosen ← pickAssertion true user l;
  _ ← setWinner (wk_path win.1);
  mret (chosen, win.1).

(** Modelled from the spec: the Result Assembler of the missing engine
    for login (section 4.E), and [actual_user] of section 6. *)
Definition assembleLogin (origin : string) (a : CredentialAssertion)
    (chosen : libfido2_Assertion) (k : Worker)
  : CredentialAssertionResponse * string :=
  ({| car_RawId := CredentialID chosen;
      car_ClientData := {| cd_Type := "webauthn.get";
                           cd_Challenge := ca_Challenge a;
                           cd_Origin := origin |};
      car_AuthenticatorData := AuthDataCBOR chosen;
      car_Signature := Sig chosen;
      car_UserHandle := user_ID (asr_User chosen);
      car_AppId := wk_appID k |},
   user_Name (asr_User chosen)).

Definition isPasswordless (a : CredentialAssertion) : bool :=
  bool_decide (ca_AllowedCredentials a = []).

Definition userOf (opts : option LoginOpts) : string :=
  from_option opts_User "" opts.

(** Modelled from the spec: [Login] of section 6, the entry point
    [FIDO2Login] of the missing engine.  [ticks] is the caller's
    deadline counted in polls of the locator. *)
Definition FIDO2Login (ticks : nat) (origin : string)
    (assertion : option CredentialAssertion) (promptArg : option LoginPrompt)
    (opts : option LoginOpts) (w : World)
  : (EngineError + (CredentialAssertionResponse * string)) * Run :=
  let r0 := {| world := w; prompt := promptArg; trace := []; winner := None |} in
  match validateLogin origin assertion promptArg, assertion with
  | Some msg, _ => (inl (InvalidArgument msg), r0)
  | None, None => (inl (InvalidArgument "assertion required"), r0)
  | None, Some a =>
      let h := clientDataHash {| cd_Type := "webauthn.get";
                                 cd_Challenge := ca_Challenge a;
                                 cd_Origin := origin |} in
      (_ ← checkCtx;
       cs ← discoverM ticks;
       res ← (if isPasswordless a
              then loginPasswordless h a (userOf opts) cs
              else loginMFA h a cs);
       mret (assembleLogin origin a res.1 res.2)) r0
  end.

(** Modelled from the spec: the challenge of a registration handed to
    the missing engine (section 3, "Challenge", "for register only"). *)
Record CredentialCreation := {
  cc_Challenge : string;
  cc_RelyingPartyID : string;
  cc_RelyingPartyName : string;
  cc_User : User;
  cc_Parameters : list libfido2.CredentialType;
  cc_ExcludeList : list string;
  cc_UserVerification : UserVerificationRequirement;
  cc_RequireResidentKey : bool
}.

(** Modelled from the spec: the attestation object and the register
    response of the missing engine (sections 3 and 4.E); CBOR is not
    modelled. *)
Record AttestationObject := {
  ao_Format : string;
  ao_AuthData : string;
  ao_Alg : option libfido2.CredentialType;
  ao_Sig : option string;
  ao_X5c : list string
}.

Record CredentialCreationResponse := {
  ccr_RawId : string;
  ccr_ClientData : ClientData;
  ccr_AttestationObject : AttestationObject
}.

Definition hasES256 (params : list libfido2.CredentialType) : bool :=
  existsb (Z.eqb libfido2.ES256) params.

(** Modelled from the spec: the missing engine's INIT state for
    register (section 4.D.1, step 1, and the register-only members of
    section 3).  The texts contain what [TestFIDO2Register_errors] looks
    for. *)
Definition validateRegister (origin : string) (cc : option CredentialCreation)
    (prompt : option LoginPrompt) : option string :=
  if String.eqb origin "" then Some "origin required"
  else
    match cc with
    | None => Some "credential creation required"
    | Some c =>
        if Nat.eqb (String.length (cc_Challenge c)) 0 then
          Some "credential creation challenge required"
        else if String.eqb (cc_RelyingPartyID c) "" then
          Some "credential creation relying party ID required"
        else if negb (hasES256 (cc_Parameters c)) then
          Some "credential parameters must include ES256"
        else
          match prompt with
          | None => Some "prompt required"
          | Some _ =>
              if negb (cc_RequireResidentKey c) then None
              else if String.eqb (cc_RelyingPartyName c) "" then
                Some "relying party name required for resident credential"
              else if String.eqb (user_Name (cc_User c)) "" then
                Some "user name required for resident credential"
              else if String.eqb (user_DisplayName (cc_User c)) "" then
                Some "user display name required for resident credential"
              else if Nat.eqb (String.length (user_ID (cc_User c))) 0 then
                Some "user ID required for resident credential"
              else None
          end
    end.

(** Modelled from the spec: step 1 of the register worker of the
    missing engine: a device that holds an excluded credential leaves
    the race. *)
Definition excluded (h : string) (c : CredentialCreation) (cand : Candidate)
    (w : World) : bool * World :=
  match cc_ExcludeList c with
  | [] => (false, w)
  | ids =>
      let '(r, w1) :=
        devAssertion (c_path cand) (cc_RelyingPartyID c) h ids "" probeOpts w in
      (match r with Some (Ok _) => true | _ => false end, w1)
  end.

(** Modelled from the spec: steps 2 and 3 of the register worker of the
    missing engine: any device in MFA mode; in resident-key mode one
    with [rk] and either [uv] or [clientPin]. *)
Definition eligible (c : CredentialCreation) (cand : Candidate) : bool :=
  negb (cc_RequireResidentKey c)
  || (c_rk cand && (c_uv cand || c_clientPin cand)).

(** Modelled from the spec: the options of [make_credential] in step 4
    of the register worker of the missing engine. *)
Definition registerOpts (c : CredentialCreation) (cand : Candidate)
  : MakeCredentialOpts :=
  {| mc_RK := if cc_RequireResidentKey c then libfido2.True else libfido2.False;
     mc_UV := match cc_UserVerification c with
              | VerificationRequired =>
                  if c_uv cand then libfido2.True else libfido2.Default
              | _ => libfido2.Default
              end |}.

(** Modelled from the spec: the plan of the register workers of the
    missing engine, device by device: exclusion, eligibility, and the
    PIN "via the prompt before the touch if the device is PIN-only". *)
Fixpoint planRegister (h : string) (c : CredentialCreation)
    (cs : list Candidate) : M (list (Candidate * string)) :=
  match cs with
  | [] => mret []
  | cand :: rest =>
      ex ← liftW (excluded h c cand);
      if ex || negb (eligible c cand) then planRegister h c rest
      else
        pinArg ← (if isPINProtected cand
                  then (p ← promptPIN; _ ← checkCtx; mret p)
                  else mret "");
        ws ← planRegister h c rest;
        mret ((cand, pinArg) :: ws)
  end.

(** Modelled from the spec: how a register worker of the missing engine
    stands when the race is decided. *)
Inductive MakeAttempt : Type :=
  | MakeWaiting
  | MakeFailed (e : EngineError)
  | Made (att : Attestation).

Fixpoint runMakers (rnd h : string) (c : CredentialCreation)
    (ws : list (Candidate * string)) (w : World)
  : list (Candidate * MakeAttempt) * World :=
  match ws with
  | [] => ([], w)
  | (cand, pinArg) :: rest =>
      match devices w !! c_path cand with
      | None =>
          let '(rs, w') := runMakers rnd h c rest w in
          ((cand, MakeFailed (Internal "not found")) :: rs, w')
      | Some d =>
          match MakeCredential (data w) rnd d h
                  {| rp_ID := cc_RelyingPartyID c;
                     rp_Name := cc_RelyingPartyName c |}
                  (cc_User c) libfido2.ES256 pinArg (registerOpts c cand) with
          | Blocks =>
              let '(rs, w') := runMakers rnd h c rest w in
              ((cand, MakeWaiting) :: rs, w')
          | Returns r d' =>
              let w1 := setDevices (<[c_path cand := d']> (devices w)) w in
              let '(rs, w') := runMakers rnd h c rest w1 in
              ((cand, match r with
                      | Ok att => Made att
                      | Err e => MakeFailed (surface e)
                      end) :: rs, w')
          end
      end
  end.

Definition isMade (a : MakeAttempt) : bool :=
  match a with Made _ => true | _ => false end.

Fixpoint cancelMakers (rs : list (Candidate * MakeAttempt)) (w : World) : World :=
  match rs with
  | [] => w
  | (cand, MakeWaiting) :: rest =>
      cancelMakers rest
        (setDevices (alter cancelInFlight (c_path cand) (devices w)) w)
  | _ :: rest => cancelMakers rest w
  end.

(** Modelled from the spec: the RACING state of the missing engine for
    register (section 4.D.3, step 4). *)
Definition raceRegister (rnd h : string) (c : CredentialCreation)
    (ws : list (Candidate * string)) : M Attestation := λ r,
  let '(rs, w1) := runMakers rnd h c ws (world r) in
  let w2 := cancelMakers rs w1 in
  match find (λ x, isMade x.2) rs with
  | Some (cand, Made att) =>
      (inr att, {| world := w2; prompt := prompt r; trace := trace r;
                   winner := Some (c_path cand) |})
  | _ =>
      (inl (if ctxCancelled w1 then Cancelled
            else if existsb (λ x, match x.2 with MakeWaiting => true
                                  | _ => false end) rs
                 then DeadlineExceeded
            else mostSpecific
                   (omap (λ x, match x.2 with MakeFailed e => Some e
                               | _ => None end) rs)),
       setWorld w2 r)
  end.

(** Modelled from the spec: the Result Assembler of the missing engine
    for register (section 4.E): [packed] carries alg, sig and x5c,
    [fido-u2f] sig and x5c, [none] nothing. *)
Definition assembleRegister (origin : string) (c : CredentialCreation)
    (att : Attestation) : CredentialCreationResponse :=
  {| ccr_RawId := att_CredentialID att;
     ccr_ClientData := {| cd_Type := "webauthn.create";
                          cd_Challenge := cc_Challenge c;
                          cd_Origin := origin |};
     ccr_AttestationObject :=
       if String.eqb (att_Format att) "none" then
         {| ao_Format := "none"; ao_AuthData := att_AuthData att;
            ao_Alg := None; ao_Sig := None; ao_X5c := [] |}
       else
         {| ao_Format := att_Format att; ao_AuthData := att_AuthData att;
            ao_Alg := if String.eqb (att_Format att) "packed"
                      then Some libfido2.ES256 else None;
            ao_Sig := att_Sig att;
            ao_X5c := match att_Cert att with
                      | Some x => [x]
                      | None => []
                      end |} |}.

(** Modelled from the spec: [Register] of section 6, the entry point
    [FIDO2Register] of the missing engine.  [rnd] stands for the bytes
    the device draws for a resident credential. *)
Definition FIDO2Register (ticks : nat) (rnd origin : string)
    (cc : option CredentialCreation) (promptArg : option LoginPrompt)
    (w : World) : (EngineError + CredentialCreationResponse) * Run :=
  let r0 := {| world := w; prompt := promptArg; trace := []; winner := None |} in
  match validateRegister origin cc promptArg, cc with
  | Some msg, _ => (inl (InvalidArgument msg), r0)
  | None, None => (inl (InvalidArgument "credential creation required"), r0)
  | None, Some c =>
      let h := clientDataHash {| cd_Type := "webauthn.create";
                                 cd_Challenge := cc_Challenge c;
                                 cd_Origin := origin |} in
      (_ ← checkCtx;
       cs ← discoverM ticks;
       ws ← planRegister h c cs;
       _ ← promptTouch;
       att ← raceRegister rnd h c ws;
       mret (assembleRegister origin c att)) r0
  end.

(** ** Fixtures of the tests *)

Definition mkOption (n : string) (v : OptionValue) : Option :=
  {| opt_Name := n; opt_Value := v |}.

(** [authOpts], [pinOpts] and [bioOpts]: the common authenticator
    options. *)
Definition authOpts : list Option :=
  [ mkOption "rk" "true"; mkOption "up" "true"; mkOption "plat" "false";
    mkOption "clientPin" "false" ].

Definition pinOpts : list Option :=
  [ mkOption "rk" "true"; mkOption "up" "true"; mkOption "plat" "false";
    mkOption "clientPin" "true" ].

Definition bioOpts : list Option :=
  [ mkOption "rk" "true"; mkOption "up" "true"; mkOption "uv" "true";
    mkOption "plat" "false"; mkOption "alwaysUv" "true";
    mkOption "bioEnroll" "true"; mkOption "clientPin" "true" ].

(** [newFIDO2Device].  [k] and [pubKeyCBOR] stand for the key made by
    [mocku2f.Create] and its CBOR encoding, [rnd] for the random
    identifiers, one per credential, that overwrite [cred.ID]. *)
Definition newFIDO2Device (k : Key) (pubKeyCBOR : string) (rnd : list string)
    (pathArg pinArg : string) (infoArg : option DeviceInfo)
    (creds : list Credential) : fakeFIDO2Device :=
  {| failUV := false; u2fOnly := false; assertionErrors := [];
     path := pathArg; info := infoArg; pin := pinArg;
     credentials :=
       zip_with (λ c id, {| cred_ID := id; cred_Type := libfido2.ES256;
                            cred_User := cred_User c |}) creds rnd;
     wantRPID := ""; format := "packed"; key := k; pubKey := pubKeyCBOR;
     up := false; cancel := false |}.

Definition namedCredential (id name : string) : Credential :=
  {| cred_ID := ""; cred_Type := 0%Z;
     cred_User := {| user_ID := id; user_Name := name;
                     user_DisplayName := ""; user_Icon := "" |} |}.

(** Sample values: the random arrays of [init] and devices built the
    way the tests build them. *)
Definition sampleData : TestData :=
  {| makeCredentialAuthDataCBOR := "mc-auth-data-cbor";
     makeCredentialSig := "mc-sig";
     assertionAuthDataCBOR := "as-auth-data-cbor";
     assertionSig := "as-sig" |}.

Definition sampleKey (n : string) : Key :=
  {| KeyHandle := "kh-" ++ n; Cert := "cert-" ++ n |}.

(** A FIDO2 authenticator without a PIN configured. *)
Definition auth1 : fakeFIDO2Device :=
  newFIDO2Device (sampleKey "auth1") "pk-auth1" [] "/auth1" ""
    (Some {| Options := authOpts |}) [].

(** A FIDO2 authenticator with a PIN and one resident credential. *)
Definition pin1 : fakeFIDO2Device :=
  newFIDO2Device (sampleKey "pin1") "pk-pin1" ["rc-pin1-alpaca"] "/pin1"
    "supersecretpin1" (Some {| Options := pinOpts |})
    [namedCredential "alpacaID" "alpaca"].

(** A biometric authenticator with two resident credentials. *)
Definition bio1 : fakeFIDO2Device :=
  newFIDO2Device (sampleKey "bio1") "pk-bio1"
    ["rc-bio1-llama"; "rc-bio1-alpaca"] "/bio1"
    "supersecretBIO1pin" (Some {| Options := bioOpts |})
    [namedCredential "llamaID" "llama"; namedCredential "alpacaID" "alpaca"].

(** A biometric authenticator with a single resident credential. *)
Definition bioSingle : fakeFIDO2Device :=
  newFIDO2Device (sampleKey "bio") "pk-bio" ["rc-bio-llama"] "/bio"
    "supersecretBIOpin" (Some {| Options := bioOpts |})
    [namedCredential "llamaID" "llama"].

(** An authenticator with built-in user verification that is neither
    biometric nor PIN-capable. *)
Definition uvOnly : fakeFIDO2Device :=
  newFIDO2Device (sampleKey "uv") "pk-uv" [] "/uv" ""
    (Some {| Options := [mkOption "rk" "true"; mkOption "uv" "true"] |}) [].

Definition sampleRP : RelyingParty :=
  {| rp_ID := "example.com"; rp_Name := "Teleport" |}.

Definition sampleUser : User :=
  {| user_ID := "llamaID"; user_Name := "llama";
     user_DisplayName := "Llama"; user_Icon := "" |}.

(** The challenges of the tests: an MFA assertion that allows the three
    sample devices, a passwordless assertion, and a credential creation
    that offers EdDSA only. *)
Definition mfaAssertion : CredentialAssertion :=
  {| ca_Challenge := "challenge-bytes"; ca_RelyingPartyID := "example.com";
     ca_AllowedCredentials :=
       [credentialID auth1; credentialID pin1; credentialID bio1];
     ca_UserVerification := VerificationPreferred; ca_AppID := None |}.

Definition pwdlessAssertion : CredentialAssertion :=
  {| ca_Challenge := "challenge-bytes"; ca_RelyingPartyID := "example.com";
     ca_AllowedCredentials := [];
     ca_UserVerification := VerificationRequired; ca_AppID := None |}.

Definition eddsaCC : CredentialCreation :=
  {| cc_Challenge := "challenge-bytes"; cc_RelyingPartyID := "example.com";
     cc_RelyingPartyName := ""; cc_User := emptyUser;
     cc_Parameters := [libfido2.EDDSA]; cc_ExcludeList := [];
     cc_UserVerification := VerificationDiscouraged;
     cc_RequireResidentKey := false |}.

(** A passwordless login with the PIN device and the biometric device
    both plugged, the PIN device serving as prompt and counted. *)
Definition twoDevices : World := newFakeFIDO2 sampleData [pin1; bio1].

Definition pwdlessOnPin1 :=
  FIDO2Login 5 "https://example.com" (Some pwdlessAssertion)
    (Some (countingPrompt (devicePrompt "/pin1") 0)) None twoDevices.

Definition pin1Response : CredentialAssertionResponse :=
  {| car_RawId := "rc-pin1-alpaca";
     car_ClientData := {| cd_Type := "webauthn.get";
                          cd_Challenge := "challenge-bytes";
                          cd_Origin := "https://example.com" |};
     car_AuthenticatorData := "as-auth-data-cbor";
     car_Signature := "as-sig";
     car_UserHandle := "alpacaID";
     car_AppId := false |}.

(** "NOK cancel after PIN": the PIN device and the biometric device
    plugged, the PIN device touched, and a prompt that answers with the
    PIN and cancels the context. *)
Definition pin1Touched : World :=
  setDevices (alter setUP "/pin1" (devices twoDevices)) twoDevices.

Definition cancelAfterPIN :=
  FIDO2Login 5 "https://example.com" (Some pwdlessAssertion)
    (Some (pinCancelPrompt "supersecretpin1")) None pin1Touched.










(** The response of the biometric device with a single resident
    credential. *)
Definition bioResponse : CredentialAssertionResponse :=
  {| car_RawId := "rc-bio-llama";
     car_ClientData := {| cd_Type := "webauthn.get";
                          cd_Challenge := "challenge-bytes";
                          cd_Origin := "https://example.com" |};
     car_AuthenticatorData := "as-auth-data-cbor";
     car_Signature := "as-sig";
     car_UserHandle := "llamaID";
     car_AppId := false |}.

(** ** Vocabulary of the properties *)

(** [a] is the assertion the authenticator builds for the resident
    credential [r], as collected or with the user record stripped. *)
Definition isResidentFor (td : TestData) (r : Credential)
    (a : libfido2_Assertion) : Prop :=
  a = residentAssertion td r ∨ a = stripUser (residentAssertion td r).

(** The argument checks of [MakeCredential] that come before the UV
    check pass. *)
Definition mcArgsOK (clientDataHash : string) (rp : RelyingParty)
    (typ : libfido2.CredentialType) : Prop :=
  String.length clientDataHash ≠ 0 ∧ rp_ID rp ≠ "" ∧ typ = libfido2.ES256.

(** The replay of simulated errors and the argument checks of
    [Assertion] that come before the UV check pass. *)
Definition asArgsOK (f : fakeFIDO2Device) (rpID clientDataHash : string) : Prop :=
  assertionErrors f = [] ∧ rpID ≠ ""
  ∧ (wantRPID f = "" ∨ wantRPID f = rpID)
  ∧ String.length clientDataHash ≠ 0.

(** The option checks of [MakeCredential] that sit between the argument
    checks and the PIN validation pass. *)
Definition mcOptsOK (f : fakeFIDO2Device) (opts : MakeCredentialOpts) : Prop :=
  mc_UV opts ≠ libfido2.False
  ∧ (mc_UV opts = libfido2.True → hasUV f = true)
  ∧ (mc_RK opts = libfido2.True → hasRK f = true).

(** The checks of [Assertion] up to and including the UV check pass. *)
Definition asUVOK (f : fakeFIDO2Device) (pinArg : string)
    (opts : AssertionOpts) : Prop :=
  as_UV opts = libfido2.Default
  ∨ (as_UV opts = libfido2.True ∧ failUV f = false
     ∧ (isBio f = true ∨ (hasClientPin f = true ∧ pinArg ≠ ""))).

(** The number of touch prompts in a log of prompt invocations. *)
Definition touches (t : list Event) : nat :=
  length (filter (λ e, e = EvPromptTouch) t).

(** What a login never changes in a device: its information, its
    credentials, its key, its PIN and its flags. *)
Definition sameDevice (d d' : fakeFIDO2Device) : Prop :=
  info d' = info d ∧ credentials d' = credentials d ∧ key d' = key d
  ∧ pin d' = pin d ∧ u2fOnly d' = u2fOnly d ∧ failUV d' = failUV d
  ∧ wantRPID d' = wantRPID d.

(** [w'] is a later state of the world [w] during a login: same
    registry, same random arrays, and at every path the same device up
    to its touch state and its queue of simulated errors. *)
Definition evolves (w w' : World) : Prop :=
  locs w' = locs w ∧ data w' = data w
  ∧ useNonMeteredLocs w' = useNonMeteredLocs w
  ∧ ∀ p, match devices w !! p, devices w' !! p with
         | Some d, Some d' => sameDevice d d'
         | None, None => True
         | _, _ => False
         end.

(** [evolves], and the context is as cancelled as it was. *)
Definition steady (w w' : World) : Prop :=
  evolves w w' ∧ ctxCancelled w' = ctxCancelled w.

(** A step of the engine that invokes no prompt and leaves the winner
    slot alone. *)
Definition quiet (r r' : Run) : Prop :=
  prompt r' = prompt r ∧ trace r' = trace r ∧ winner r' = winner r
  ∧ steady (world r) (world r').

(** The arguments INIT looks at. *)
Inductive Field : Type :=
  | FieldOrigin
  | FieldRecord
  | FieldChallenge
  | FieldRelyingPartyID
  | FieldPrompt
  | FieldParameters.

(** The argument [f] of a login is missing. *)
Definition loginFieldMissing (f : Field) (origin : string)
    (assertion : option CredentialAssertion) (promptArg : option LoginPrompt)
  : Prop :=
  match f with
  | FieldOrigin => origin = ""
  | FieldRecord => assertion = None
  | FieldChallenge =>
      ∃ a, assertion = Some a ∧ String.length (ca_Challenge a) = 0
  | FieldRelyingPartyID => ∃ a, assertion = Some a ∧ ca_RelyingPartyID a = ""
  | FieldPrompt => promptArg = None
  | FieldParameters => False
  end.

(** What the tests look for in the error of a login for [f]. *)
Definition loginFieldText (f : Field) : string :=
  match f with
  | FieldOrigin => "origin"
  | FieldRecord => "assertion required"
  | FieldChallenge => "challenge"
  | FieldRelyingPartyID => "relying party ID"
  | FieldPrompt => "prompt"
  | FieldParameters => "ES256"
  end.

(** The argument [f] of a registration is missing; for the credential
    parameters, they lack ES256. *)
Definition registerFieldMissing (f : Field) (origin : string)
    (cc : option CredentialCreation) (promptArg : option LoginPrompt) : Prop :=
  match f with
  | FieldOrigin => origin = ""
  | FieldRecord => cc = None
  | FieldChallenge => ∃ c, cc = Some c ∧ String.length (cc_Challenge c) = 0
  | FieldRelyingPartyID => ∃ c, cc = Some c ∧ cc_RelyingPartyID c = ""
  | FieldPrompt => promptArg = None
  | FieldParameters => ∃ c, cc = Some c ∧ hasES256 (cc_Parameters c) = false
  end.

(** What the tests look for in the error of a registration for [f]. *)
Definition registerFieldText (f : Field) : string :=
  match f with
  | FieldOrigin => "origin"
  | FieldRecord => "credential creation required"
  | FieldChallenge => "challenge"
  | FieldRelyingPartyID => "relying party ID"
  | FieldPrompt => "prompt"
  | FieldParameters => "ES256"
  end.

(** The run a ceremony starts from. *)
Definition initialRun (promptArg : option LoginPrompt) (w : World) : Run :=
  {| world := w; prompt := promptArg; trace := []; winner := None |}.

(** The value of a counter that held [c], after [n] increments. *)
Fixpoint counted (n : nat) (c : Z) : Z :=
  match n with
  | 0 => c
  | S k => wrapInt (counted k c + 1)
  end.

(** Between [r] and [r'] the engine prompted [n] touches: the log has
    [n] more touch prompts, and a counting prompt has counted [n]
    more. *)
Definition touched (n : nat) (r r' : Run) : Prop :=
  touches (trace r') = touches (trace r) + n
  ∧ ∀ inner c, prompt r = Some (countingPrompt inner c) →
      ∃ inner', prompt r' = Some (countingPrompt inner' (counted n c)).


(** The transient UV error. *)
Definition e63 : error := Libfido2Error 63.

(** The test sets [assertionErrors] of the device plugged at [p] to
    [es]; the registry and the prompt hold the same device. *)
Definition queueErrors (es : list error) (p : string) (w : World) : World :=
  setDevices (alter (set_assertionErrors es) p (devices w)) w.

(** The only plugged device is the one at [p]. *)
Definition onlyPlugged (p : string) (w : World) : Prop :=
  locs w = [p] ∧ is_Some (openDevice w p).

(** The world of [TestFIDO2Login_bioErrorHandling]: the biometric
    device alone, which also serves as prompt. *)
Definition bioWorld : World :=
  withNonMeteredLocations (newFakeFIDO2 sampleData [bioSingle]).


(** [w] is the world [w0] in which the device at [p], which has no
    simulated error queued in [w0], reports [es] first. *)
Definition queued (es : list error) (p : string) (w w0 : World) : Prop :=
  ∃ d0, devices w0 !! p = Some d0 ∧ assertionErrors d0 = []
    ∧ w = setDevices (<[p := set_assertionErrors es d0]> (devices w0)) w0.

(** [w] and [w0] are the same world, or [w] still has the two transient
    errors queued at [p]. *)
Definition sim (p : string) (w w0 : World) : Prop :=
  w = w0 ∨ queued [e63; e63] p w w0.

Definition simRun (p : string) (r r0 : Run) : Prop :=
  sim p (world r) (world r0) ∧ prompt r = prompt r0
  ∧ trace r = trace r0 ∧ winner r = winner r0.

(** The ceremony step [m] cannot tell the two worlds apart. *)
Definition respects {A : Type} (p : string) (m : M A) : Prop :=
  ∀ r r0 x r', simRun p r r0 → m r = (x, r') →
    ∃ r0', m r0 = (x, r0') ∧ simRun p r' r0'.

(** The same for a step that only works on the world. *)
Definition respectsW {A : Type} (p : string) (f : World → A * World) : Prop :=
  ∀ w w0 x w', sim p w w0 → f w = (x, w') →
    ∃ w0', f w0 = (x, w0') ∧ sim p w' w0'.

(** ** The registry and the devices as the tests drive them *)

(** The loop of [newFakeFIDO2]: each device is registered under its
    path, in order; [None] is the panic on a path registered twice. *)
Fixpoint registerDevices (devs : list fakeFIDO2Device) (ls : list string)
    (ds : gmap string fakeFIDO2Device)
  : option (list string * gmap string fakeFIDO2Device) :=
  match devs with
  | [] => Some (ls, ds)
  | dev :: rest =>
      match ds !! path dev with
      | Some _ => None
      | None =>
          registerDevices rest (ls ++ [path dev]) (<[path dev := dev]> ds)
      end
  end.

(** [newFakeFIDO2(devs...)] with its panic. *)
Definition newFakeFIDO2_checked (td : TestData) (devs : list fakeFIDO2Device)
  : option World :=
  match registerDevices devs [] ∅ with
  | None => None
  | Some (ls, ds) =>
      Some {| useNonMeteredLocs := false; locs := ls; meter := 0;
              devices := ds; data := td; ctxCancelled := false |}
  end.

(** The hook [*wancli.FIDONewDevice] as [setCallbacks] installs it:
    [f.NewDevice]. *)
Definition FIDONewDevice (w : World) (p : string) : option fakeFIDO2Device :=
  NewDevice w p.

(** [n] successive calls of the closure of [newMeteredDeviceLocations],
    the answers in order and the counter they leave. *)
Fixpoint meteredPolls (n : nat) (ls : list string) (i : Z)
  : list (list string) * Z :=
  match n with
  | 0 => ([], i)
  | S k =>
      let '(ps, i1) := meteredDeviceLocations ls i in
      let '(rest, i2) := meteredPolls k ls i1 in
      (ps :: rest, i2)
  end.

(** [n] successive calls of the hook [*wancli.FIDODeviceLocations], the
    answers in order. *)
Fixpoint pollLocations (n : nat) (w : World) : list (list string) * World :=
  match n with
  | 0 => ([], w)
  | S k =>
      let '(ps, w1) := FIDODeviceLocations w in
      let '(rest, w2) := pollLocations k w1 in
      (ps :: rest, w2)
  end.

(** The checks of [Assertion] before it waits for the user pass: the
    arguments, the UV option, and the PIN when one is given with UP. *)
Definition asChecksOK (f : fakeFIDO2Device) (rpID clientDataHash pinArg : string)
    (opts : AssertionOpts) : Prop :=
  asArgsOK f rpID clientDataHash ∧ asUVOK f pinArg opts
  ∧ (pinArg ≠ "" → as_UP opts = libfido2.True → validatePIN f pinArg = None).

(** The checks of [MakeCredential] before it waits for the user pass. *)
Definition mcChecksOK (f : fakeFIDO2Device) (clientDataHash : string)
    (rp : RelyingParty) (typ : libfido2.CredentialType) (pinArg : string)
    (opts : MakeCredentialOpts) : Prop :=
  mcArgsOK clientDataHash rp typ ∧ mcOptsOK f opts
  ∧ validatePIN f pinArg = None.

(** The device after a call that waited for the user: [up] and [cancel]
    are reset. *)
Definition released (f : fakeFIDO2Device) : fakeFIDO2Device :=
  set_up_cancel false false f.

(** The options of a call that asks for user presence only. *)
Definition upOnly : AssertionOpts :=
  {| as_UP := libfido2.True; as_UV := libfido2.Default |}.

(** A registration with a resident key on the touched biometric device:
    the credential it stores, the device it leaves and the attestation
    it returns, ["fresh"] standing for the random id. *)
Definition freshCredential : Credential :=
  {| cred_ID := "fresh"; cred_Type := libfido2.ES256;
     cred_User := sampleUser |}.

Definition bio1Registered : fakeFIDO2Device :=
  set_credentials (credentials bio1 ++ [freshCredential]) (released bio1).

Definition freshAttestation : Attestation :=
  {| att_ClientDataHash := "hash";
     att_AuthData := makeCredentialAuthDataCBOR sampleData;
     att_CredentialID := "fresh";
     att_CredentialType := libfido2.ES256;
     att_PubKey := pubKey bio1;
     att_Cert := Some (cert bio1);
     att_Sig := Some (makeCredentialSig sampleData);
     att_Format := "packed" |}.

Definition rkOpts : MakeCredentialOpts :=
  {| mc_RK := libfido2.True; mc_UV := libfido2.True |}.

(** A registration without resident key on the touched device without
    PIN: the attestation it returns. *)
Definition auth1Attestation : Attestation :=
  {| att_ClientDataHash := "hash";
     att_AuthData := makeCredentialAuthDataCBOR sampleData;
     att_CredentialID := credentialID auth1;
     att_CredentialType := libfido2.ES256;
     att_PubKey := pubKey auth1;
     att_Cert := Some (cert auth1);
     att_Sig := Some (makeCredentialSig sampleData);
     att_Format := "packed" |}.

Definition noOpts : MakeCredentialOpts :=
  {| mc_RK := libfido2.Default; mc_UV := libfido2.Default |}.

(** [n] successive [Assertion] calls with the same arguments on the
    same device: the results in order and the device they leave; a
    call that waits for the user ends the sequence. *)
Fixpoint AssertionCalls (n : nat) (td : TestData) (f : fakeFIDO2Device)
    (rpID clientDataHash : string) (credentialIDs : list string)
    (pinArg : string) (opts : AssertionOpts)
  : list (Result (list libfido2_Assertion)) * fakeFIDO2Device :=
  match n with
  | 0 => ([], f)
  | S k =>
      match Assertion td f rpID clientDataHash credentialIDs pinArg opts with
      | Blocks => ([], f)
      | Returns r f1 =>
          let '(rs, f2) :=
            AssertionCalls k td f1 rpID clientDataHash credentialIDs pinArg
              opts in
          (r :: rs, f2)
      end
  end.

(* ================================================================== *)
(** * Properties of the fake authenticator *)

Lemma eqb_empty_false (s : string) : s ≠ "" → String.eqb s "" = false.
Proof. intros H. by apply String.eqb_neq. Qed.

Lemma length_eqb_false (s : string) :
  String.length s ≠ 0 → Nat.eqb (String.length s) 0 = false.
Proof. intros H. by apply Nat.eqb_neq. Qed.

(** A call of [maybeLockUntilInteraction] never reports anything but a
    cancelled keep-alive. *)
Lemma maybeLockUntilInteraction_error upArg f e f' :
  maybeLockUntilInteraction upArg f = Returns (Some e) f' →
  e = ErrKeepaliveCancel.
Proof.
  unfold maybeLockUntilInteraction.
  destruct upArg; simpl; [|discriminate].
  destruct (negb (up f) && negb (cancel f)); [discriminate|].
  destruct (cancel f); congruence.
Qed.

Lemma maybeLockUntilInteraction_static upArg f r f' :
  maybeLockUntilInteraction upArg f = Returns r f' →
  info f' = info f ∧ pin f' = pin f ∧ credentials f' = credentials f
  ∧ key f' = key f ∧ assertionErrors f' = assertionErrors f
  ∧ path f' = path f.
Proof.
  unfold maybeLockUntilInteraction.
  destruct upArg; simpl.
  - destruct (negb (up f) && negb (cancel f)); [discriminate|].
    destruct (cancel f); intros [= <- <-]; done.
  - intros [= <- <-]; done.
Qed.

(** The two kinds of assertions are told apart by [HMACSecret]. *)
Lemma base_not_resident td f r :
  baseAssertion td f ≠ residentAssertion td r
  ∧ stripUser (baseAssertion td f) ≠ residentAssertion td r
  ∧ baseAssertion td f ≠ stripUser (residentAssertion td r)
  ∧ stripUser (baseAssertion td f) ≠ stripUser (residentAssertion td r).
Proof. repeat split; intros H; by apply (f_equal HMACSecret) in H. Qed.

(** Without privileged access only the base credential can be
    asserted. *)
Lemma collectAssertions_unprivileged td f ids :
  collectAssertions td f ids false = []
  ∨ collectAssertions td f ids false = [baseAssertion td f].
Proof.
  unfold collectAssertions. case_bool_decide; simpl; auto.
Qed.

(** What a returning [Assertion] call is made of, once the replayed
    errors are used up. *)
Lemma Assertion_returns_ok td f rpID h ids pinArg opts l f' :
  Assertion td f rpID h ids pinArg opts = Returns (Ok l) f' →
  let priv := isBio f
              || (negb (String.eqb pinArg "")
                  && String.eqb (as_UP opts) libfido2.True) in
  let collected := collectAssertions td f' ids priv in
  (priv = true →
     isBio f = true
     ∨ (pinArg ≠ "" ∧ as_UP opts = libfido2.True ∧ validatePIN f pinArg = None))
  ∧ ((∃ a, collected = [a] ∧ l = [stripUser a])
     ∨ (1 < length collected ∧ l = collected))
  ∧ credentials f' = credentials f ∧ key f' = key f ∧ info f' = info f.
Proof.
  unfold Assertion. intros H.
  destruct (assertionErrors f); [|discriminate].
  destruct (String.eqb rpID ""); [discriminate|].
  destruct (negb (String.eqb (wantRPID f) "") && negb (String.eqb (wantRPID f) rpID));
    [discriminate|].
  destruct (Nat.eqb (String.length h) 0); [discriminate|].
  match type of H with
  | (if negb ?c then _ else _) = _ => destruct c; simpl in H; [|discriminate]
  end.
  assert (Hfin : ∀ p f1,
    match collectAssertions td f1 ids p with
    | [] => Returns (Err ErrNoCredentials) f1
    | [a] => Returns (Ok [stripUser a]) f1
    | _ => Returns (Ok (collectAssertions td f1 ids p)) f1
    end = Returns (Ok l) f' →
    f1 = f' ∧
    ((∃ a, collectAssertions td f' ids p = [a] ∧ l = [stripUser a])
     ∨ (1 < length (collectAssertions td f' ids p)
        ∧ l = collectAssertions td f' ids p))).
  { intros p f1 Hm.
    destruct (collectAssertions td f1 ids p) as [|a [|b rest]] eqn:Hcol;
      [discriminate| |]; injection Hm as <- <-; (split; [done|]).
    - left. eauto.
    - right. rewrite Hcol. simpl. split; [lia|done]. }
  destruct (String.eqb pinArg "") eqn:Hp; simpl in H |- *.
  - destruct (maybeLockUntilInteraction _ f) as [[e|] f1|] eqn:Hl;
      [discriminate| |discriminate].
    apply maybeLockUntilInteraction_static in Hl as (Hi & _ & Hc & Hk & _).
    rewrite !orb_false_r in *.
    apply Hfin in H as [<- H]. auto.
  - destruct (String.eqb (as_UP opts) libfido2.True) eqn:Hup; simpl in H |- *.
    + destruct (validatePIN f pinArg) eqn:Hv; [discriminate|].
      destruct (maybeLockUntilInteraction _ f) as [[e|] f1|] eqn:Hl;
        [discriminate| |discriminate].
      apply maybeLockUntilInteraction_static in Hl as (Hi & _ & Hc & Hk & _).
      apply String.eqb_neq in Hp. apply String.eqb_eq in Hup.
      apply Hfin in H as [<- H]. auto 6.
    + rewrite !orb_false_r in *.
      apply Hfin in H as [<- H]. auto.
Qed.

Lemma residentAssertion_user td r :
  asr_User (residentAssertion td r) = cred_User r.
Proof. by destruct r as [? ? []]. Qed.

(** The collected assertions depend on the key and the stored
    credentials only. *)
Lemma collectAssertions_ext td f f' ids p :
  key f' = key f → credentials f' = credentials f →
  collectAssertions td f' ids p = collectAssertions td f ids p.
Proof.
  intros Hk Hc. unfold collectAssertions, baseAssertion. by rewrite Hk, Hc.
Qed.

Lemma collectAssertions_elem td f ids p a :
  a ∈ collectAssertions td f ids p →
  a = baseAssertion td f
  ∨ (p = true ∧ ∃ r, r ∈ credentials f ∧ a = residentAssertion td r).
Proof.
  unfold collectAssertions. intros [Ha|Ha]%elem_of_app.
  - case_bool_decide; [|by apply not_elem_of_nil in Ha].
    apply list_elem_of_singleton in Ha. auto.
  - destruct p; [|by apply not_elem_of_nil in Ha].
    apply list_elem_of_fmap in Ha as (r & -> & Hr).
    apply list_elem_of_filter in Hr as [_ Hr]. right. eauto.
Qed.

(** C4: an [Assertion] call that succeeds returns as many assertions as
    it collected.  When it collected exactly one, that assertion comes
    back with its authenticator data, signature, HMAC secret, credential
    id and user id as collected and with user name, display name and
    icon empty; when it collected more than one, the list comes back as
    collected and every user record is the stored one, untouched. *)
Theorem Assertion_single_user_stripped td f rpID h ids pinArg opts l f' :
  Assertion td f rpID h ids pinArg opts = Returns (Ok l) f' →
  ∃ collected,
    collected = collectAssertions td f ids
                  (isBio f || (negb (String.eqb pinArg "")
                               && String.eqb (as_UP opts) libfido2.True))
    ∧ length l = length collected
    ∧ (∀ a0, collected = [a0] →
         l = [{| AuthDataCBOR := AuthDataCBOR a0;
                 Sig := Sig a0;
                 HMACSecret := HMACSecret a0;
                 CredentialID := CredentialID a0;
                 asr_User := {| user_ID := user_ID (asr_User a0);
                                user_Name := "";
                                user_DisplayName := "";
                                user_Icon := "" |} |}]
         ∧ (a0 = baseAssertion td f
            ∨ ∃ r, r ∈ credentials f ∧ a0 = residentAssertion td r
                   ∧ CredentialID a0 = cred_ID r
                   ∧ user_ID (asr_User a0) = user_ID (cred_User r)))
    ∧ (∀ a, l = [a] →
         user_Name (asr_User a) = "" ∧ user_DisplayName (asr_User a) = ""
         ∧ user_Icon (asr_User a) = "")
    ∧ (1 < length l →
         l = collected
         ∧ ∀ a, a ∈ l →
             a = baseAssertion td f
             ∨ ∃ r, r ∈ credentials f ∧ a = residentAssertion td r
                    ∧ asr_User a = cred_User r).
Proof.
  intros H. apply Assertion_returns_ok in H as (_ & Hl & Hc & Hk & _).
  rewrite (collectAssertions_ext td f f') in Hl by done.
  eexists. split; [reflexivity|].
  split_and!.
  - destruct Hl as [(a0 & -> & ->)|[_ ->]]; done.
  - intros a0 Hone. destruct Hl as [(a1 & Ha1 & ->)|[Hlen _]].
    + rewrite Hone in Ha1. injection Ha1 as <-. split; [done|].
      assert (a0 ∈ collectAssertions td f ids
                     (isBio f || (negb (String.eqb pinArg "")
                                  && String.eqb (as_UP opts) libfido2.True)))
        as Hin by (rewrite Hone; apply list_elem_of_here).
      apply collectAssertions_elem in Hin as [->|(_ & r & Hr & ->)];
        [by left|].
      right. exists r. by destruct r as [? ? []].
    + rewrite Hone in Hlen. simpl in Hlen. lia.
  - intros a ->. destruct Hl as [(a0 & _ & [= ->])|[Hlen Heq]]; [done|].
    rewrite <- Heq in Hlen. simpl in Hlen. lia.
  - intros Hlen. destruct Hl as [(a0 & _ & ->)|[_ Heq]]; [simpl in Hlen; lia|].
    split; [done|]. intros a Ha. rewrite Heq in Ha.
    apply collectAssertions_elem in Ha as [->|(_ & r & Hr & ->)]; [by left|].
    right. exists r. by rewrite residentAssertion_user.
Qed.

(** The biometric device of the tests with a single resident credential,
    touched and asked without an allow list, returns the credential of
    llama under its id and user id, without the name; the biometric
    device with two resident credentials returns both user records as
    stored. *)
Lemma Assertion_single_user_stripped_witness :
  Assertion sampleData (setUP bioSingle) "example.com" "hash" [] ""
    {| as_UP := libfido2.True; as_UV := libfido2.True |}
  = Returns
      (Ok [{| AuthDataCBOR := "as-auth-data-cbor"; Sig := "as-sig";
              HMACSecret := Some ""; CredentialID := "rc-bio-llama";
              asr_User := {| user_ID := "llamaID"; user_Name := "";
                             user_DisplayName := ""; user_Icon := "" |} |}])
      bioSingle
  ∧ (∃ r, r ∈ credentials (setUP bioSingle)
          ∧ user_Name (cred_User r) = "llama"
          ∧ cred_ID r = "rc-bio-llama" ∧ user_ID (cred_User r) = "llamaID")
  ∧ map (residentAssertion sampleData) (credentials bio1)
    = collectAssertions sampleData (setUP bio1) [] true
  ∧ ∀ a, a ∈ map (residentAssertion sampleData) (credentials bio1) →
      a = baseAssertion sampleData (setUP bio1)
      ∨ ∃ r, r ∈ credentials (setUP bio1) ∧ a = residentAssertion sampleData r
             ∧ asr_User a = cred_User r.
Proof.
  assert (Assertion sampleData (setUP bioSingle) "example.com" "hash" [] ""
            {| as_UP := libfido2.True; as_UV := libfido2.True |}
          = Returns
              (Ok [stripUser (residentAssertion sampleData
                     {| cred_ID := "rc-bio-llama"; cred_Type := libfido2.ES256;
                        cred_User := {| user_ID := "llamaID";
                                        user_Name := "llama";
                                        user_DisplayName := "";
                                        user_Icon := "" |} |})])
              bioSingle) as Hone by (vm_compute; reflexivity).
  assert (Assertion sampleData (setUP bio1) "example.com" "hash" [] ""
            {| as_UP := libfido2.True; as_UV := libfido2.True |}
          = Returns (Ok (map (residentAssertion sampleData) (credentials bio1)))
              bio1) as Hmany by (vm_compute; reflexivity).
  destruct (Assertion_single_user_stripped _ _ _ _ _ _ _ _ _ Hone)
    as (c1 & -> & _ & Hstrip & _ & _).
  destruct (Assertion_single_user_stripped _ _ _ _ _ _ _ _ _ Hmany)
    as (c2 & -> & _ & _ & _ & Hlist).
  destruct (Hstrip _ eq_refl) as [Hl [Hbase|(r & Hr & Ha & Hid & Huid)]].
  { discriminate Hbase. }
  destruct (Hlist ltac:(simpl; lia)) as [Hcol Huntouched].
  split_and!.
  - exact Hone.
  - exists r. split; [done|]. split_and!.
    + apply list_elem_of_singleton in Hr. by subst r.
    + by rewrite <- Hid.
    + by rewrite <- Huid.
  - exact Hcol.
  - exact Huntouched.
Defined.


(** C2, as stated, fails: on the biometric device of the tests the call
    issued with only the UP bit (no PIN, no UV) returns the assertion
    of the resident credential. *)
Lemma UP_only_call_reveals_resident_on_bio :
  isBio bioSingle = true
  ∧ Assertion sampleData (setUP bioSingle) "example.com" "hash" [] ""
      {| as_UP := libfido2.True; as_UV := libfido2.Default |}
    = Returns
        (Ok [stripUser (residentAssertion sampleData
               {| cred_ID := "rc-bio-llama"; cred_Type := libfido2.ES256;
                  cred_User := cred_User (namedCredential "llamaID" "llama") |})])
        bioSingle
  ∧ credentials bioSingle
    = [{| cred_ID := "rc-bio-llama"; cred_Type := libfido2.ES256;
          cred_User := cred_User (namedCredential "llamaID" "llama") |}].
Proof. vm_compute. auto. Qed.

(** C2, amended: an assertion for a resident credential is returned only
    when the device is biometric or the call carried a non-empty PIN
    with UP requested that [validatePIN] accepted; on a device that is
    not biometric a call without PIN, such as the UP-only
    device-selection call, returns no assertion of a resident
    credential. *)
Theorem resident_assertion_needs_privilege td f rpID h ids pinArg opts l f' :
  Assertion td f rpID h ids pinArg opts = Returns (Ok l) f' →
  (∀ a r, a ∈ l → isResidentFor td r a →
     isBio f = true
     ∨ (pinArg ≠ "" ∧ as_UP opts = libfido2.True
        ∧ validatePIN f pinArg = None))
  ∧ (isBio f = false → pinArg = "" →
     ∀ a r, a ∈ l → ¬ isResidentFor td r a).
Proof.
  intros H. apply Assertion_returns_ok in H as (Hpriv & Hl & Hc & Hk & _).
  rewrite (collectAssertions_ext td f f') in Hl by done.
  assert (Hmain : ∀ a r, a ∈ l → isResidentFor td r a →
    isBio f || (negb (String.eqb pinArg "")
                && String.eqb (as_UP opts) libfido2.True) = true).
  { intros a r Ha Hres.
    destruct (base_not_resident td f r) as (N1 & N2 & N3 & N4).
    assert (Hin : ∀ b, b ∈ collectAssertions td f ids
              (isBio f || (negb (String.eqb pinArg "")
                           && String.eqb (as_UP opts) libfido2.True)) →
            (a = b ∨ a = stripUser b) →
            isBio f || (negb (String.eqb pinArg "")
                        && String.eqb (as_UP opts) libfido2.True) = true).
    { intros b Hb Hab.
      apply collectAssertions_elem in Hb as [->|[Hp _]]; [|done].
      destruct Hres as [->| ->], Hab as [Hab|Hab]; exfalso; eauto. }
    destruct Hl as [(a0 & Heq & ->)|[_ ->]].
    - apply list_elem_of_singleton in Ha as ->.
      apply (Hin a0); [rewrite Heq; by apply list_elem_of_singleton | auto].
    - apply (Hin a); auto. }
  split.
  - intros a r Ha Hres. apply Hpriv. eauto.
  - intros Hbio -> a r Ha Hres.
    specialize (Hmain a r Ha Hres). rewrite Hbio in Hmain. discriminate.
Qed.

(** The PIN device of the tests, touched and given its PIN. *)
Lemma resident_assertion_needs_privilege_witness :
  (∀ a r,
     a ∈ [stripUser (residentAssertion sampleData
            {| cred_ID := "rc-pin1-alpaca"; cred_Type := libfido2.ES256;
               cred_User := cred_User (namedCredential "alpacaID" "alpaca") |})] →
     isResidentFor sampleData r a →
     isBio (setUP pin1) = true
     ∨ ("supersecretpin1" ≠ "" ∧ libfido2.True = libfido2.True
        ∧ validatePIN (setUP pin1) "supersecretpin1" = None))
  ∧ (isBio (setUP pin1) = false → "supersecretpin1" = "" →
     ∀ a r,
       a ∈ [stripUser (residentAssertion sampleData
              {| cred_ID := "rc-pin1-alpaca"; cred_Type := libfido2.ES256;
                 cred_User := cred_User (namedCredential "alpacaID" "alpaca") |})] →
       ¬ isResidentFor sampleData r a).
Proof.
  apply (resident_assertion_needs_privilege sampleData (setUP pin1)
           "example.com" "hash" [] "supersecretpin1"
           {| as_UP := libfido2.True; as_UV := libfido2.Default |} _ pin1).
  vm_compute. reflexivity.
Defined.



Lemma wantRPID_check_passes f rpID :
  wantRPID f = "" ∨ wantRPID f = rpID →
  negb (String.eqb (wantRPID f) "") && negb (String.eqb (wantRPID f) rpID) = false.
Proof.
  intros [-> | ->]; [done|]. rewrite String.eqb_refl. by rewrite andb_false_r.
Qed.

(** Past the UV check, neither call reports an unsupported option from
    anything but the resident-key check of [MakeCredential]. *)
Lemma validatePIN_error f p e :
  validatePIN f p = Some e → e = ErrPinRequired ∨ e = ErrPinInvalid.
Proof.
  unfold validatePIN.
  repeat (match goal with |- context [if ?c then _ else _] => destruct c end);
    intros [= <-]; auto.
Qed.

(** C3, as stated, fails for [MakeCredential]: an authenticator with
    the uv capability that is neither biometric nor PIN-capable accepts
    UV=true. *)
Lemma MakeCredential_accepts_UV_on_uv_capability :
  isBio uvOnly = false ∧ hasClientPin uvOnly = false
  ∧ MakeCredential sampleData "rnd" (setUP uvOnly) "hash" sampleRP sampleUser
      libfido2.ES256 ""
      {| mc_RK := libfido2.Default; mc_UV := libfido2.True |}
    = Returns
        (Ok {| att_ClientDataHash := "hash";
               att_AuthData := makeCredentialAuthDataCBOR sampleData;
               att_CredentialID := KeyHandle (key uvOnly);
               att_CredentialType := libfido2.ES256;
               att_PubKey := pubKey uvOnly;
               att_Cert := Some (cert uvOnly);
               att_Sig := Some (makeCredentialSig sampleData);
               att_Format := "packed" |})
        uvOnly.
Proof. vm_compute. auto. Qed.

(** C3, amended.  For an [Assertion] call that gets past the replay of
    simulated errors and the rpID and clientDataHash checks: UV=false is
    rejected with unsupported-option; UV=true is rejected with
    unsupported-option unless [failUV] is unset and the device is
    biometric or PIN-capable and called with a non-empty PIN, in which
    case it is not.  For a [MakeCredential] call that gets past the
    clientDataHash, rp.ID and credential-type checks, whatever the
    queue of simulated errors: UV=false is rejected with
    unsupported-option; UV=true is rejected with unsupported-option when
    the device lacks the uv capability, and is not when it has it,
    unless a resident key is asked of a device without the rk
    capability. *)
Theorem UV_option_rules td rnd f h h' rp user typ rpID ids pinArg mopts aopts :
  (asArgsOK f rpID h' →
     (as_UV aopts = libfido2.False →
        Assertion td f rpID h' ids pinArg aopts
        = Returns (Err ErrUnsupportedOption) f)
     ∧ (as_UV aopts = libfido2.True →
        failUV f = true ∨ (isBio f = false
                           ∧ (hasClientPin f = false ∨ pinArg = "")) →
        Assertion td f rpID h' ids pinArg aopts
        = Returns (Err ErrUnsupportedOption) f)
     ∧ (as_UV aopts = libfido2.True → failUV f = false →
        isBio f = true ∨ (hasClientPin f = true ∧ pinArg ≠ "") →
        ∀ f', Assertion td f rpID h' ids pinArg aopts
              ≠ Returns (Err ErrUnsupportedOption) f'))
  ∧ (mcArgsOK h rp typ →
     (mc_UV mopts = libfido2.False →
        MakeCredential td rnd f h rp user typ pinArg mopts
        = Returns (Err ErrUnsupportedOption) f)
     ∧ (mc_UV mopts = libfido2.True → hasUV f = false →
        MakeCredential td rnd f h rp user typ pinArg mopts
        = Returns (Err ErrUnsupportedOption) f)
     ∧ (mc_UV mopts = libfido2.True → hasUV f = true →
        mc_RK mopts ≠ libfido2.True ∨ hasRK f = true →
        ∀ f', MakeCredential td rnd f h rp user typ pinArg mopts
              ≠ Returns (Err ErrUnsupportedOption) f')).
Proof.
  split.
  - intros (He & Hrp' & Hw & Hh).
    apply length_eqb_false in Hh. apply eqb_empty_false in Hrp'.
    apply wantRPID_check_passes in Hw.
    split_and!.
    + intros Huv. unfold Assertion. by rewrite He, Hrp', Hw, Hh, Huv.
    + intros Huv Hcase. unfold Assertion. rewrite He, Hrp', Hw, Hh, Huv. simpl.
      destruct Hcase as [-> | [-> Hc]]; simpl; [reflexivity|].
      destruct (failUV f); simpl; [reflexivity|].
      destruct Hc as [-> | ->]; simpl; rewrite ?andb_false_r; reflexivity.
    + intros Huv Hf Hcase f' Hret.
      unfold Assertion in Hret. rewrite He, Hrp', Hw, Hh, Huv, Hf in Hret.
      simpl in Hret.
      assert ((if isBio f then true
               else if hasClientPin f && negb (String.eqb pinArg "")
                    then true else false) = true) as Hok.
      { destruct Hcase as [-> | [-> Hp]]; [done|].
        rewrite (eqb_empty_false _ Hp). simpl. by destruct (isBio f). }
      rewrite Hok in Hret. simpl in Hret.
      destruct (negb (String.eqb pinArg "")
                && String.eqb (as_UP aopts) libfido2.True) eqn:Hchk.
      * destruct (validatePIN f pinArg) as [e|] eqn:Hv.
        -- apply validatePIN_error in Hv as [-> | ->]; discriminate.
        -- destruct (maybeLockUntilInteraction _ f) as [[e|] f1|] eqn:Hl;
             [| |discriminate].
           ++ apply maybeLockUntilInteraction_error in Hl as ->. discriminate.
           ++ destruct (collectAssertions _ _ _ _) as [|? [|? ?]]; discriminate.
      * destruct (maybeLockUntilInteraction _ f) as [[e|] f1|] eqn:Hl;
          [| |discriminate].
        -- apply maybeLockUntilInteraction_error in Hl as ->. discriminate.
        -- destruct (collectAssertions _ _ _ _) as [|? [|? ?]]; discriminate.
  - intros (Hh & Hrp & ->).
    apply length_eqb_false in Hh. apply eqb_empty_false in Hrp.
    split_and!.
    + intros Huv. unfold MakeCredential. by rewrite Hh, Hrp, Huv.
    + intros Huv Hno. unfold MakeCredential. by rewrite Hh, Hrp, Huv, Hno.
    + intros Huv Hyes Hrk f' Hret.
      unfold MakeCredential in Hret. rewrite Hh, Hrp, Huv, Hyes in Hret.
      simpl in Hret.
      assert (String.eqb (mc_RK mopts) libfido2.True && negb (hasRK f) = false)
        as Hrk'.
      { destruct Hrk as [Hrk | ->]; [|by rewrite andb_false_r].
        apply String.eqb_neq in Hrk. by rewrite Hrk. }
      rewrite Hrk' in Hret.
      destruct (validatePIN f pinArg) as [e|] eqn:Hv.
      * apply validatePIN_error in Hv as [-> | ->]; discriminate.
      * destruct (maybeLockUntilInteraction true f) as [[e|] f1|] eqn:Hl;
          [| |discriminate].
        -- apply maybeLockUntilInteraction_error in Hl as ->. discriminate.
        -- repeat (match type of Hret with
                   | context [if ?c then _ else _] => destruct c
                   end); discriminate.
Qed.

(** The devices of the tests asked with UV=false and with UV=true.  The
    PIN device refuses an assertion with UV=false and one with UV=true
    and no PIN; the biometric device, touched, does not refuse UV=true.
    The PIN device, which lacks the uv capability, refuses a new
    credential with UV=false and with UV=true, the latter with a queue
    of simulated assertion errors as well; the device with the uv
    capability alone does not refuse UV=true. *)
Lemma UV_option_rules_witness :
  Assertion sampleData pin1 "example.com" "hash" [] "supersecretpin1"
    {| as_UP := libfido2.True; as_UV := libfido2.False |}
  = Returns (Err ErrUnsupportedOption) pin1
  ∧ Assertion sampleData pin1 "example.com" "hash" [] ""
      {| as_UP := libfido2.True; as_UV := libfido2.True |}
    = Returns (Err ErrUnsupportedOption) pin1
  ∧ (∀ f', Assertion sampleData (setUP bio1) "example.com" "hash" [] ""
             {| as_UP := libfido2.True; as_UV := libfido2.True |}
           ≠ Returns (Err ErrUnsupportedOption) f')
  ∧ MakeCredential sampleData "rnd" pin1 "hash" sampleRP sampleUser
      libfido2.ES256 "supersecretpin1"
      {| mc_RK := libfido2.Default; mc_UV := libfido2.False |}
    = Returns (Err ErrUnsupportedOption) pin1
  ∧ MakeCredential sampleData "rnd"
      (set_assertionErrors [Libfido2Error 63] pin1) "hash" sampleRP
      sampleUser libfido2.ES256 "supersecretpin1"
      {| mc_RK := libfido2.Default; mc_UV := libfido2.True |}
    = Returns (Err ErrUnsupportedOption)
        (set_assertionErrors [Libfido2Error 63] pin1)
  ∧ (∀ f', MakeCredential sampleData "rnd" (setUP uvOnly) "hash" sampleRP
             sampleUser libfido2.ES256 ""
             {| mc_RK := libfido2.Default; mc_UV := libfido2.True |}
           ≠ Returns (Err ErrUnsupportedOption) f').
Proof.
  assert (∀ f, assertionErrors f = [] → wantRPID f = "" →
               asArgsOK f "example.com" "hash") as Has.
  { intros f He Hw. split_and!; [done|discriminate|by left|simpl; lia]. }
  assert (mcArgsOK "hash" sampleRP libfido2.ES256) as Hmc.
  { split_and!; [simpl; lia|discriminate|reflexivity]. }
  split_and!.
  - destruct (UV_option_rules sampleData "rnd" pin1 "hash" "hash" sampleRP
                sampleUser libfido2.ES256 "example.com" [] "supersecretpin1"
                {| mc_RK := libfido2.Default; mc_UV := libfido2.False |}
                {| as_UP := libfido2.True; as_UV := libfido2.False |})
      as [HA _].
    destruct (HA (Has pin1 eq_refl eq_refl)) as (H1 & _ & _).
    apply H1. reflexivity.
  - destruct (UV_option_rules sampleData "rnd" pin1 "hash" "hash" sampleRP
                sampleUser libfido2.ES256 "example.com" [] ""
                {| mc_RK := libfido2.Default; mc_UV := libfido2.False |}
                {| as_UP := libfido2.True; as_UV := libfido2.True |})
      as [HA _].
    destruct (HA (Has pin1 eq_refl eq_refl)) as (_ & H2 & _).
    apply H2; [reflexivity|].
    right. split; [reflexivity|by right].
  - destruct (UV_option_rules sampleData "rnd" (setUP bio1) "hash" "hash"
                sampleRP sampleUser libfido2.ES256 "example.com" [] ""
                {| mc_RK := libfido2.Default; mc_UV := libfido2.False |}
                {| as_UP := libfido2.True; as_UV := libfido2.True |})
      as [HA _].
    destruct (HA (Has (setUP bio1) eq_refl eq_refl)) as (_ & _ & H3).
    apply H3; [reflexivity|reflexivity|].
    by left.
  - destruct (UV_option_rules sampleData "rnd" pin1 "hash" "hash" sampleRP
                sampleUser libfido2.ES256 "example.com" [] "supersecretpin1"
                {| mc_RK := libfido2.Default; mc_UV := libfido2.False |}
                {| as_UP := libfido2.True; as_UV := libfido2.False |})
      as [_ HM].
    destruct (HM Hmc) as (H4 & _ & _).
    apply H4. reflexivity.
  - destruct (UV_option_rules sampleData "rnd"
                (set_assertionErrors [Libfido2Error 63] pin1)
                "hash" "hash" sampleRP
                sampleUser libfido2.ES256 "example.com" [] "supersecretpin1"
                {| mc_RK := libfido2.Default; mc_UV := libfido2.True |}
                {| as_UP := libfido2.True; as_UV := libfido2.False |})
      as [_ HM].
    destruct (HM Hmc) as (_ & H5 & _).
    apply H5; reflexivity.
  - destruct (UV_option_rules sampleData "rnd" (setUP uvOnly) "hash" "hash"
                sampleRP sampleUser libfido2.ES256 "example.com" [] ""
                {| mc_RK := libfido2.Default; mc_UV := libfido2.True |}
                {| as_UP := libfido2.True; as_UV := libfido2.False |})
      as [_ HM].
    destruct (HM Hmc) as (_ & _ & H6).
    apply H6; [reflexivity|reflexivity|].
    left. discriminate.
Defined.

(** A mismatched non-empty PIN is refused by either call before the
    device waits for a touch, whatever the device. *)
Lemma validatePIN_mismatch f p :
  pin f ≠ "" → p ≠ "" → p ≠ pin f → validatePIN f p = Some ErrPinInvalid.
Proof.
  intros Hf Hp Hne. unfold validatePIN.
  rewrite (eqb_empty_false _ Hf), (eqb_empty_false _ Hp), andb_false_r. simpl.
  assert (String.eqb (pin f) p = false) as ->; [|done].
  apply String.eqb_neq. congruence.
Qed.

Lemma validatePIN_empty f :
  pin f ≠ "" → isBio f = false → validatePIN f "" = Some ErrPinRequired.
Proof.
  intros Hf Hb. unfold validatePIN. by rewrite Hb, (eqb_empty_false _ Hf).
Qed.


Lemma MakeCredential_reaches_validatePIN td rnd f h rp user typ pinArg opts e :
  mcArgsOK h rp typ → mcOptsOK f opts →
  validatePIN f pinArg = Some e →
  MakeCredential td rnd f h rp user typ pinArg opts = Returns (Err e) f.
Proof.
  intros (Hh & Hrp & ->) (Huv & Huv' & Hrk) Hv. unfold MakeCredential.
  rewrite (length_eqb_false _ Hh), (eqb_empty_false _ Hrp). simpl.
  apply String.eqb_neq in Huv. rewrite Huv.
  assert (String.eqb (mc_UV opts) libfido2.True && negb (hasUV f) = false) as ->.
  { destruct (String.eqb (mc_UV opts) libfido2.True) eqn:E; [|done].
    apply String.eqb_eq in E. by rewrite Huv'. }
  assert (String.eqb (mc_RK opts) libfido2.True && negb (hasRK f) = false) as ->.
  { destruct (String.eqb (mc_RK opts) libfido2.True) eqn:E; [|done].
    apply String.eqb_eq in E. by rewrite Hrk. }
  by rewrite Hv.
Qed.

(** C9, as stated, fails: the biometric device of the tests has a PIN
    configured, yet [MakeCredential] with an empty PIN argument and UV
    unset does not answer PinRequired; after the touch it creates the
    credential. *)
Lemma MakeCredential_empty_PIN_accepted_on_bio :
  pin bio1 ≠ "" ∧ isBio bio1 = true
  ∧ MakeCredential sampleData "rnd" (setUP bio1) "hash" sampleRP sampleUser
      libfido2.ES256 ""
      {| mc_RK := libfido2.Default; mc_UV := libfido2.Default |}
    = Returns
        (Ok {| att_ClientDataHash := "hash";
               att_AuthData := makeCredentialAuthDataCBOR sampleData;
               att_CredentialID := KeyHandle (key bio1);
               att_CredentialType := libfido2.ES256;
               att_PubKey := pubKey bio1;
               att_Cert := Some (cert bio1);
               att_Sig := Some (makeCredentialSig sampleData);
               att_Format := "packed" |})
        bio1.
Proof. vm_compute. repeat split; discriminate. Qed.

(** C9, amended.  A [MakeCredential] call on a device with a configured
    PIN that gets past the argument and option checks has its PIN
    argument validated even when UV is not requested: on a device that
    is not biometric an empty PIN yields PinRequired, and on any device
    a mismatched non-empty PIN yields PinInvalid.  The call returns with
    the device unchanged, whether or not a touch is pending: the
    validation comes before any user-presence interaction. *)
Theorem MakeCredential_validates_PIN td rnd f h rp user typ opts :
  mcArgsOK h rp typ → mcOptsOK f opts → pin f ≠ "" →
  (isBio f = false →
     MakeCredential td rnd f h rp user typ "" opts
     = Returns (Err ErrPinRequired) f)
  ∧ (∀ p, p ≠ "" → p ≠ pin f →
     MakeCredential td rnd f h rp user typ p opts
     = Returns (Err ErrPinInvalid) f).
Proof.
  intros Ha Ho Hpin. split.
  - intros Hb. apply MakeCredential_reaches_validatePIN; [done..|].
    by apply validatePIN_empty.
  - intros p Hp Hne. apply MakeCredential_reaches_validatePIN; [done..|].
    by apply validatePIN_mismatch.
Qed.

(** The untouched PIN device of the tests, UV unset. *)
Lemma MakeCredential_validates_PIN_witness :
  (isBio pin1 = false →
     MakeCredential sampleData "rnd" pin1 "hash" sampleRP sampleUser
       libfido2.ES256 ""
       {| mc_RK := libfido2.Default; mc_UV := libfido2.Default |}
     = Returns (Err ErrPinRequired) pin1)
  ∧ (∀ p, p ≠ "" → p ≠ pin pin1 →
     MakeCredential sampleData "rnd" pin1 "hash" sampleRP sampleUser
       libfido2.ES256 p
       {| mc_RK := libfido2.Default; mc_UV := libfido2.Default |}
     = Returns (Err ErrPinInvalid) pin1).
Proof.
  apply (MakeCredential_validates_PIN sampleData "rnd" pin1 "hash" sampleRP
           sampleUser libfido2.ES256
           {| mc_RK := libfido2.Default; mc_UV := libfido2.Default |}).
  - vm_compute. repeat split; discriminate.
  - vm_compute. repeat split; discriminate.
  - vm_compute. discriminate.
Defined.

Lemma validatePIN_bio_not_required f p :
  isBio f = true → validatePIN f p ≠ Some ErrPinRequired.
Proof.
  intros Hb. unfold validatePIN. rewrite Hb. simpl.
  destruct (String.eqb p ""); [done|]. rewrite andb_false_r.
  by destruct (negb (String.eqb (pin f) "") && negb (String.eqb (pin f) p)).
Qed.


Lemma Assertion_reaches_validatePIN td f rpID h ids pinArg opts e :
  asArgsOK f rpID h → asUVOK f pinArg opts →
  pinArg ≠ "" → as_UP opts = libfido2.True →
  validatePIN f pinArg = Some e →
  Assertion td f rpID h ids pinArg opts = Returns (Err e) f.
Proof.
  intros (He & Hrp & Hw & Hh) Huv Hp Hup Hv. unfold Assertion.
  rewrite He, (eqb_empty_false _ Hrp), (wantRPID_check_passes _ _ Hw),
    (length_eqb_false _ Hh), Hup, (eqb_empty_false _ Hp).
  destruct Huv as [-> | (-> & -> & Hcase)]; simpl.
  - by rewrite Hv.
  - destruct Hcase as [Hb | [Hc _]]; rewrite ?Hb, ?Hc; simpl;
      destruct (isBio f); simpl; by rewrite Hv.
Qed.

(** C10: on a biometric device (option bioEnroll=true) the PIN
    validation accepts an empty PIN argument whatever PIN the device has
    configured and never answers PinRequired, so neither [MakeCredential]
    nor [Assertion] returns PinRequired from it; a non-empty PIN that
    differs from the configured one is still refused with PinInvalid, by
    the validation and by both calls that reach it. *)
Theorem bio_PIN_validation f :
  isBio f = true →
  validatePIN f "" = None
  ∧ (∀ p, validatePIN f p ≠ Some ErrPinRequired)
  ∧ (∀ p, pin f ≠ "" → p ≠ "" → p ≠ pin f →
       validatePIN f p = Some ErrPinInvalid)
  ∧ (∀ td rnd h rp user typ p opts f',
       MakeCredential td rnd f h rp user typ p opts
       ≠ Returns (Err ErrPinRequired) f')
  ∧ (∀ td rpID h ids p opts f',
       head (assertionErrors f) ≠ Some ErrPinRequired →
       Assertion td f rpID h ids p opts ≠ Returns (Err ErrPinRequired) f')
  ∧ (∀ td rnd h rp user typ p opts,
       mcArgsOK h rp typ → mcOptsOK f opts →
       pin f ≠ "" → p ≠ "" → p ≠ pin f →
       MakeCredential td rnd f h rp user typ p opts
       = Returns (Err ErrPinInvalid) f)
  ∧ (∀ td rpID h ids p opts,
       asArgsOK f rpID h → asUVOK f p opts → as_UP opts = libfido2.True →
       pin f ≠ "" → p ≠ "" → p ≠ pin f →
       Assertion td f rpID h ids p opts = Returns (Err ErrPinInvalid) f).
Proof.
  intros Hb. split; [|split; [|split; [|split; [|split; [|split]]]]].
  - unfold validatePIN. by rewrite Hb.
  - intros p. by apply validatePIN_bio_not_required.
  - intros p. apply validatePIN_mismatch.
  - intros td rnd h rp user typ p opts f' H. unfold MakeCredential in H.
    repeat (match type of H with
            | (if ?c then _ else _) = _ => destruct c; [discriminate|]
            end).
    destruct (validatePIN f p) as [e|] eqn:Hv.
    + injection H as -> _. by apply validatePIN_bio_not_required in Hv.
    + destruct (maybeLockUntilInteraction true f) as [[e|] f1|] eqn:Hl;
        [| |discriminate].
      * apply maybeLockUntilInteraction_error in Hl as ->. discriminate.
      * repeat (match type of H with
                | context [if ?c then _ else _] => destruct c
                end); discriminate.
  - intros td rpID h ids p opts f' Hhd H. unfold Assertion in H.
    destruct (assertionErrors f) as [|e0 rest].
    + repeat (match type of H with
              | (if ?c then _ else _) = _ => destruct c; [discriminate|]
              end).
      destruct (negb (String.eqb p "")
                && String.eqb (as_UP opts) libfido2.True).
      * destruct (validatePIN f p) as [e|] eqn:Hv.
        -- injection H as -> _. by apply validatePIN_bio_not_required in Hv.
        -- destruct (maybeLockUntilInteraction _ f) as [[e|] f1|] eqn:Hl;
             [| |discriminate].
           ++ apply maybeLockUntilInteraction_error in Hl as ->. discriminate.
           ++ destruct (collectAssertions _ _ _ _) as [|? [|? ?]]; discriminate.
      * destruct (maybeLockUntilInteraction _ f) as [[e|] f1|] eqn:Hl;
          [| |discriminate].
        -- apply maybeLockUntilInteraction_error in Hl as ->. discriminate.
        -- destruct (collectAssertions _ _ _ _) as [|? [|? ?]]; discriminate.
    + injection H as -> _. by apply Hhd.
  - intros td rnd h rp user typ p opts Ha Ho Hpin Hp Hne.
    apply MakeCredential_reaches_validatePIN; [done..|].
    by apply validatePIN_mismatch.
  - intros td rpID h ids p opts Ha Huv Hup Hpin Hp Hne.
    apply Assertion_reaches_validatePIN; [done..|].
    by apply validatePIN_mismatch.
Qed.

(** The biometric device of the tests, which has a PIN configured. *)
Lemma bio_PIN_validation_witness :
  validatePIN bio1 "" = None
  ∧ (∀ p, validatePIN bio1 p ≠ Some ErrPinRequired)
  ∧ (∀ p, pin bio1 ≠ "" → p ≠ "" → p ≠ pin bio1 →
       validatePIN bio1 p = Some ErrPinInvalid)
  ∧ (∀ td rnd h rp user typ p opts f',
       MakeCredential td rnd bio1 h rp user typ p opts
       ≠ Returns (Err ErrPinRequired) f')
  ∧ (∀ td rpID h ids p opts f',
       head (assertionErrors bio1) ≠ Some ErrPinRequired →
       Assertion td bio1 rpID h ids p opts ≠ Returns (Err ErrPinRequired) f')
  ∧ (∀ td rnd h rp user typ p opts,
       mcArgsOK h rp typ → mcOptsOK bio1 opts →
       pin bio1 ≠ "" → p ≠ "" → p ≠ pin bio1 →
       MakeCredential td rnd bio1 h rp user typ p opts
       = Returns (Err ErrPinInvalid) bio1)
  ∧ (∀ td rpID h ids p opts,
       asArgsOK bio1 rpID h → asUVOK bio1 p opts → as_UP opts = libfido2.True →
       pin bio1 ≠ "" → p ≠ "" → p ≠ pin bio1 →
       Assertion td bio1 rpID h ids p opts = Returns (Err ErrPinInvalid) bio1).
Proof.
  apply (bio_PIN_validation bio1). vm_compute. reflexivity.
Defined.

(* ================================================================== *)
(** * Properties of the ceremony engine *)

(** ** Inversion of the ceremony monad *)

Lemma bind_inr {A B} (m : M A) (k : A → M B) r b r' :
  (m ≫= k) r = (inr b, r') →
  ∃ a r1, m r = (inr a, r1) ∧ k a r1 = (inr b, r').
Proof.
  unfold mbind, M_bind. destruct (m r) as [[e|a] r1]; [discriminate|]. eauto.
Qed.

Lemma bind_inl {A B} (m : M A) (k : A → M B) r e r' :
  (m ≫= k) r = (inl e, r') →
  m r = (inl e, r') ∨ ∃ a r1, m r = (inr a, r1) ∧ k a r1 = (inl e, r').
Proof.
  unfold mbind, M_bind. destruct (m r) as [[e0|a] r1]; intros H.
  - injection H as -> ->. by left.
  - right. eauto.
Qed.

Lemma bind_any {A B} (m : M A) (k : A → M B) r x r' :
  (m ≫= k) r = (x, r') →
  (∃ e, m r = (inl e, r') ∧ x = inl e)
  ∨ ∃ a r1, m r = (inr a, r1) ∧ k a r1 = (x, r').
Proof.
  unfold mbind, M_bind. destruct (m r) as [[e0|a] r1]; [|eauto].
  intros [= <- <-]. eauto.
Qed.

(** ** Devices and worlds only evolve *)

Lemma sameDevice_refl d : sameDevice d d.
Proof. by repeat split. Qed.

Lemma sameDevice_trans d1 d2 d3 :
  sameDevice d1 d2 → sameDevice d2 d3 → sameDevice d1 d3.
Proof.
  unfold sameDevice. intros (?&?&?&?&?&?&?) (?&?&?&?&?&?&?).
  repeat split; congruence.
Qed.

Lemma evolves_refl w : evolves w w.
Proof.
  repeat split. intros p. destruct (devices w !! p); [apply sameDevice_refl|done].
Qed.

Lemma evolves_trans w1 w2 w3 : evolves w1 w2 → evolves w2 w3 → evolves w1 w3.
Proof.
  intros (?&?&?&H12) (?&?&?&H23). repeat split; try congruence.
  intros p. specialize (H12 p). specialize (H23 p).
  destruct (devices w1 !! p), (devices w2 !! p), (devices w3 !! p);
    try done. by eapply sameDevice_trans.
Qed.

Lemma steady_refl w : steady w w.
Proof. split; [apply evolves_refl|done]. Qed.

Lemma steady_trans w1 w2 w3 : steady w1 w2 → steady w2 w3 → steady w1 w3.
Proof.
  intros [? ?] [? ?]. split; [by eapply evolves_trans|congruence].
Qed.


Lemma quiet_trans r1 r2 r3 : quiet r1 r2 → quiet r2 r3 → quiet r1 r3.
Proof.
  intros (?&?&?&?) (?&?&?&?).
  repeat split; try congruence; by eapply steady_trans.
Qed.

Lemma steady_insert w p d d' :
  devices w !! p = Some d → sameDevice d d' →
  steady w (setDevices (<[p := d']> (devices w)) w).
Proof.
  intros Hp Hs. repeat split; simpl. intros q.
  destruct (decide (p = q)) as [<-|Hne].
  - by rewrite Hp, lookup_insert_eq.
  - rewrite lookup_insert_ne by done.
    destruct (devices w !! q); [apply sameDevice_refl|done].
Qed.

Lemma steady_alter w p (g : fakeFIDO2Device → fakeFIDO2Device) :
  (∀ d, sameDevice d (g d)) →
  steady w (setDevices (alter g p (devices w)) w).
Proof.
  intros Hg. repeat split; simpl. intros q.
  destruct (decide (p = q)) as [<-|Hne].
  - rewrite lookup_alter_eq. destruct (devices w !! p); simpl; auto.
  - rewrite lookup_alter_ne by done.
    destruct (devices w !! q); [apply sameDevice_refl|done].
Qed.

Lemma sameDevice_set_up_cancel u c d : sameDevice d (set_up_cancel u c d).
Proof. by repeat split. Qed.

Lemma sameDevice_setUP d : sameDevice d (setUP d).
Proof. apply sameDevice_set_up_cancel. Qed.

Lemma sameDevice_cancelInFlight d : sameDevice d (cancelInFlight d).
Proof.
  unfold cancelInFlight, maybeLockUntilInteraction, Cancel. simpl.
  rewrite andb_false_r. simpl. by repeat split.
Qed.

Lemma cancelInFlight_flags d :
  up (cancelInFlight d) = false ∧ cancel (cancelInFlight d) = false.
Proof.
  unfold cancelInFlight, maybeLockUntilInteraction, Cancel. simpl.
  by rewrite andb_false_r.
Qed.

Lemma sameDevice_set_assertionErrors es d :
  sameDevice d (set_assertionErrors es d).
Proof. by repeat split. Qed.

Lemma maybeLockUntilInteraction_sameDevice upArg d r d' :
  maybeLockUntilInteraction upArg d = Returns r d' → sameDevice d d'.
Proof.
  unfold maybeLockUntilInteraction.
  destruct upArg; simpl.
  - destruct (negb (up d) && negb (cancel d)); [discriminate|].
    destruct (cancel d); intros [= <- <-]; apply sameDevice_set_up_cancel.
  - intros [= <- <-]. apply sameDevice_refl.
Qed.

Lemma Assertion_sameDevice td d rpID h ids pinArg opts r d' :
  Assertion td d rpID h ids pinArg opts = Returns r d' → sameDevice d d'.
Proof.
  unfold Assertion. intros H.
  destruct (assertionErrors d) as [|e rest].
  - repeat (match type of H with
            | (if ?c then _ else _) = _ =>
                destruct c; [injection H as <- <-; apply sameDevice_refl|]
            end).
    destruct (if negb (String.eqb pinArg "")
                 && String.eqb (as_UP opts) libfido2.True
              then validatePIN d pinArg else None);
      [injection H as <- <-; apply sameDevice_refl|].
    destruct (maybeLockUntilInteraction _ d) as [[e|] d1|] eqn:Hl;
      [| |discriminate];
      apply maybeLockUntilInteraction_sameDevice in Hl.
    + by injection H as <- <-.
    + destruct (collectAssertions _ _ _ _) as [|? [|? ?]];
        by injection H as <- <-.
  - injection H as <- <-. apply sameDevice_set_assertionErrors.
Qed.

Lemma Assertion_blocks_unchanged td d rpID h ids pinArg opts :
  Assertion td d rpID h ids pinArg opts = Blocks →
  up d = false ∧ cancel d = false ∧ assertionErrors d = [].
Proof.
  unfold Assertion. intros H.
  destruct (assertionErrors d) as [|e rest]; [|discriminate].
  repeat (match type of H with
          | (if ?c then _ else _) = _ => destruct c; [discriminate|]
          end).
  destruct (if negb (String.eqb pinArg "")
               && String.eqb (as_UP opts) libfido2.True
            then validatePIN d pinArg else None); [discriminate|].
  destruct (maybeLockUntilInteraction _ d) as [[e|] d1|] eqn:Hl.
  - discriminate.
  - destruct (collectAssertions _ _ _ _) as [|? [|? ?]]; discriminate.
  - unfold maybeLockUntilInteraction in Hl.
    destruct (String.eqb (as_UP opts) libfido2.True); simpl in Hl;
      [|discriminate].
    destruct (up d), (cancel d); simpl in Hl; try discriminate. done.
Qed.

Lemma assertionWithRetry_sameDevice n td d rpID h ids pinArg opts r d' :
  assertionWithRetry n td d rpID h ids pinArg opts = (r, d') →
  sameDevice d d'.
Proof.
  revert d. induction n as [|n IH]; intros d; simpl;
    destruct (Assertion td d rpID h ids pinArg opts) as [[l|e] d1|] eqn:Ha;
    try (intros [= <- <-]; first [apply sameDevice_refl
                                 | by eapply Assertion_sameDevice]).
  - case_bool_decide; intros [= <- <-]; by eapply Assertion_sameDevice.
  - case_bool_decide.
    + intros Hrec. apply IH in Hrec. eapply sameDevice_trans; [|done].
      by eapply Assertion_sameDevice.
    + intros [= <- <-]. by eapply Assertion_sameDevice.
Qed.

Lemma steady_setMeter i w : steady w (setMeter i w).
Proof.
  repeat split; simpl. intros p.
  destruct (devices w !! p); [apply sameDevice_refl|done].
Qed.

Lemma devAssertion_steady p rpID h ids pinArg opts w r w' :
  devAssertion p rpID h ids pinArg opts w = (r, w') → steady w w'.
Proof.
  unfold devAssertion. destruct (devices w !! p) as [d|] eqn:Hp.
  - destruct (assertionWithRetry _ _ _ _ _ _ _ _) as [r1 d'] eqn:Ha.
    intros [= <- <-]. apply steady_insert with d; [done|].
    by eapply assertionWithRetry_sameDevice.
  - intros [= <- <-]. apply steady_refl.
Qed.

Lemma runWorkers_steady h ws w rs w' :
  runWorkers h ws w = (rs, w') → steady w w'.
Proof.
  revert w rs w'. induction ws as [|[k [e|]] rest IH]; intros w rs w'; simpl.
  - intros [= <- <-]. apply steady_refl.
  - destruct (runWorkers h rest w) as [rs1 w1] eqn:Hr.
    intros [= <- <-]. by eapply IH.
  - destruct (devAssertion _ _ _ _ _ _ w) as [r w1] eqn:Hd.
    destruct (runWorkers h rest w1) as [rs1 w2] eqn:Hr.
    intros [= <- <-]. eapply steady_trans; [by eapply devAssertion_steady|].
    by eapply IH.
Qed.

Lemma cancelSiblings_steady rs w : steady w (cancelSiblings rs w).
Proof.
  revert w. induction rs as [|[k a] rest IH]; intros w; simpl.
  - apply steady_refl.
  - destruct a; try apply IH.
    eapply steady_trans; [|apply IH].
    apply steady_alter, sameDevice_cancelInFlight.
Qed.

Lemma FIDODeviceLocations_steady w ps w' :
  FIDODeviceLocations w = (ps, w') → steady w w'.
Proof.
  unfold FIDODeviceLocations. destruct (useNonMeteredLocs w).
  - intros [= <- <-]. apply steady_refl.
  - intros [= <- <-]. apply steady_setMeter.
Qed.

Lemma discover_steady ticks w cs w' :
  discover ticks w = (cs, w') → steady w w'.
Proof.
  revert w. induction ticks as [|n IH]; intros w; simpl.
  - intros [= <- <-]. apply steady_refl.
  - destruct (FIDODeviceLocations w) as [ps w1] eqn:Hl.
    apply FIDODeviceLocations_steady in Hl.
    destruct (omap (openDevice w1) ps).
    + intros H. eapply steady_trans; [done|]. by apply IH.
    + by intros [= <- <-].
Qed.


Lemma PromptTouch_steady p w p' w' :
  PromptTouch p w = (p', w') → steady w w'.
Proof.
  revert p' w'. induction p as [| | |inner IH n]; intros p' w'; simpl;
    try (intros [= <- <-]; apply steady_refl).
  - intros [= <- <-]. apply steady_alter, sameDevice_setUP.
  - destruct (PromptTouch inner w) as [i' w1]. intros [= <- <-]. by eapply IH.
Qed.

Lemma PromptPIN_evolves p w s w' :
  PromptPIN p w = (s, w') → evolves w w'.
Proof.
  revert s w'. induction p as [| | |inner IH n]; intros s w'; simpl;
    try (intros [= <- <-]; apply evolves_refl); [|by apply IH].
  intros [= <- <-]. repeat split; simpl. intros p.
  destruct (devices w !! p); [apply sameDevice_refl|done].
Qed.

(** Only the PIN prompt of a [pinCancelPrompt] cancels the context, and
    nothing un-cancels it. *)
Lemma PromptPIN_cancel_monotone p w s w' :
  PromptPIN p w = (s, w') → ctxCancelled w = true → ctxCancelled w' = true.
Proof.
  revert s w'. induction p as [| | |inner IH n]; intros s w'; simpl;
    try (by intros [= <- <-]). by apply IH.
Qed.

(** A counting prompt counts each touch prompt once and stays a
    counting prompt. *)
Lemma PromptTouch_counting inner n w p' w' :
  PromptTouch (countingPrompt inner n) w = (p', w') →
  ∃ inner', p' = countingPrompt inner' (wrapInt (n + 1)).
Proof.
  simpl. destruct (PromptTouch inner w) as [i' w1]. intros [= <- <-]. eauto.
Qed.

(** ** What each step of a ceremony does to the run *)

Lemma checkCtx_inv r x r' :
  checkCtx r = (x, r') →
  r' = r
  ∧ ((x = inr () ∧ ctxCancelled (world r) = false)
     ∨ (x = inl Cancelled ∧ ctxCancelled (world r) = true)).
Proof.
  unfold checkCtx. destruct (ctxCancelled (world r));
    intros [= <- <-]; auto.
Qed.

Lemma liftW_inv {A} (f : World → A * World) r x r' :
  liftW f r = (x, r') →
  ∃ a w', f (world r) = (a, w') ∧ x = inr a ∧ r' = setWorld w' r.
Proof.
  unfold liftW. destruct (f (world r)) as [a w'].
  intros [= <- <-]. eauto.
Qed.

Lemma quiet_setWorld r w' : steady (world r) w' → quiet r (setWorld w' r).
Proof. intros Hs. by split; [|split; [|split]]. Qed.

Lemma discoverM_quiet ticks r x r' :
  discoverM ticks r = (x, r') → quiet r r'.
Proof.
  unfold discoverM. destruct (discover ticks (world r)) as [[cs|] w'] eqn:Hd;
    intros [= <- <-]; apply quiet_setWorld; by eapply discover_steady.
Qed.

Lemma race_quiet h ws r x r' : race h ws r = (x, r') → quiet r r'.
Proof.
  unfold race. destruct (runWorkers h ws (world r)) as [rs w1] eqn:Hr.
  apply runWorkers_steady in Hr.
  assert (steady (world r) (cancelSiblings rs w1)).
  { eapply steady_trans; [done|apply cancelSiblings_steady]. }
  destruct (find _ rs); intros [= <- <-]; by apply quiet_setWorld.
Qed.

(** A touch prompt: the prompt object is asked once, the log grows by
    one touch, the winner slot is left alone. *)
Lemma promptTouch_inv r x r' :
  promptTouch r = (x, r') →
  x = inr () →
  ∃ p p' w', prompt r = Some p ∧ PromptTouch p (world r) = (p', w')
    ∧ prompt r' = Some p' ∧ world r' = w'
    ∧ trace r' = (trace r ++ [EvPromptTouch])%list ∧ winner r' = winner r.
Proof.
  unfold promptTouch. destruct (prompt r) as [p|]; [|intros [= <- <-] [=]].
  destruct (PromptTouch p (world r)) as [p' w'] eqn:Hp.
  intros [= <- <-] _. by exists p, p', w'.
Qed.

Lemma promptPIN_inv r x r' :
  promptPIN r = (x, r') →
  (∃ p s w', prompt r = Some p ∧ PromptPIN p (world r) = (s, w')
     ∧ x = inr s ∧ prompt r' = prompt r ∧ world r' = w'
     ∧ trace r' = (trace r ++ [EvPromptPIN])%list ∧ winner r' = winner r)
  ∨ (prompt r = None ∧ r' = r ∧ x = inl (InvalidArgument "prompt required")).
Proof.
  unfold promptPIN. destruct (prompt r) as [p|] eqn:Hpr; [|by intros [= <- <-]; right].
  destruct (PromptPIN p (world r)) as [s w'] eqn:Hp.
  intros [= <- <-]. left. by exists p, s, w'.
Qed.

Lemma promptCredential_inv creds r x r' :
  promptCredential creds r = (x, r') →
  prompt r' = prompt r ∧ world r' = world r ∧ winner r' = winner r
  ∧ touches (trace r') = touches (trace r)
  ∧ (∀ ci, x = inr ci → head creds = Some ci).
Proof.
  unfold promptCredential, PromptCredential.
  destruct (prompt r) as [p|] eqn:Hp.
  - destruct (head creds) as [ci|]; intros [= <- <-]; simpl;
      unfold touches; rewrite ?filter_app, ?length_app; simpl;
      rewrite ?Nat.add_0_r; repeat split; (congruence || done).
  - intros [= <- <-]. repeat split; auto. discriminate.
Qed.

Lemma touches_app t1 t2 :
  touches (t1 ++ t2)%list = touches t1 + touches t2.
Proof. unfold touches. by rewrite filter_app, length_app. Qed.

(** ** INIT *)

Lemma validateLogin_names_missing origin assertion promptArg f :
  loginFieldMissing f origin assertion promptArg →
  ∃ g msg, loginFieldMissing g origin assertion promptArg
    ∧ validateLogin origin assertion promptArg = Some msg
    ∧ contains (loginFieldText g) msg = true.
Proof.
  intros Hf. unfold validateLogin.
  destruct (String.eqb origin "") eqn:Ho.
  { apply String.eqb_eq in Ho. exists FieldOrigin. eexists. by repeat split. }
  destruct assertion as [a|].
  2:{ exists FieldRecord. eexists. by repeat split. }
  destruct (Nat.eqb (String.length (ca_Challenge a)) 0) eqn:Hc.
  { apply Nat.eqb_eq in Hc. exists FieldChallenge. eexists.
    split; [by exists a|]. by split. }
  destruct (String.eqb (ca_RelyingPartyID a) "") eqn:Hr.
  { apply String.eqb_eq in Hr. exists FieldRelyingPartyID. eexists.
    split; [by exists a|]. by split. }
  destruct promptArg as [p|].
  2:{ exists FieldPrompt. eexists. by repeat split. }
  exfalso. apply String.eqb_neq in Ho, Hr. apply Nat.eqb_neq in Hc.
  destruct f; simpl in Hf; try done.
  - by destruct Hf as (a' & [= <-] & ?).
  - by destruct Hf as (a' & [= <-] & ?).
Qed.

Lemma validateRegister_names_missing origin cc promptArg f :
  registerFieldMissing f origin cc promptArg →
  ∃ g msg, registerFieldMissing g origin cc promptArg
    ∧ validateRegister origin cc promptArg = Some msg
    ∧ contains (registerFieldText g) msg = true.
Proof.
  intros Hf. unfold validateRegister.
  destruct (String.eqb origin "") eqn:Ho.
  { apply String.eqb_eq in Ho. exists FieldOrigin. eexists. by repeat split. }
  destruct cc as [c|].
  2:{ exists FieldRecord. eexists. by repeat split. }
  destruct (Nat.eqb (String.length (cc_Challenge c)) 0) eqn:Hc.
  { apply Nat.eqb_eq in Hc. exists FieldChallenge. eexists.
    split; [by exists c|]. by split. }
  destruct (String.eqb (cc_RelyingPartyID c) "") eqn:Hr.
  { apply String.eqb_eq in Hr. exists FieldRelyingPartyID. eexists.
    split; [by exists c|]. by split. }
  destruct (hasES256 (cc_Parameters c)) eqn:He; simpl.
  2:{ exists FieldParameters. eexists. split; [by exists c|]. by split. }
  destruct promptArg as [p|].
  2:{ exists FieldPrompt. eexists. by repeat split. }
  exfalso. apply String.eqb_neq in Ho, Hr. apply Nat.eqb_neq in Hc.
  destruct f; simpl in Hf; try done.
  - by destruct Hf as (c' & [= <-] & ?).
  - by destruct Hf as (c' & [= <-] & ?).
  - destruct Hf as (c' & [= <-] & ?). congruence.
Qed.

(** C6: a login or a registration with a missing argument (empty
    origin, nil record, empty challenge, empty relying-party id, nil
    prompt) is rejected at once, before any device or prompt is used,
    with an InvalidArgument error whose text names a missing argument;
    a registration whose credential parameters lack ES256, all earlier
    arguments being present, is rejected with a text that mentions
    ES256. *)
Theorem FIDO2_rejects_missing_arguments ticks rnd origin assertion cc
    promptArg opts w f f' :
  loginFieldMissing f origin assertion promptArg →
  registerFieldMissing f' origin cc promptArg →
  (∃ g msg, loginFieldMissing g origin assertion promptArg
     ∧ FIDO2Login ticks origin assertion promptArg opts w
       = (inl (InvalidArgument msg), initialRun promptArg w)
     ∧ contains (loginFieldText g) msg = true)
  ∧ (∃ g msg, registerFieldMissing g origin cc promptArg
     ∧ FIDO2Register ticks rnd origin cc promptArg w
       = (inl (InvalidArgument msg), initialRun promptArg w)
     ∧ contains (registerFieldText g) msg = true)
  ∧ (origin ≠ "" →
     ∀ c, cc = Some c → String.length (cc_Challenge c) ≠ 0 →
       cc_RelyingPartyID c ≠ "" → hasES256 (cc_Parameters c) = false →
       ∃ msg, FIDO2Register ticks rnd origin cc promptArg w
              = (inl (InvalidArgument msg), initialRun promptArg w)
         ∧ contains "ES256" msg = true).
Proof.
  intros Hl Hr. split; [|split].
  - apply validateLogin_names_missing in Hl as (g & msg & Hg & Hv & Hc).
    exists g, msg. unfold FIDO2Login. by rewrite Hv.
  - apply validateRegister_names_missing in Hr as (g & msg & Hg & Hv & Hc).
    exists g, msg. unfold FIDO2Register. by rewrite Hv.
  - intros Ho c -> Hc Hrp Hes. eexists.
    unfold FIDO2Register, validateRegister.
    rewrite (eqb_empty_false _ Ho), (length_eqb_false _ Hc),
      (eqb_empty_false _ Hrp), Hes. simpl. by split.
Qed.

(** A login without prompt, and a registration that offers EdDSA
    only. *)
Lemma FIDO2_rejects_missing_arguments_witness :
  (∃ g msg, loginFieldMissing g "https://example.com" (Some mfaAssertion) None
     ∧ FIDO2Login 5 "https://example.com" (Some mfaAssertion) None None
         (newFakeFIDO2 sampleData [])
       = (inl (InvalidArgument msg), initialRun None (newFakeFIDO2 sampleData []))
     ∧ contains (loginFieldText g) msg = true)
  ∧ (∃ g msg, registerFieldMissing g "https://example.com" (Some eddsaCC) None
     ∧ FIDO2Register 5 "rnd" "https://example.com" (Some eddsaCC) None
         (newFakeFIDO2 sampleData [])
       = (inl (InvalidArgument msg), initialRun None (newFakeFIDO2 sampleData []))
     ∧ contains (registerFieldText g) msg = true)
  ∧ ("https://example.com" ≠ "" →
     ∀ c, Some eddsaCC = Some c → String.length (cc_Challenge c) ≠ 0 →
       cc_RelyingPartyID c ≠ "" → hasES256 (cc_Parameters c) = false →
       ∃ msg, FIDO2Register 5 "rnd" "https://example.com" (Some eddsaCC) None
                (newFakeFIDO2 sampleData [])
              = (inl (InvalidArgument msg),
                 initialRun None (newFakeFIDO2 sampleData []))
         ∧ contains "ES256" msg = true).
Proof.
  apply (FIDO2_rejects_missing_arguments 5 "rnd" "https://example.com"
           (Some mfaAssertion) (Some eddsaCC) None None
           (newFakeFIDO2 sampleData []) FieldPrompt FieldParameters).
  - reflexivity.
  - exists eddsaCC. split; reflexivity.
Defined.

(** ** Discovery and the race *)



(** A retained device is plugged, and the engine takes it for
    PIN-protected only if the device says clientPin and not
    bioEnroll. *)
Lemma openDevice_inv w p c :
  openDevice w p = Some c →
  c_path c = p
  ∧ ∃ d, devices w !! p = Some d
      ∧ (isPINProtected c = true → hasClientPin d = true ∧ isBio d = false).
Proof.
  unfold openDevice, NewDevice.
  destruct (devices w !! p) as [d|] eqn:Hd; [|discriminate].
  unfold Info. destruct (u2fOnly d).
  - intros [= <-]. split; [done|]. exists d. split; [done|]. discriminate.
  - destruct (info d) as [i|] eqn:Hi; [|discriminate].
    intros [= <-]. split; [done|]. exists d. split; [done|].
    unfold isPINProtected, hasClientPin, isBio, hasBoolOpt. simpl.
    rewrite Hi. intros [-> Hb]%andb_true_iff. by destruct (findBoolOpt _ _).
Qed.








(** ** Counting the touch prompts *)

Lemma wrapInt_small (x : Z) :
  (- 2 ^ 63 ≤ x < 2 ^ 63)%Z → wrapInt x = x.
Proof. intros Hx. unfold wrapInt. rewrite Z.mod_small; lia. Qed.

Lemma counted_add n m c : counted (n + m) c = counted m (counted n c).
Proof.
  rewrite Nat.add_comm. induction m as [|m IH]; [done|].
  simpl. by rewrite IH.
Qed.


Lemma touched_quiet r r' : quiet r r' → touched 0 r r'.
Proof.
  intros (Hp & Ht & _). split; [rewrite Ht; lia|].
  intros inner c Hc. exists inner. by rewrite Hp, Hc.
Qed.

Lemma touched_trans n m r1 r2 r3 :
  touched n r1 r2 → touched m r2 r3 → touched (n + m) r1 r3.
Proof.
  intros [Ht1 Hp1] [Ht2 Hp2]. split; [lia|].
  intros inner c Hc. destruct (Hp1 _ _ Hc) as (i1 & H1).
  destruct (Hp2 _ _ H1) as (i2 & H2). exists i2. rewrite H2.
  by rewrite counted_add.
Qed.

Lemma promptTouch_touched r r' :
  promptTouch r = (inr (), r') →
  touched 1 r r' ∧ steady (world r) (world r') ∧ winner r' = winner r.
Proof.
  intros H. apply promptTouch_inv in H as (p & p' & w' & Hp & Hpt & Hp' & Hw & Ht & Hwin);
    [|done].
  split; [|split; [|done]].
  - split.
    + rewrite Ht, touches_app. reflexivity.
    + intros inner c Hc. rewrite Hp in Hc. injection Hc as ->.
      apply PromptTouch_counting in Hpt as (inner' & ->).
      exists inner'. by rewrite Hp'.
  - rewrite Hw. by eapply PromptTouch_steady.
Qed.

Lemma promptPIN_touched r s r' :
  promptPIN r = (inr s, r') →
  touched 0 r r' ∧ evolves (world r) (world r') ∧ winner r' = winner r
  ∧ trace r' = (trace r ++ [EvPromptPIN])%list.
Proof.
  intros H. apply promptPIN_inv in H
    as [(p & s0 & w' & Hp & Hpp & _ & Hp' & Hw & Ht & Hwin)|(_ & _ & [=])].
  split; [|split; [|done]].
  - split.
    + rewrite Ht, touches_app. reflexivity.
    + intros inner c Hc. exists inner. by rewrite Hp', Hc.
  - rewrite Hw. by eapply PromptPIN_evolves.
Qed.



(** ** The successful ceremonies *)

















(** The scenarios of [TestFIDO2Login_PromptTouch]. *)
Example touches_MFA :
  promptCount <$> prompt
    (FIDO2Login 5 "https://example.com" (Some mfaAssertion)
       (Some (countingPrompt (devicePrompt "/auth1") 0)) None
       (newFakeFIDO2 sampleData [auth1; pin1; bio1])).2 = Some 1%Z.
Proof. vm_compute. reflexivity. Qed.

Example touches_passwordless_PIN_plugged :
  promptCount <$> prompt
    (FIDO2Login 5 "https://example.com" (Some pwdlessAssertion)
       (Some (countingPrompt (devicePrompt "/pin1") 0)) None
       (withNonMeteredLocations (newFakeFIDO2 sampleData [pin1]))).2 = Some 2%Z.
Proof. vm_compute. reflexivity. Qed.

Example touches_passwordless_PIN_not_plugged :
  promptCount <$> prompt
    (FIDO2Login 5 "https://example.com" (Some pwdlessAssertion)
       (Some (countingPrompt (devicePrompt "/pin1") 0)) None
       (newFakeFIDO2 sampleData [pin1])).2 = Some 2%Z.
Proof. vm_compute. reflexivity. Qed.

Example touches_passwordless_bio :
  promptCount <$> prompt
    (FIDO2Login 5 "https://example.com" (Some pwdlessAssertion)
       (Some (countingPrompt (devicePrompt "/bio1") 0))
       (Some {| opts_User := "llama" |})
       (newFakeFIDO2 sampleData [bio1])).2 = Some 1%Z.
Proof. vm_compute. reflexivity. Qed.

Example touches_passwordless_multiple_devices :
  promptCount <$> prompt pwdlessOnPin1.2 = Some 2%Z
  ∧ pwdlessOnPin1.1 = inr (pin1Response, "").
Proof. vm_compute. split; reflexivity. Qed.


(** ** The user a login reports *)






(** [TestFIDO2Login_singleResidentCredential]: a single resident
    credential, without [opts.user], with the name it carries and with
    another name: no user is reported. *)
Example single_resident_credential_no_user :
  (FIDO2Login 5 "https://example.com" (Some pwdlessAssertion)
     (Some (devicePrompt "/bio")) None bioWorld).1
  = inr (bioResponse, "")
  ∧ (FIDO2Login 5 "https://example.com" (Some pwdlessAssertion)
       (Some (devicePrompt "/bio")) (Some {| opts_User := "llama" |})
       bioWorld).1
    = inr (bioResponse, "")
  ∧ (FIDO2Login 5 "https://example.com" (Some pwdlessAssertion)
       (Some (devicePrompt "/bio")) (Some {| opts_User := "alpaca" |})
       bioWorld).1
    = inr (bioResponse, "").
Proof. split_and!; vm_compute; reflexivity. Qed.

(** ** Cancellation by the PIN prompt *)

Lemma promptTouch_any r x r' :
  promptTouch r = (x, r') →
  steady (world r) (world r') ∧ winner r' = winner r
  ∧ (x = inr () → trace r' = (trace r ++ [EvPromptTouch])%list)
  ∧ (∀ e, x = inl e → r' = r).
Proof.
  unfold promptTouch. destruct (prompt r) as [p|].
  - destruct (PromptTouch p (world r)) as [p' w'] eqn:Hp.
    intros [= <- <-]. simpl. split_and!; try done.
    by eapply PromptTouch_steady.
  - intros [= <- <-]. split_and!; try done. apply steady_refl.
Qed.

Lemma pickAssertion_any pw user l r x r' :
  pickAssertion pw user l r = (x, r') →
  world r' = world r ∧ winner r' = winner r
  ∧ touches (trace r') = touches (trace r).
Proof.
  unfold pickAssertion, failWith, mret, M_ret.
  destruct l as [|a [|b rest]]; try by intros [= <- <-].
  destruct pw; cbv beta iota delta [negb]; [|by intros [= <- <-]].
  destruct (String.eqb user ""); cbv beta iota.
  - intros H. apply bind_any in H as [(e & Hm & ->)|(ci & r1 & Hm & H)];
      apply promptCredential_inv in Hm as (_ & Hw & Hwin & Ht & _);
      [done|].
    destruct (find _ _); injection H as <- <-; done.
  - destruct (find _ _); by intros [= <- <-].
Qed.

(** The call with UV=true on the selected device never ends the
    context. *)
Lemma verifySelected_ctx h k r x r' :
  verifySelected h k r = (x, r') →
  ctxCancelled (world r') = ctxCancelled (world r).
Proof.
  unfold verifySelected. intros H.
  apply bind_any in H as [(e & Hm & ->)|([] & r3 & Htouch & H)].
  { by apply promptTouch_any in Hm as ([_ Hs] & _). }
  apply promptTouch_any in Htouch as ([_ Hs3] & _).
  apply bind_any in H as [(e & Hm & ->)|(res & r4 & Hcall & H)].
  { apply liftW_inv in Hm as (? & ? & _ & [=] & _). }
  apply liftW_inv in Hcall as (res' & w4 & Hcall & [= <-] & ->).
  apply devAssertion_steady in Hcall as [_ Hs4]. simpl in H.
  destruct res as [[l|e]|]; unfold mret, M_ret, failWith in H.
  - injection H as _ <-. simpl. congruence.
  - injection H as _ <-. simpl. congruence.
  - apply bind_any in H as [(e & Hm & ->)|([] & r5 & Hcan & H)].
    { apply liftW_inv in Hm as (? & ? & _ & [=] & _). }
    apply liftW_inv in Hcan as ([] & w5 & Hcan & _ & ->).
    injection Hcan as <-.
    apply bind_any in H as [(e & Hm & ->)|([] & r6 & Hctx & H)].
    + apply checkCtx_inv in Hm as [-> _]. simpl. congruence.
    + apply checkCtx_inv in Hctx as [-> _]. injection H as _ <-.
      simpl. congruence.
Qed.

(** The steps that follow the device selection, when the context ends
    up cancelled: the device is PIN-protected, the PIN prompt has been
    answered, the ceremony is over with Cancelled, and nothing was
    prompted after the PIN. *)
Lemma afterSelection_cancelled h k r x r' :
  afterSelection h k r = (x, r') →
  ctxCancelled (world r) = false → ctxCancelled (world r') = true →
  x = inl Cancelled ∧ trace r' = (trace r ++ [EvPromptPIN])%list
  ∧ winner r' = winner r ∧ touched 0 r r'.
Proof.
  unfold afterSelection. intros H Hc0 Hc1.
  destruct (wk_pinProtected k).
  2:{ apply verifySelected_ctx in H. congruence. }
  apply bind_any in H as [(e & Hm & ->)|(pinArg & r1 & Hpin & H)].
  { apply promptPIN_inv in Hm as [(?&?&?&?&?&[=]&_)|(_ & -> & _)]. congruence. }
  apply promptPIN_touched in Hpin as (Ht1 & He1 & Hw1 & Htr1).
  apply bind_any in H as [(e & Hm & ->)|([] & r2 & Hctx & H)].
  { apply checkCtx_inv in Hm as [-> [[[=] _]|[[= <-] _]]]. done. }
  apply checkCtx_inv in Hctx as [-> [[_ Hc]|[[=] _]]].
  exfalso.
  destruct (String.eqb pinArg "").
  { unfold failWith in H. injection H as _ <-. congruence. }
  apply bind_any in H as [(e & Hm & ->)|([] & r3 & Htouch & H)].
  { apply promptTouch_any in Hm as ([_ Hs] & _). congruence. }
  apply promptTouch_any in Htouch as ([_ Hs3] & _).
  apply bind_any in H as [(e & Hm & ->)|(res & r4 & Hcall & H)].
  { apply liftW_inv in Hm as (? & ? & _ & [=] & _). }
  apply liftW_inv in Hcall as (res' & w4 & Hcall & [= <-] & ->).
  apply devAssertion_steady in Hcall as [_ Hs4]. simpl in H.
  destruct res as [[l|e]|]; unfold mret, M_ret, failWith in H.
  - injection H as _ <-. simpl in Hc1. congruence.
  - injection H as _ <-. simpl in Hc1. congruence.
  - apply bind_any in H as [(e & Hm & ->)|([] & r5 & Hcan & H)].
    { apply liftW_inv in Hm as (? & ? & _ & [=] & _). }
    apply liftW_inv in Hcan as ([] & w5 & Hcan & _ & ->).
    injection Hcan as <-.
    apply bind_any in H as [(e & Hm & ->)|([] & r6 & Hctx & H)].
    + apply checkCtx_inv in Hm as [-> _]. simpl in Hc1. congruence.
    + apply checkCtx_inv in Hctx as [-> _]. injection H as _ <-.
      simpl in Hc1. congruence.
Qed.

(** C7: in a passwordless ceremony, a context that is cancelled while
    the ceremony runs (which only the PIN prompt does, and the PIN is
    only asked for after a PIN-protected device was selected by its
    touch) makes [FIDO2Login] return Cancelled; the prompt has then been
    asked for the device-selection touch and for the PIN and for
    nothing else: the second touch prompt is never delivered. *)
Theorem cancelled_after_PIN ticks origin a p opts w res r' :
  FIDO2Login ticks origin (Some a) (Some p) opts w = (res, r') →
  isPasswordless a = true →
  ctxCancelled w = false → ctxCancelled (world r') = true →
  res = inl Cancelled
  ∧ trace r' = [EvPromptTouch; EvPromptPIN]
  ∧ touched 1 (initialRun (Some p) w) r'
  ∧ winner r' = None.
Proof.
  unfold FIDO2Login. fold (initialRun (Some p) w). intros H Hpw Hc0 Hc1.
  destruct (validateLogin origin (Some a) (Some p)).
  { injection H as _ <-. simpl in Hc1. congruence. }
  rewrite Hpw in H. set (r0 := initialRun (Some p) w) in *.
  apply bind_any in H as [(e & Hm & ->)|([] & r1 & Hctx & H)].
  { apply checkCtx_inv in Hm as [-> _]. simpl in Hc1. congruence. }
  apply checkCtx_inv in Hctx as [-> _].
  apply bind_any in H as [(e & Hm & ->)|(cs & r2 & Hdisc & H)].
  { apply discoverM_quiet in Hm as (_ & _ & _ & _ & Hs). simpl in Hs.
    congruence. }
  apply discoverM_quiet in Hdisc as Hq02.
  pose proof Hq02 as (Hp2 & Htr2 & Hw2 & _ & Hs2).
  simpl in Hs2, Htr2, Hw2.
  apply bind_any in H as [(e & Hm & ->)|([chosen k] & r3 & Hlogin & H)].
  2:{ (* the ceremony went through: the context was never cancelled *)
      exfalso. unfold mret, M_ret in H. injection H as _ <-.
      unfold loginPasswordless in Hlogin.
      apply bind_inr in Hlogin as ([] & q1 & Ht & Hlogin).
      apply promptTouch_any in Ht as ([_ Hq1] & _).
      apply bind_inr in Hlogin as (win & q2 & Hr & Hlogin).
      apply race_quiet in Hr as (_ & _ & _ & _ & Hq2).
      apply bind_inr in Hlogin as (l & q3 & Hl & Hlogin).
      apply bind_inr in Hlogin as (ch & q4 & Hpick & Hlogin).
      apply pickAssertion_any in Hpick as (Hq4 & _).
      apply bind_inr in Hlogin as ([] & q5 & Hset & Hlogin).
      unfold setWinner in Hset. injection Hset as <-.
      unfold mret, M_ret in Hlogin. injection Hlogin as _ _ <-.
      simpl in Hc1. rewrite Hq4 in Hc1.
      destruct (snd win).
      - discriminate.
      - discriminate.
      - unfold mret, M_ret in Hl. injection Hl as _ <-. congruence.
      - destruct (ctxCancelled (world q3)) eqn:Hq3; [|congruence].
        apply afterSelection_cancelled in Hl as ([=] & _); [congruence|done]. }
  unfold loginPasswordless in Hm.
  apply bind_any in Hm as [(e' & Hm & [= <-])|([] & q1 & Ht & Hm)].
  { apply promptTouch_any in Hm as ([_ Hq1] & _). congruence. }
  pose proof Ht as Ht'.
  apply promptTouch_touched in Ht' as (Htch & _ & _).
  apply promptTouch_any in Ht as ([_ Hq1] & Hwin1 & Htr1 & _).
  specialize (Htr1 eq_refl).
  apply bind_any in Hm as [(e' & Hm & [= <-])|(win & q2 & Hr & Hm)].
  { apply race_quiet in Hm as (_ & _ & _ & _ & Hq2). congruence. }
  apply race_quiet in Hr as Hquiet2.
  pose proof Hquiet2 as (Hp2' & Htr2' & Hwin2 & _ & Hq2).
  apply bind_any in Hm as [(e' & Hm & [= <-])|(l & q3 & Hl & Hm)].
  - (* the ceremony ended between the race and the choice *)
    destruct (snd win).
    + unfold failWith in Hm. injection Hm as _ <-. congruence.
    + unfold failWith in Hm. injection Hm as _ <-. congruence.
    + discriminate.
    + apply afterSelection_cancelled in Hm as ([= ->] & Htr & Hwin & Htch3);
        [|congruence|done].
      split_and!; [done| | |].
      * rewrite Htr, Htr2', Htr1, Htr2. done.
      * apply (touched_trans 0 1 r0 r2); [by apply touched_quiet|].
        apply (touched_trans 1 0 r2 q1); [done|].
        apply (touched_trans 0 0 q1 q2); [by apply touched_quiet|done].
      * congruence.
  - exfalso.
    assert (ctxCancelled (world q3) = false) as Hq3.
    { destruct (snd win).
      - discriminate.
      - discriminate.
      - unfold mret, M_ret in Hl. injection Hl as _ <-. congruence.
      - destruct (ctxCancelled (world q3)) eqn:Hq3; [|done].
        apply afterSelection_cancelled in Hl as ([=] & _); [congruence|done]. }
    apply bind_any in Hm as [(e' & Hm & [= <-])|(ch & q4 & Hpick & Hm)].
    { apply pickAssertion_any in Hm as (Hq4 & _). congruence. }
    apply pickAssertion_any in Hpick as (Hq4 & _).
    apply bind_any in Hm as [(e' & Hm & [= <-])|([] & q5 & Hset & Hm)].
    { discriminate. }
    discriminate.
Qed.

(** The PIN device is touched, the prompt answers with its PIN and
    cancels: Cancelled, after one touch prompt and the PIN prompt. *)
Lemma cancelled_after_PIN_witness :
  cancelAfterPIN.1 = inl Cancelled
  ∧ trace cancelAfterPIN.2 = [EvPromptTouch; EvPromptPIN]
  ∧ touched 1 (initialRun (Some (pinCancelPrompt "supersecretpin1"))
                 pin1Touched) cancelAfterPIN.2
  ∧ winner cancelAfterPIN.2 = None.
Proof.
  apply (cancelled_after_PIN 5 "https://example.com" pwdlessAssertion
           (pinCancelPrompt "supersecretpin1") None pin1Touched).
  - vm_compute. reflexivity.
  - reflexivity.
  - reflexivity.
  - vm_compute. reflexivity.
Defined.

(** ** The retry of the transient UV error *)

Lemma set_assertionErrors_id d :
  assertionErrors d = [] → set_assertionErrors [] d = d.
Proof. destruct d. simpl. by intros ->. Qed.

Lemma set_assertionErrors_twice es es' d :
  set_assertionErrors es (set_assertionErrors es' d) = set_assertionErrors es d.
Proof. done. Qed.

(** A device with no simulated error queued never reports error 63. *)
Lemma Assertion_no_63 td d rpID h ids pinArg opts e d' :
  assertionErrors d = [] →
  Assertion td d rpID h ids pinArg opts = Returns (Err e) d' →
  e ≠ e63.
Proof.
  unfold Assertion. intros -> H.
  repeat (match type of H with
          | (if ?c then _ else _) = _ =>
              destruct c; [by injection H as <- _|]
          end).
  destruct (negb (String.eqb pinArg "")
            && String.eqb (as_UP opts) libfido2.True).
  - destruct (validatePIN d pinArg) as [e0|] eqn:Hv.
    + injection H as <- _.
      by apply validatePIN_error in Hv as [-> | ->].
    + destruct (maybeLockUntilInteraction _ d) as [[e0|] d1|] eqn:Hl;
        [| |discriminate].
      * apply maybeLockUntilInteraction_error in Hl as ->.
        by injection H as <- _.
      * destruct (collectAssertions _ _ _ _) as [|? [|? ?]];
          [by injection H as <- _|discriminate..].
  - destruct (maybeLockUntilInteraction _ d) as [[e0|] d1|] eqn:Hl;
      [| |discriminate].
    + apply maybeLockUntilInteraction_error in Hl as ->.
      by injection H as <- _.
    + destruct (collectAssertions _ _ _ _) as [|? [|? ?]];
        [by injection H as <- _|discriminate..].
Qed.

(** Without simulated errors the retry never fires. *)
Lemma assertionWithRetry_no_errors n td d rpID h ids pinArg opts :
  assertionErrors d = [] →
  assertionWithRetry n td d rpID h ids pinArg opts =
  match Assertion td d rpID h ids pinArg opts with
  | Blocks => (None, d)
  | Returns r d' => (Some r, d')
  end.
Proof.
  intros He.
  destruct n; simpl;
    destruct (Assertion td d rpID h ids pinArg opts) as [[l|e] d'|] eqn:Ha;
    try done;
    (rewrite bool_decide_eq_false_2; [done|]);
    by eapply Assertion_no_63.
Qed.

(** A queued error 63 is consumed by one attempt. *)
Lemma Assertion_replays td d rpID h ids pinArg opts e rest :
  assertionErrors d = e :: rest →
  Assertion td d rpID h ids pinArg opts
  = Returns (Err e) (set_assertionErrors rest d).
Proof. unfold Assertion. by intros ->. Qed.

Lemma assertionWithRetry_63 n td d rpID h ids pinArg opts rest :
  assertionErrors d = e63 :: rest →
  assertionWithRetry (S n) td d rpID h ids pinArg opts
  = assertionWithRetry n td (set_assertionErrors rest d) rpID h ids pinArg opts.
Proof.
  intros He. simpl. rewrite (Assertion_replays _ _ _ _ _ _ _ _ _ He).
  by rewrite bool_decide_eq_true_2.
Qed.

Lemma assertionWithRetry_63_last td d rpID h ids pinArg opts rest :
  assertionErrors d = e63 :: rest →
  assertionWithRetry 0 td d rpID h ids pinArg opts
  = (Some (Err e63), set_assertionErrors rest d).
Proof.
  intros He. simpl. rewrite (Assertion_replays _ _ _ _ _ _ _ _ _ He).
  by rewrite bool_decide_eq_true_2.
Qed.

(** Two queued errors 63 are retried away: the call returns what it
    returns without them, and leaves the device as it leaves it without
    them. *)
Lemma assertionWithRetry_absorbs_two td d rpID h ids pinArg opts :
  assertionErrors d = [] →
  assertionWithRetry uvRetryLimit td (set_assertionErrors [e63; e63] d)
    rpID h ids pinArg opts
  = assertionWithRetry uvRetryLimit td d rpID h ids pinArg opts.
Proof.
  intros He. unfold uvRetryLimit.
  rewrite (assertionWithRetry_63 _ _ _ _ _ _ _ _ [e63]) by done.
  rewrite set_assertionErrors_twice.
  rewrite (assertionWithRetry_63 _ _ _ _ _ _ _ _ []) by done.
  rewrite set_assertionErrors_twice, (set_assertionErrors_id _ He).
  by rewrite !assertionWithRetry_no_errors.
Qed.

(** Five queued errors 63 outlast the retries: the call fails with
    error 63 and one error is left. *)
Lemma assertionWithRetry_exhausted td d rpID h ids pinArg opts :
  assertionErrors d = [e63; e63; e63; e63; e63] →
  assertionWithRetry uvRetryLimit td d rpID h ids pinArg opts
  = (Some (Err e63), set_assertionErrors [e63] d).
Proof.
  intros He. unfold uvRetryLimit.
  rewrite (assertionWithRetry_63 _ _ _ _ _ _ _ _ [e63; e63; e63; e63]) by done.
  rewrite (assertionWithRetry_63 _ _ _ _ _ _ _ _ [e63; e63; e63]) by done.
  rewrite (assertionWithRetry_63 _ _ _ _ _ _ _ _ [e63; e63]) by done.
  by rewrite (assertionWithRetry_63_last _ _ _ _ _ _ _ [e63]).
Qed.

(** ** Two queued transient errors are invisible *)

Lemma sim_refl p w : sim p w w.
Proof. by left. Qed.

Lemma queued_lookup es p w w0 q :
  queued es p w w0 →
  ∃ d0, devices w0 !! p = Some d0 ∧ assertionErrors d0 = []
    ∧ devices w !! q
      = if decide (p = q) then Some (set_assertionErrors es d0)
        else devices w0 !! q.
Proof.
  intros (d0 & Hd0 & He & ->). exists d0. split_and!; [done..|]. simpl.
  case_decide as Hq.
  - subst. apply lookup_insert_eq.
  - by apply lookup_insert_ne.
Qed.

Lemma queued_fields es p w w0 :
  queued es p w w0 →
  locs w = locs w0 ∧ data w = data w0 ∧ meter w = meter w0
  ∧ useNonMeteredLocs w = useNonMeteredLocs w0
  ∧ ctxCancelled w = ctxCancelled w0.
Proof. by intros (d0 & _ & _ & ->). Qed.

(** A change of one device that neither reads nor writes the queue of
    simulated errors keeps the two worlds alike. *)
Lemma sim_alter p q (g : fakeFIDO2Device → fakeFIDO2Device) w w0 :
  (∀ es d, g (set_assertionErrors es d) = set_assertionErrors es (g d)) →
  (∀ d, assertionErrors (g d) = assertionErrors d) →
  sim p w w0 →
  sim p (setDevices (alter g q (devices w)) w)
        (setDevices (alter g q (devices w0)) w0).
Proof.
  intros Hg Hge [-> | (d0 & Hd0 & He & ->)]; [by left|]. right. simpl.
  destruct (decide (q = p)) as [->|Hq].
  - exists (g d0). split_and!.
    + simpl. by rewrite lookup_alter_eq, Hd0.
    + by rewrite Hge.
    + unfold setDevices. simpl. f_equal. apply map_eq. intros k.
      destruct (decide (p = k)) as [->|Hk].
      * rewrite lookup_alter_eq, !lookup_insert_eq. simpl. by rewrite Hg.
      * by rewrite lookup_alter_ne, !lookup_insert_ne, lookup_alter_ne.
  - exists d0. split_and!.
    + simpl. by rewrite lookup_alter_ne.
    + done.
    + unfold setDevices. simpl. f_equal. apply map_eq. intros k.
      destruct (decide (p = k)) as [->|Hk].
      * by rewrite lookup_alter_ne, !lookup_insert_eq.
      * rewrite lookup_insert_ne by done.
        destruct (decide (q = k)) as [->|Hk'].
        -- by rewrite !lookup_alter_eq, lookup_insert_ne.
        -- by rewrite !lookup_alter_ne, ?lookup_insert_ne.
Qed.

Lemma sim_setUP p q w w0 :
  sim p w w0 →
  sim p (setDevices (alter setUP q (devices w)) w)
        (setDevices (alter setUP q (devices w0)) w0).
Proof. by apply sim_alter. Qed.

Lemma sim_cancelInFlight p q w w0 :
  sim p w w0 →
  sim p (setDevices (alter cancelInFlight q (devices w)) w)
        (setDevices (alter cancelInFlight q (devices w0)) w0).
Proof.
  apply sim_alter.
  - intros es d. unfold cancelInFlight, maybeLockUntilInteraction, Cancel.
    simpl. by rewrite andb_false_r.
  - intros d. unfold cancelInFlight, maybeLockUntilInteraction, Cancel.
    simpl. by rewrite andb_false_r.
Qed.

Lemma sim_setMeter p i w w0 : sim p w w0 → sim p (setMeter i w) (setMeter i w0).
Proof.
  intros [-> | (d0 & Hd0 & He & ->)]; [by left|]. right.
  by exists d0.
Qed.

Lemma sim_setCancelled p w w0 :
  sim p w w0 → sim p (setCancelled w) (setCancelled w0).
Proof.
  intros [-> | (d0 & Hd0 & He & ->)]; [by left|]. right.
  by exists d0.
Qed.

Lemma sim_fields p w w0 :
  sim p w w0 →
  locs w = locs w0 ∧ data w = data w0 ∧ meter w = meter w0
  ∧ useNonMeteredLocs w = useNonMeteredLocs w0
  ∧ ctxCancelled w = ctxCancelled w0.
Proof. intros [-> | H]; [done|]. by eapply queued_fields. Qed.

Lemma FIDODeviceLocations_sim p : respectsW p FIDODeviceLocations.
Proof.
  intros w w0 x w' Hs. pose proof (sim_fields _ _ _ Hs) as (Hl & _ & Hm & Hu & _).
  unfold FIDODeviceLocations. rewrite Hl, Hm, Hu.
  destruct (useNonMeteredLocs w0); intros [= <- <-]; eexists; split; try done.
  by apply sim_setMeter.
Qed.

Lemma openDevice_sim p w w0 q :
  sim p w w0 → openDevice w q = openDevice w0 q.
Proof.
  intros [-> | Hq]; [done|].
  pose proof (queued_fields _ _ _ _ Hq) as (Hl & _).
  destruct (queued_lookup _ _ _ _ q Hq) as (d0 & Hd0 & _ & Hlook).
  unfold openDevice, NewDevice. rewrite Hlook.
  case_decide; [|done]. subst. by rewrite Hd0.
Qed.

Lemma omap_pointwise {A B} (f g : A → option B) (l : list A) :
  (∀ x, f x = g x) → omap f l = omap g l.
Proof.
  intros Hfg. induction l as [|a l IH]; csimpl; [done|].
  by rewrite Hfg, IH.
Qed.

Lemma discover_sim p ticks : respectsW p (discover ticks).
Proof.
  induction ticks as [|n IH]; intros w w0 x w' Hs; simpl.
  - intros [= <- <-]. eauto.
  - destruct (FIDODeviceLocations w) as [ps w1] eqn:Hl.
    destruct (FIDODeviceLocations_sim p _ _ _ _ Hs Hl) as (w01 & -> & Hs1).
    rewrite (omap_pointwise (openDevice w1) (openDevice w01))
      by (intros; by apply (openDevice_sim p)).
    destruct (omap (openDevice w01) ps).
    + by apply IH.
    + intros [= <- <-]. eauto.
Qed.

Lemma devAssertion_sim p q rpID h ids pinArg opts :
  respectsW p (devAssertion q rpID h ids pinArg opts).
Proof.
  intros w w0 x w' [-> | Hq]; [eauto using sim_refl|].
  pose proof (queued_fields _ _ _ _ Hq) as (_ & Hdata & _).
  destruct (queued_lookup _ _ _ _ q Hq) as (d0 & Hd0 & He & Hlook).
  unfold devAssertion. rewrite Hlook, Hdata.
  destruct Hq as (d0' & Hd0' & _ & ->).
  rewrite Hd0 in Hd0'. injection Hd0' as <-.
  destruct (decide (p = q)) as [<-|Hne]; cbv beta iota.
  - rewrite Hd0, assertionWithRetry_absorbs_two by done.
    destruct (assertionWithRetry _ _ _ _ _ _ _ _) as [r d'].
    intros [= <- <-]. eexists. split; [done|]. left.
    unfold setDevices. simpl. f_equal. apply insert_insert_eq.
  - destruct (devices w0 !! q) as [d|] eqn:Hd.
    + destruct (assertionWithRetry _ _ _ _ _ _ _ _) as [r d'].
      intros [= <- <-]. eexists. split; [done|]. right.
      exists d0. split_and!; [|done|].
      * simpl. by rewrite lookup_insert_ne.
      * unfold setDevices. simpl. f_equal. by apply insert_insert_ne.
    + intros [= <- <-]. eexists. split; [done|]. right. by exists d0.
Qed.

Lemma filterDevice_sim p h a c : respectsW p (filterDevice h a c).
Proof.
  intros w w0 x w' Hs. unfold filterDevice.
  destruct (devAssertion _ _ _ _ _ _ w) as [r1 w1] eqn:H1.
  destruct (devAssertion_sim p _ _ _ _ _ _ _ _ _ _ Hs H1) as (w01 & -> & Hs1).
  destruct r1 as [[l|e]|]; try (intros [= <- <-]; eauto).
  case_bool_decide; [|intros [= <- <-]; eauto].
  destruct (ca_AppID a) as [app|]; [|intros [= <- <-]; eauto].
  destruct (devAssertion _ _ _ _ _ _ w1) as [r2 w2] eqn:H2.
  destruct (devAssertion_sim p _ _ _ _ _ _ _ _ _ _ Hs1 H2) as (w02 & -> & Hs2).
  destruct r2 as [[l|e2]|]; try (intros [= <- <-]; eauto).
  case_bool_decide; intros [= <- <-]; eauto.
Qed.

Lemma runWorkers_sim p h ws : respectsW p (runWorkers h ws).
Proof.
  induction ws as [|[k [e|]] rest IH]; intros w w0 x w' Hs; simpl.
  - intros [= <- <-]. eauto.
  - destruct (runWorkers h rest w) as [rs w1] eqn:Hr.
    destruct (IH _ _ _ _ Hs Hr) as (w01 & -> & Hs1).
    intros [= <- <-]. eauto.
  - destruct (devAssertion _ _ _ _ _ _ w) as [r w1] eqn:Hd.
    destruct (devAssertion_sim p _ _ _ _ _ _ _ _ _ _ Hs Hd) as (w01 & -> & Hs1).
    destruct (runWorkers h rest w1) as [rs w2] eqn:Hr.
    destruct (IH _ _ _ _ Hs1 Hr) as (w02 & -> & Hs2).
    intros [= <- <-]. eauto.
Qed.

Lemma cancelSiblings_sim p rs w w0 :
  sim p w w0 → sim p (cancelSiblings rs w) (cancelSiblings rs w0).
Proof.
  revert w w0. induction rs as [|[k a] rest IH]; intros w w0 Hs; simpl;
    [done|].
  destruct a; try by apply IH.
  by apply IH, sim_cancelInFlight.
Qed.

Lemma PromptTouch_sim p q : respectsW p (PromptTouch q).
Proof.
  induction q as [| | |inner IH n]; intros w w0 x w' Hs; simpl;
    try (intros [= <- <-]; eauto).
  - eexists. split; [done|]. by apply sim_setUP.
  - destruct (PromptTouch inner w) as [i' w1] eqn:Hi.
    destruct (IH _ _ _ _ Hs Hi) as (w01 & -> & Hs1).
    intros [= <- <-]. eauto.
Qed.

Lemma PromptPIN_sim p q : respectsW p (PromptPIN q).
Proof.
  induction q as [| | |inner IH n]; intros w w0 x w' Hs; simpl;
    try (intros [= <- <-]; eauto).
  - eexists. split; [done|]. by apply sim_setCancelled.
  - eexists. split; [|done]. f_equal.
    destruct Hs as [-> | Hq]; [done|].
    destruct (queued_lookup _ _ _ _ pathArg Hq) as (d0 & Hd0 & _ & ->).
    case_decide; [|done]. subst. by rewrite Hd0.
  - by apply IH.
Qed.

Lemma respects_ret {A} p (a : A) : respects p (mret a).
Proof. intros r r0 x r' Hs [= <- <-]. eauto. Qed.

Lemma respects_fail {A} p e : respects p (@failWith A e).
Proof. intros r r0 x r' Hs [= <- <-]. eauto. Qed.

Lemma respects_bind {A B} p (m : M A) (k : A → M B) :
  respects p m → (∀ a, respects p (k a)) → respects p (m ≫= k).
Proof.
  intros Hm Hk r r0 x r' Hs H. unfold mbind, M_bind in *.
  destruct (m r) as [[e|a] r1] eqn:Hmr;
    destruct (Hm _ _ _ _ Hs Hmr) as (r01 & -> & Hs1).
  - injection H as <- <-. eauto.
  - by eapply Hk.
Qed.

Lemma simRun_setWorld p r r0 w w0 :
  simRun p r r0 → sim p w w0 → simRun p (setWorld w r) (setWorld w0 r0).
Proof. intros (_ & ? & ? & ?) Hs. by split_and!. Qed.

Lemma respects_liftW {A} p (f : World → A * World) :
  respectsW p f → respects p (liftW f).
Proof.
  intros Hf r r0 x r' Hs. unfold liftW.
  destruct (f (world r)) as [a w'] eqn:Hfr.
  destruct Hs as (Hw & Hrest).
  destruct (Hf _ _ _ _ Hw Hfr) as (w0' & -> & Hs').
  intros [= <- <-]. eexists. split; [done|].
  by apply simRun_setWorld.
Qed.

Lemma respects_checkCtx p : respects p checkCtx.
Proof.
  intros r r0 x r' Hs. unfold checkCtx.
  destruct Hs as (Hw & Hrest).
  pose proof (sim_fields _ _ _ Hw) as (_ & _ & _ & _ & ->).
  destruct (ctxCancelled (world r0)); intros [= <- <-]; eexists;
    (split; [done|by split]).
Qed.

Lemma respects_promptTouch p : respects p promptTouch.
Proof.
  intros r r0 x r' (Hw & Hp & Ht & Hwin). unfold promptTouch. rewrite Hp.
  destruct (prompt r0) as [q|] eqn:Hp0.
  - destruct (PromptTouch q (world r)) as [q' w'] eqn:Hq.
    destruct (PromptTouch_sim p q _ _ _ _ Hw Hq) as (w0' & -> & Hs').
    intros [= <- <-]. eexists. split; [done|].
    split; [exact Hs'|]. simpl. rewrite Ht. by split_and!.
  - intros [= <- <-]. eexists. split; [done|].
    unfold simRun. by rewrite Hp, Hp0.
Qed.

Lemma respects_promptPIN p : respects p promptPIN.
Proof.
  intros r r0 x r' (Hw & Hp & Ht & Hwin). unfold promptPIN. rewrite Hp.
  destruct (prompt r0) as [q|] eqn:Hp0.
  - destruct (PromptPIN q (world r)) as [s w'] eqn:Hq.
    destruct (PromptPIN_sim p q _ _ _ _ Hw Hq) as (w0' & -> & Hs').
    intros [= <- <-]. eexists. split; [done|].
    split; [exact Hs'|]. simpl. rewrite Ht. by split_and!.
  - intros [= <- <-]. eexists. split; [done|].
    unfold simRun. by rewrite Hp, Hp0.
Qed.

Lemma respects_promptCredential p creds : respects p (promptCredential creds).
Proof.
  intros r r0 x r' (Hw & Hp & Ht & Hwin). unfold promptCredential. rewrite Hp.
  destruct (prompt r0) as [q|] eqn:Hp0.
  - destruct (PromptCredential q creds); intros [= <- <-]; eexists;
      (split; [done|]); (split; [exact Hw|]); simpl; rewrite Ht; by split_and!.
  - intros [= <- <-]. eexists. split; [done|].
    unfold simRun. by rewrite Hp, Hp0.
Qed.

Lemma respects_setWinner p q : respects p (setWinner q).
Proof.
  intros r r0 x r' (Hw & Hp & Ht & Hwin). unfold setWinner.
  intros [= <- <-]. eexists. split; [done|]. by split_and!.
Qed.

Lemma respects_discoverM p ticks : respects p (discoverM ticks).
Proof.
  intros r r0 x r' Hs. unfold discoverM.
  destruct (discover ticks (world r)) as [cs w'] eqn:Hd.
  pose proof Hs as (Hw & _).
  destruct (discover_sim p ticks _ _ _ _ Hw Hd) as (w0' & -> & Hs').
  pose proof (sim_fields _ _ _ Hs') as (_ & _ & _ & _ & Hc).
  rewrite Hc.
  destruct cs; intros [= <- <-]; eexists; (split; [done|]);
    by apply simRun_setWorld.
Qed.

Lemma respects_race p h ws : respects p (race h ws).
Proof.
  intros r r0 x r' Hs. unfold race.
  destruct (runWorkers h ws (world r)) as [rs w1] eqn:Hr.
  pose proof Hs as (Hw & _).
  destruct (runWorkers_sim p h ws _ _ _ _ Hw Hr) as (w01 & -> & Hs1).
  pose proof (sim_fields _ _ _ Hs1) as (_ & _ & _ & _ & Hc).
  rewrite Hc.
  pose proof (cancelSiblings_sim p rs _ _ Hs1) as Hs2.
  destruct (find _ rs); intros [= <- <-]; eexists; (split; [done|]);
    by apply simRun_setWorld.
Qed.

Lemma respects_planMFA p h a cs : respects p (planMFA h a cs).
Proof.
  induction cs as [|c rest IH]; simpl; [apply respects_ret|].
  apply respects_bind; [apply respects_liftW, filterDevice_sim|].
  intros [[[rp app] broken]|]; [|done].
  apply respects_bind.
  - destruct (_ && _ && _); [|apply respects_ret].
    apply respects_bind; [apply respects_promptPIN|]. intros s.
    apply respects_bind; [apply respects_checkCtx|]. intros [].
    apply respects_ret.
  - intros s. apply respects_bind; [done|]. intros ws. apply respects_ret.
Qed.

Lemma respects_pickAssertion p pw user l : respects p (pickAssertion pw user l).
Proof.
  unfold pickAssertion. destruct l as [|a [|b rest]];
    [apply respects_fail|apply respects_ret|].
  destruct (negb pw); [apply respects_ret|].
  destruct (negb (String.eqb user "")).
  - destruct (find _ _); [apply respects_ret|apply respects_fail].
  - apply respects_bind; [apply respects_promptCredential|]. intros ci.
    destruct (find _ _); [apply respects_ret|apply respects_fail].
Qed.

Lemma respects_verifySelected p h k : respects p (verifySelected h k).
Proof.
  unfold verifySelected.
  apply respects_bind; [apply respects_promptTouch|]. intros [].
  apply respects_bind; [apply respects_liftW, devAssertion_sim|].
  intros [[l|e]|]; [apply respects_ret|apply respects_fail|].
  apply respects_bind.
  - apply respects_liftW. intros w w0 x w' Hs [= <- <-].
    eexists. split; [done|]. by apply sim_cancelInFlight.
  - intros []. apply respects_bind; [apply respects_checkCtx|].
    intros []. apply respects_fail.
Qed.

Lemma respects_afterSelection p h k : respects p (afterSelection h k).
Proof.
  unfold afterSelection.
  destruct (wk_pinProtected k); [|apply respects_verifySelected].
  apply respects_bind; [apply respects_promptPIN|]. intros s.
  apply respects_bind; [apply respects_checkCtx|]. intros [].
  destruct (String.eqb s ""); [apply respects_fail|].
  apply respects_bind; [apply respects_promptTouch|]. intros [].
  apply respects_bind; [apply respects_liftW, devAssertion_sim|].
  intros [[l|e]|]; [apply respects_ret|apply respects_fail|].
  apply respects_bind.
  - apply respects_liftW. intros w w0 x w' Hs [= <- <-].
    eexists. split; [done|]. by apply sim_cancelInFlight.
  - intros []. apply respects_bind; [apply respects_checkCtx|].
    intros []. apply respects_fail.
Qed.

Lemma respects_loginMFA p h a cs : respects p (loginMFA h a cs).
Proof.
  unfold loginMFA.
  apply respects_bind; [apply respects_planMFA|]. intros ws.
  apply respects_bind; [apply respects_promptTouch|]. intros [].
  apply respects_bind; [apply respects_race|]. intros [k att].
  destruct att; simpl; try apply respects_fail.
  apply respects_bind; [apply respects_pickAssertion|]. intros ch.
  apply respects_bind; [apply respects_setWinner|]. intros [].
  apply respects_ret.
Qed.

Lemma respects_loginPasswordless p h a user cs :
  respects p (loginPasswordless h a user cs).
Proof.
  unfold loginPasswordless.
  apply respects_bind; [apply respects_promptTouch|]. intros [].
  apply respects_bind; [apply respects_race|]. intros [k att].
  apply respects_bind.
  - destruct att; simpl; try apply respects_fail;
      [apply respects_ret|apply respects_afterSelection].
  - intros l. apply respects_bind; [apply respects_pickAssertion|]. intros ch.
    apply respects_bind; [apply respects_setWinner|]. intros [].
    apply respects_ret.
Qed.

(** A login on a world with two transient errors queued at a device
    returns what it returns without them. *)
Lemma FIDO2Login_sim p ticks origin assertion promptArg opts w w0 x r' :
  sim p w w0 →
  FIDO2Login ticks origin assertion promptArg opts w = (x, r') →
  ∃ r0', FIDO2Login ticks origin assertion promptArg opts w0 = (x, r0')
    ∧ simRun p r' r0'.
Proof.
  intros Hs. unfold FIDO2Login.
  assert (Hs0 : simRun p {| world := w; prompt := promptArg; trace := [];
                            winner := None |}
                         {| world := w0; prompt := promptArg; trace := [];
                            winner := None |}) by by split_and!.
  destruct (validateLogin origin assertion promptArg).
  { intros [= <- <-]. eauto. }
  destruct assertion as [a|]; [|intros [= <- <-]; eauto].
  revert Hs0. generalize {| world := w; prompt := promptArg; trace := [];
                            winner := None |}
                         {| world := w0; prompt := promptArg; trace := [];
                            winner := None |}.
  intros r r0 Hs0 H. revert r r0 x r' Hs0 H.
  apply respects_bind; [apply respects_checkCtx|]. intros [].
  apply respects_bind; [apply respects_discoverM|]. intros cs.
  apply respects_bind.
  - destruct (isPasswordless a);
      [apply respects_loginPasswordless|apply respects_loginMFA].
  - intros res. apply respects_ret.
Qed.

(** ** Five queued transient errors outlast the retries *)

Lemma bind_run_inr {A B} (m : M A) (k : A → M B) r a r1 :
  m r = (inr a, r1) → (m ≫= k) r = k a r1.
Proof. intros H. unfold mbind, M_bind. by rewrite H. Qed.

Lemma bind_run_inl {A B} (m : M A) (k : A → M B) r e r1 :
  m r = (inl e, r1) → (m ≫= k) r = (inl e, r1).
Proof. intros H. unfold mbind, M_bind. by rewrite H. Qed.

Lemma queueErrors_lookup es p w d :
  devices w !! p = Some d →
  devices (queueErrors es p w) !! p = Some (set_assertionErrors es d).
Proof. intros H. unfold queueErrors. simpl. by rewrite lookup_alter_eq, H. Qed.

Lemma queueErrors_queued p w0 d0 :
  devices w0 !! p = Some d0 → assertionErrors d0 = [] →
  queued [e63; e63] p (queueErrors [e63; e63] p w0) w0.
Proof.
  intros Hd He. exists d0. split_and!; [done..|]. unfold queueErrors. f_equal.
  apply map_eq. intros q. destruct (decide (q = p)) as [->|Hq].
  - by rewrite lookup_alter_eq, lookup_insert_eq, Hd.
  - by rewrite lookup_alter_ne, lookup_insert_ne.
Qed.

Lemma openDevice_queueErrors es p w q :
  openDevice (queueErrors es p w) q = openDevice w q.
Proof.
  unfold openDevice, NewDevice, queueErrors. simpl.
  destruct (decide (q = p)) as [->|Hq].
  - rewrite lookup_alter_eq. by destruct (devices w !! p).
  - by rewrite lookup_alter_ne.
Qed.

Lemma discover_single ticks w p c :
  (2 ≤ ticks)%nat → locs w = [p] → openDevice w p = Some c →
  ∃ w1, discover ticks w = (Some [c], w1) ∧ devices w1 = devices w
    ∧ data w1 = data w ∧ ctxCancelled w1 = ctxCancelled w.
Proof.
  intros Ht Hl Hc. destruct ticks as [|[|n]]; [lia..|].
  cbn [discover]. unfold FIDODeviceLocations at 1.
  destruct (useNonMeteredLocs w) eqn:Hu.
  { rewrite Hl. simpl. rewrite Hc. simpl. by exists w. }
  destruct (Nat.ltb (S (meter w)) 2) eqn:Hm.
  - simpl. unfold FIDODeviceLocations. simpl. rewrite Hu.
    replace (S (S (meter w)) <? 2)%nat with false
      by (symmetry; apply Nat.ltb_ge; lia).
    rewrite Hl. simpl.
    replace (openDevice (setMeter (S (S (meter w))) (setMeter (S (meter w)) w)) p)
      with (openDevice w p) by done.
    rewrite Hc. simpl. by eexists.
  - rewrite Hl. simpl.
    replace (openDevice (setMeter (S (meter w)) w) p)
      with (openDevice w p) by done.
    rewrite Hc. simpl. by eexists.
Qed.

Lemma PromptTouch_errors q w q' w' p :
  PromptTouch q w = (q', w') →
  ctxCancelled w' = ctxCancelled w ∧ data w' = data w
  ∧ assertionErrors <$> devices w' !! p = assertionErrors <$> devices w !! p.
Proof.
  revert q' w'. induction q as [| | |inner IH n]; intros q' w'; simpl;
    try (by intros [= <- <-]).
  - intros [= <- <-]. split_and!; [done..|]. simpl.
    destruct (decide (p = pathArg)) as [->|Hq].
    + rewrite lookup_alter_eq. by destruct (devices w !! pathArg).
    + by rewrite lookup_alter_ne.
  - destruct (PromptTouch inner w) as [i' w1]. intros [= <- <-]. by eapply IH.
Qed.

Lemma devAssertion_exhausted p rpID h ids pinArg opts w d :
  devices w !! p = Some d →
  assertionErrors d = [e63; e63; e63; e63; e63] →
  devAssertion p rpID h ids pinArg opts w
  = (Some (Err e63),
     setDevices (<[p := set_assertionErrors [e63] d]> (devices w)) w).
Proof.
  intros Hd He. unfold devAssertion. rewrite Hd.
  by rewrite assertionWithRetry_exhausted.
Qed.

Lemma mostSpecific_single e : mostSpecific [e] = e.
Proof.
  unfold mostSpecific.
  do 3 (case_bool_decide as Ho;
        [by apply list_elem_of_singleton in Ho|clear Ho]).
  done.
Qed.

Lemma race_broken h k e r :
  ctxCancelled (world r) = false →
  race h [(k, Some e)] r = (inl e, r).
Proof.
  intros Hc. unfold race. simpl. rewrite Hc.
  change (failures [(k, Failed e)]) with [e]. rewrite mostSpecific_single.
  by destruct r.
Qed.

Lemma race_exhausted h k r d :
  ctxCancelled (world r) = false →
  devices (world r) !! wk_path k = Some d →
  assertionErrors d = [e63; e63; e63; e63; e63] →
  race h [(k, None)] r
  = (inl (DeviceError e63),
     setWorld (setDevices (<[wk_path k := set_assertionErrors [e63] d]>
                             (devices (world r))) (world r)) r).
Proof.
  intros Hc Hd He. unfold race. cbn [runWorkers].
  rewrite (devAssertion_exhausted _ _ _ _ _ _ _ _ Hd He).
  unfold attemptOf. rewrite (bool_decide_eq_false_2 (e63 = ErrNoCredentials)) by done.
  rewrite andb_false_r. cbn [cancelSiblings find isWin snd existsb isWaiting].
  simpl. rewrite Hc.
  change (failures _) with [DeviceError e63]. by rewrite mostSpecific_single.
Qed.

Lemma loginPasswordless_exhausted h a user c r q d :
  prompt r = Some q → ctxCancelled (world r) = false →
  devices (world r) !! c_path c = Some d →
  assertionErrors d = [e63; e63; e63; e63; e63] →
  ∃ r', loginPasswordless h a user [c] r = (inl (DeviceError e63), r')
    ∧ winner r' = winner r
    ∧ ∃ d', devices (world r') !! c_path c = Some d'
        ∧ assertionErrors d' = [e63].
Proof.
  intros Hp Hc Hd He. unfold loginPasswordless.
  destruct (PromptTouch q (world r)) as [q' w2] eqn:Hq.
  pose proof (PromptTouch_errors _ _ _ _ (c_path c) Hq) as (Hc2 & _ & He2).
  rewrite Hd in He2. simpl in He2.
  destruct (devices w2 !! c_path c) as [d2|] eqn:Hd2; [|discriminate].
  injection He2 as He2. rewrite He in He2.
  erewrite bind_run_inr; [|unfold promptTouch; by rewrite Hp, Hq].
  erewrite bind_run_inl;
    [|apply (race_exhausted _ (passwordlessWorker a true c).1 _ d2);
      simpl; congruence].
  eexists. split; [done|]. simpl. split; [done|].
  rewrite lookup_insert_eq. eauto.
Qed.

Lemma loginMFA_exhausted h a c r q d :
  prompt r = Some q → ctxCancelled (world r) = false →
  devices (world r) !! c_path c = Some d →
  assertionErrors d = [e63; e63; e63; e63; e63] →
  ∃ r', loginMFA h a [c] r = (inl (DeviceError e63), r')
    ∧ winner r' = winner r
    ∧ ∃ d', devices (world r') !! c_path c = Some d'
        ∧ assertionErrors d' = [e63].
Proof.
  intros Hp Hc Hd He. unfold loginMFA.
  set (w1 := setDevices (<[c_path c := set_assertionErrors [e63] d]>
                           (devices (world r))) (world r)).
  destruct (PromptTouch q w1) as [q' w2] eqn:Hq.
  pose proof (PromptTouch_errors _ _ _ _ (c_path c) Hq) as (Hc2 & _ & He2).
  subst w1. simpl in He2. rewrite lookup_insert_eq in He2.
  simpl in He2.
  destruct (devices w2 !! c_path c) as [d2|] eqn:Hd2; [|discriminate].
  injection He2 as He2.
  erewrite bind_run_inr.
  2:{ cbn [planMFA]. erewrite bind_run_inr.
      2:{ unfold liftW, filterDevice.
          rewrite (devAssertion_exhausted _ _ _ _ _ _ _ _ Hd He).
          rewrite (bool_decide_eq_false_2 (e63 = ErrNoCredentials)) by done.
          reflexivity. }
      cbv beta iota.
      rewrite (bool_decide_eq_false_2 (Some (surface e63) = None)) by done.
      rewrite andb_false_r. reflexivity. }
  erewrite bind_run_inr;
    [|unfold promptTouch; cbn [prompt world setWorld]; by rewrite Hp, Hq].
  erewrite bind_run_inl; [|apply race_broken; simpl; by rewrite Hc2].
  eexists. split; [done|]. simpl. split; [done|]. eauto.
Qed.

(** With the device at [p] the only one plugged and five errors 63
    queued on it, the login fails with error 63 after the first call
    and its three retries: one error is left in the queue. *)
Lemma FIDO2Login_exhausted ticks origin a q opts w p d :
  validateLogin origin (Some a) (Some q) = None →
  ctxCancelled w = false → onlyPlugged p w → (2 ≤ ticks)%nat →
  devices w !! p = Some d →
  assertionErrors d = [e63; e63; e63; e63; e63] →
  ∃ r', FIDO2Login ticks origin (Some a) (Some q) opts w
        = (inl (DeviceError e63), r')
    ∧ winner r' = None
    ∧ ∃ d', devices (world r') !! p = Some d' ∧ assertionErrors d' = [e63].
Proof.
  intros Hval Hctx [Hlocs [c Hc]] Ht Hd He.
  destruct (discover_single _ _ _ _ Ht Hlocs Hc) as (w1 & Hdisc & Hdev & _ & Hctx1).
  pose proof (openDevice_inv _ _ _ Hc) as [Hpath _]. subst p.
  unfold FIDO2Login. rewrite Hval.
  erewrite bind_run_inr; [|unfold checkCtx; simpl; by rewrite Hctx].
  erewrite bind_run_inr; [|unfold discoverM; simpl; by rewrite Hdisc].
  set (r1 := setWorld w1 _).
  assert (prompt r1 = Some q) as Hp1 by done.
  assert (ctxCancelled (world r1) = false) as Hc1 by (simpl; congruence).
  assert (devices (world r1) !! c_path c = Some d) as Hd1
    by (simpl; congruence).
  destruct (isPasswordless a).
  - destruct (loginPasswordless_exhausted (clientDataHash
                {| cd_Type := "webauthn.get"; cd_Challenge := ca_Challenge a;
                   cd_Origin := origin |}) a (userOf opts) c r1 q d
                Hp1 Hc1 Hd1 He) as (r' & Hr & Hw & Hleft).
    erewrite bind_run_inl; [|exact Hr]. eauto.
  - destruct (loginMFA_exhausted (clientDataHash
                {| cd_Type := "webauthn.get"; cd_Challenge := ca_Challenge a;
                   cd_Origin := origin |}) a c r1 q d
                Hp1 Hc1 Hd1 He) as (r' & Hr & Hw & Hleft).
    erewrite bind_run_inl; [|exact Hr]. eauto.
Qed.

(** C5: the engine retries an assertion that fails with libfido2 error
    63 on the same device, three times at most.  Two errors 63 queued
    on a device are absorbed: the login returns what it returns without
    them, so a login that succeeds without them succeeds with them, with
    the same response and the same prompts.  Five errors 63 queued on
    the only plugged device outlast the retries: the login fails with
    an error whose text contains "libfido2 error 63", after four calls,
    which leave one error in the queue. *)
Theorem login_retries_error_63 ticks origin a q opts w p d :
  devices w !! p = Some d → assertionErrors d = [] →
  (∀ x r0, FIDO2Login ticks origin (Some a) (Some q) opts w = (x, r0) →
     ∃ r', FIDO2Login ticks origin (Some a) (Some q) opts
             (queueErrors [e63; e63] p w) = (x, r')
       ∧ trace r' = trace r0 ∧ winner r' = winner r0)
  ∧ (validateLogin origin (Some a) (Some q) = None →
     ctxCancelled w = false → onlyPlugged p w → (2 ≤ ticks)%nat →
     ∃ r', FIDO2Login ticks origin (Some a) (Some q) opts
             (queueErrors [e63; e63; e63; e63; e63] p w)
           = (inl (DeviceError e63), r')
       ∧ contains "libfido2 error 63" (errorString (DeviceError e63)) = true
       ∧ winner r' = None
       ∧ ∃ d', devices (world r') !! p = Some d'
           ∧ assertionErrors d' = [e63]).
Proof.
  intros Hd He. split.
  - intros x r0 H0.
    destruct (FIDO2Login ticks origin (Some a) (Some q) opts
                (queueErrors [e63; e63] p w)) as [x' r'] eqn:H2.
    destruct (FIDO2Login_sim p _ _ _ _ _ _ w _ _
                (or_intror (queueErrors_queued p w d Hd He)) H2)
      as (r0' & H0' & _ & _ & Htr & Hwin).
    rewrite H0 in H0'. injection H0' as <- <-. eauto.
  - intros Hval Hctx [Hlocs Hopen] Ht.
    destruct (FIDO2Login_exhausted ticks origin a q opts
                (queueErrors [e63; e63; e63; e63; e63] p w) p
                (set_assertionErrors [e63; e63; e63; e63; e63] d))
      as (r' & Hr & Hwin & Hleft); try done.
    + split; [done|]. by rewrite openDevice_queueErrors.
    + by apply queueErrors_lookup.
    + exists r'. by split_and!.
Qed.

(** [TestFIDO2Login_bioErrorHandling]: the biometric device alone, with
    two and with five errors 63 queued. *)
Lemma login_retries_error_63_witness :
  (∃ r', FIDO2Login 5 "https://example.com" (Some pwdlessAssertion)
           (Some (devicePrompt "/bio")) None
           (queueErrors [e63; e63] "/bio" bioWorld)
         = (inr (bioResponse, ""), r')
     ∧ trace r' = [EvPromptTouch] ∧ winner r' = Some "/bio")
  ∧ (∃ r', FIDO2Login 5 "https://example.com" (Some pwdlessAssertion)
             (Some (devicePrompt "/bio")) None
             (queueErrors [e63; e63; e63; e63; e63] "/bio" bioWorld)
           = (inl (DeviceError e63), r')
       ∧ contains "libfido2 error 63" (errorString (DeviceError e63)) = true
       ∧ winner r' = None
       ∧ ∃ d', devices (world r') !! "/bio" = Some d'
           ∧ assertionErrors d' = [e63]).
Proof.
  destruct (login_retries_error_63 5 "https://example.com" pwdlessAssertion
              (devicePrompt "/bio") None bioWorld "/bio" bioSingle
              eq_refl eq_refl) as [Htwo Hfive].
  split.
  - edestruct (Htwo (inr (bioResponse, ""))) as (r' & Hr & Htr & Hwin);
      [vm_compute; reflexivity|].
    exists r'. split; [exact Hr|]. split; [exact Htr|exact Hwin].
  - apply Hfive; [reflexivity|reflexivity| |lia].
    split; [reflexivity|]. vm_compute. eexists. reflexivity.
Defined.

(** The same test, with error 60 queued: it is not retried and has its
    own text. *)
Example error_60_is_fatal :
  errorString <$> sum_rect (λ _, option EngineError) Some (λ _, None)
    (FIDO2Login 5 "https://example.com" (Some pwdlessAssertion)
       (Some (devicePrompt "/bio")) None
       (queueErrors [Libfido2Error 60] "/bio" bioWorld)).1
  = Some "user verification function failed".
Proof. vm_compute. reflexivity. Qed.

(* ================================================================== *)
(** * Further properties of the registry and of the fake authenticator *)

(** ** The registry *)

Lemma registerDevices_fresh devs ls ds :
  NoDup (map path devs) → (∀ d, d ∈ devs → ds !! path d = None) →
  registerDevices devs ls ds
  = Some ((ls ++ map path devs)%list,
          list_to_map (map (λ d, (path d, d)) devs) ∪ ds).
Proof.
  revert ls ds. induction devs as [|dev rest IH]; intros ls ds Hnd Hfresh.
  - simpl. by rewrite app_nil_r, (left_id_L ∅ (∪)).
  - simpl in *. apply NoDup_cons in Hnd as [Hnin Hnd].
    rewrite (Hfresh dev) by apply list_elem_of_here.
    rewrite IH; [|done|].
    + rewrite <- app_assoc. simpl. f_equal. f_equal.
      rewrite <- insert_union_r, insert_union_l; [done|].
      apply not_elem_of_list_to_map_1. rewrite <- list_fmap_compose.
      exact Hnin.
    + intros d Hd. rewrite lookup_insert_ne.
      * apply Hfresh. by apply list_elem_of_further.
      * intros Heq. apply Hnin. rewrite Heq. by apply list_elem_of_fmap_2.
Qed.

Lemma registerDevices_some devs ls ds r :
  registerDevices devs ls ds = Some r →
  NoDup (map path devs) ∧ ∀ d, d ∈ devs → ds !! path d = None.
Proof.
  revert ls ds. induction devs as [|dev rest IH]; intros ls ds; simpl.
  - intros _. split; [constructor|]. intros d Hd. by apply not_elem_of_nil in Hd.
  - destruct (ds !! path dev) eqn:Hdev; [discriminate|].
    intros [Hnd Hfresh]%IH.
    assert (∀ d, d ∈ rest → path d ≠ path dev ∧ ds !! path d = None) as Hrest.
    { intros d Hd. specialize (Hfresh d Hd).
      apply lookup_insert_None in Hfresh as [? ?]. by split. }
    split.
    + apply NoDup_cons. split; [|done].
      intros (d & Hp & Hd)%list_elem_of_fmap.
      by destruct (Hrest d Hd) as [Hne _].
    + intros d [->|Hd]%elem_of_cons; [done|]. by apply Hrest.
Qed.

Lemma newFakeFIDO2_checked_iff td devs w :
  newFakeFIDO2_checked td devs = Some w
  ↔ NoDup (map path devs) ∧ w = newFakeFIDO2 td devs.
Proof.
  unfold newFakeFIDO2_checked. split.
  - destruct (registerDevices devs [] ∅) as [[ls ds]|] eqn:Hr; [|discriminate].
    intros [= <-]. pose proof (registerDevices_some _ _ _ _ Hr) as [Hnd _].
    split; [done|]. rewrite registerDevices_fresh in Hr; [|done|done].
    injection Hr as <- <-. unfold newFakeFIDO2.
    by rewrite (right_id_L ∅ (∪)).
  - intros [Hnd ->]. rewrite registerDevices_fresh; [|done|done].
    unfold newFakeFIDO2. by rewrite (right_id_L ∅ (∪)).
Qed.

(** X1: [newFakeFIDO2] panics exactly when two of the devices share a
    path; otherwise the registry lists the paths in the order of the
    devices, is metered, and maps each path to its device. *)
Theorem newFakeFIDO2_panics_on_duplicate_path td devs :
  (NoDup (map path devs) →
   newFakeFIDO2_checked td devs = Some (newFakeFIDO2 td devs))
  ∧ (¬ NoDup (map path devs) → newFakeFIDO2_checked td devs = None)
  ∧ ∀ w, newFakeFIDO2_checked td devs = Some w →
      locs w = map path devs ∧ useNonMeteredLocs w = false
      ∧ dom (devices w) = list_to_set (map path devs).
Proof.
  split_and!.
  - intros Hnd. by apply newFakeFIDO2_checked_iff.
  - intros Hdup. destruct (newFakeFIDO2_checked td devs) as [w|] eqn:Hw; [|done].
    by apply newFakeFIDO2_checked_iff in Hw as [? _].
  - intros w [Hnd ->]%newFakeFIDO2_checked_iff. split_and!; [done..|].
    unfold newFakeFIDO2. simpl. rewrite dom_list_to_map_L.
    by rewrite <- list_fmap_compose.
Qed.

Lemma newFakeFIDO2_panics_on_duplicate_path_witness :
  newFakeFIDO2_checked sampleData [pin1; bio1] = Some twoDevices
  ∧ newFakeFIDO2_checked sampleData [pin1; bio1; pin1] = None.
Proof.
  destruct (newFakeFIDO2_panics_on_duplicate_path sampleData [pin1; bio1])
    as (Hsome & _ & _).
  destruct (newFakeFIDO2_panics_on_duplicate_path sampleData [pin1; bio1; pin1])
    as (_ & Hnone & _).
  split.
  - apply Hsome. apply (bool_decide_unpack _). vm_compute. reflexivity.
  - apply Hnone. apply (bool_decide_unpack _). vm_compute. reflexivity.
Defined.

(** X2: in a registry built by [newFakeFIDO2], [NewDevice] returns the
    device registered under a path and fails with "not found" for any
    other path, and [DeviceLocations] lists exactly the registered
    paths, in order. *)
Theorem registered_devices_are_found td devs w :
  newFakeFIDO2_checked td devs = Some w →
  (FIDODeviceLocations (withNonMeteredLocations w)).1 = map path devs
  ∧ ∀ p, FIDONewDevice w p = NewDevice w p
      ∧ (∀ d, FIDONewDevice w p = Some d ↔ d ∈ devs ∧ path d = p)
      ∧ (FIDONewDevice w p = None ↔ p ∉ map path devs).
Proof.
  intros [Hnd ->]%newFakeFIDO2_checked_iff.
  split; [done|]. intros p.
  unfold FIDONewDevice, NewDevice, newFakeFIDO2. simpl.
  assert (NoDup (map (λ d, (path d, d)) devs).*1) as Hnd'
    by by rewrite <- list_fmap_compose.
  split_and!.
  - done.
  - intros d. rewrite <- elem_of_list_to_map by done.
    rewrite list_elem_of_fmap. split.
    + intros (d' & [= -> ->] & Hd). done.
    + intros [Hd <-]. eauto.
  - rewrite <- not_elem_of_list_to_map, <- list_fmap_compose. done.
Qed.

Lemma registered_devices_are_found_witness :
  (FIDODeviceLocations (withNonMeteredLocations twoDevices)).1
  = map path [pin1; bio1]
  ∧ ∀ p, FIDONewDevice twoDevices p = NewDevice twoDevices p
      ∧ (∀ d, FIDONewDevice twoDevices p = Some d
              ↔ d ∈ [pin1; bio1] ∧ path d = p)
      ∧ (FIDONewDevice twoDevices p = None ↔ p ∉ map path [pin1; bio1]).
Proof.
  apply (registered_devices_are_found sampleData [pin1; bio1] twoDevices).
  vm_compute. reflexivity.
Defined.

Lemma pollLocations_shown n w :
  useNonMeteredLocs w = true ∨ (1 ≤ meter w)%nat →
  (pollLocations n w).1 = replicate n (locs w)
  ∧ devices (pollLocations n w).2 = devices w.
Proof.
  revert w. induction n as [|n IH]; intros w Hw; [done|].
  simpl. unfold FIDODeviceLocations.
  destruct (useNonMeteredLocs w) eqn:Hu.
  - destruct (pollLocations n w) as [rest w2] eqn:Hp. simpl.
    destruct (IH w) as [H1 H2]; [by left|]. rewrite Hp in H1, H2.
    simpl in *. by rewrite H1.
  - destruct Hw as [?|Hm]; [done|].
    replace (S (meter w) <? 2)%nat with false
      by (symmetry; apply Nat.ltb_ge; lia).
    destruct (pollLocations n (setMeter (S (meter w)) w)) as [rest w2] eqn:Hp.
    simpl. destruct (IH (setMeter (S (meter w)) w)) as [H1 H2];
      [right; simpl; lia|].
    rewrite Hp in H1, H2. simpl in *. by rewrite H1.
Qed.

Lemma pollLocations_S n w :
  pollLocations (S n) w
  = ((FIDODeviceLocations w).1 :: (pollLocations n (FIDODeviceLocations w).2).1,
     (pollLocations n (FIDODeviceLocations w).2).2).
Proof.
  simpl. destruct (FIDODeviceLocations w) as [ps w1]. simpl.
  by destruct (pollLocations n w1).
Qed.

Lemma pollLocations_meter n w :
  useNonMeteredLocs w = false → meter (pollLocations n w).2 = meter w + n.
Proof.
  revert w. induction n as [|n IH]; intros w Hu; simpl; [lia|].
  unfold FIDODeviceLocations. rewrite Hu.
  destruct (pollLocations n (setMeter (S (meter w)) w)) as [rest w2] eqn:Hp.
  simpl. pose proof (IH (setMeter (S (meter w)) w) Hu) as Hm.
  rewrite Hp in Hm. simpl in Hm. lia.
Qed.

Lemma meteredPolls_shown n ls i :
  (1 ≤ i)%Z → (i + Z.of_nat n < 2 ^ 63)%Z →
  meteredPolls n ls i = (replicate n ls, (i + Z.of_nat n)%Z).
Proof.
  revert i. induction n as [|n IH]; intros i Hlo Hhi; simpl.
  - f_equal. lia.
  - unfold meteredDeviceLocations. rewrite wrapInt_small by lia.
    replace (i + 1 <? 2)%Z with false by (symmetry; apply Z.ltb_ge; lia).
    rewrite IH by lia. f_equal. lia.
Qed.

(** X3: the closure of [newMeteredDeviceLocations], whose counter is a
    Go [int], hides the devices on its first call and lists all of them
    on each of the calls that follow, as far as call 2^63 - 1, which
    leaves the largest [int] in the counter; the call after that one
    wraps the counter around and hides the devices again.  As far as
    that call the hook of a new registry, which counts the calls, gives
    the answers of the closure.  With [withNonMeteredLocations] every
    call lists the devices.  Polling never changes the registered
    devices. *)
Theorem metered_locations_hide_first_poll td devs n :
  (Z.of_nat n < 2 ^ 63 - 1)%Z →
  meteredPolls (S n) (map path devs) 0
  = ([] :: replicate n (map path devs), Z.of_nat (S n))
  ∧ (pollLocations (S n) (newFakeFIDO2 td devs)).1
    = (meteredPolls (S n) (map path devs) 0).1
  ∧ Z.of_nat (meter (pollLocations (S n) (newFakeFIDO2 td devs)).2)
    = (meteredPolls (S n) (map path devs) 0).2
  ∧ meteredDeviceLocations (map path devs) (2 ^ 63 - 1) = ([], (- 2 ^ 63)%Z)
  ∧ (pollLocations n (withNonMeteredLocations (newFakeFIDO2 td devs))).1
    = replicate n (map path devs)
  ∧ devices (pollLocations n (newFakeFIDO2 td devs)).2
    = devices (newFakeFIDO2 td devs).
Proof.
  intros Hn.
  assert (∀ k, (pollLocations k (setMeter 1 (newFakeFIDO2 td devs))).1
               = replicate k (map path devs)
             ∧ devices (pollLocations k (setMeter 1 (newFakeFIDO2 td devs))).2
               = devices (newFakeFIDO2 td devs)) as Hlater.
  { intros k. apply (pollLocations_shown k (setMeter 1 (newFakeFIDO2 td devs))).
    right. simpl. lia. }
  assert (meteredPolls (S n) (map path devs) 0
          = ([] :: replicate n (map path devs), Z.of_nat (S n))) as Hclosure.
  { cbn [meteredPolls]. unfold meteredDeviceLocations.
    change (wrapInt (0 + 1)) with 1%Z. change (1 <? 2)%Z with true.
    rewrite meteredPolls_shown by lia. do 2 f_equal. lia. }
  split_and!.
  - exact Hclosure.
  - rewrite Hclosure, pollLocations_S. cbn [fst]. f_equal. apply Hlater.
  - rewrite Hclosure, pollLocations_meter by done. simpl. lia.
  - reflexivity.
  - by apply pollLocations_shown; left.
  - destruct n as [|n']; [done|]. rewrite pollLocations_S. cbn [snd].
    apply Hlater.
Qed.

(** Four polls of the registry with the PIN device and the biometric
    device. *)
Lemma metered_locations_hide_first_poll_witness :
  meteredPolls 4 ["/pin1"; "/bio1"] 0
  = ([[]; ["/pin1"; "/bio1"]; ["/pin1"; "/bio1"]; ["/pin1"; "/bio1"]], 4%Z)
  ∧ (pollLocations 4 twoDevices).1
    = [[]; ["/pin1"; "/bio1"]; ["/pin1"; "/bio1"]; ["/pin1"; "/bio1"]]
  ∧ meteredDeviceLocations ["/pin1"; "/bio1"] (2 ^ 63 - 1)
    = ([], (- 2 ^ 63)%Z).
Proof.
  destruct (metered_locations_hide_first_poll sampleData [pin1; bio1] 3)
    as (Hc & Hp & _ & Ho & _ & _); [vm_compute; reflexivity|].
  split_and!.
  - exact Hc.
  - etrans; [exact Hp|reflexivity].
  - exact Ho.
Defined.

(** ** Options, PIN and user presence *)

Lemma findBoolOpt_true name opts :
  findBoolOpt name opts = true
  ↔ ∃ l1 o l2, opts = (l1 ++ o :: l2)%list
      ∧ (∀ x, x ∈ l1 → opt_Name x ≠ name)
      ∧ opt_Name o = name ∧ opt_Value o = libfido2.True.
Proof.
  induction opts as [|opt rest IH]; simpl.
  - split; [discriminate|]. intros (l1 & o & l2 & H & _). by destruct l1.
  - destruct (String.eqb (opt_Name opt) name) eqn:Hn.
    + apply String.eqb_eq in Hn. rewrite String.eqb_eq. split.
      * intros Hv. exists [], opt, rest. split_and!; try done.
        intros x Hx. by apply not_elem_of_nil in Hx.
      * intros ([|x l1] & o & l2 & H & Hl1 & Ho & Hv).
        -- by injection H as -> _.
        -- injection H as -> _. destruct (Hl1 x); [apply list_elem_of_here|done].
    + apply String.eqb_neq in Hn. rewrite IH. split.
      * intros (l1 & o & l2 & -> & Hl1 & Ho & Hv).
        exists (opt :: l1), o, l2. split_and!; try done.
        intros x [->|Hx]%elem_of_cons; [done|by apply Hl1].
      * intros ([|x l1] & o & l2 & H & Hl1 & Ho & Hv).
        -- injection H as -> _. done.
        -- injection H as -> ->. exists l1, o, l2. split_and!; try done.
           intros y Hy. apply Hl1. by apply list_elem_of_further.
Qed.

(** X4: a device has a boolean option exactly when it has device info
    and the first option of that name in it has the value "true";
    without info, without an option of that name, or with another
    value first, it does not: a later option of the same name is never
    consulted. *)
Theorem hasBoolOpt_first_option_decides f name :
  hasBoolOpt f name = true
  ↔ ∃ i l1 o l2, info f = Some i ∧ Options i = (l1 ++ o :: l2)%list
      ∧ (∀ x, x ∈ l1 → opt_Name x ≠ name)
      ∧ opt_Name o = name ∧ opt_Value o = "true".
Proof.
  unfold hasBoolOpt. destruct (info f) as [i|].
  - rewrite findBoolOpt_true. split.
    + intros (l1 & o & l2 & ? & ? & ? & ?). by exists i, l1, o, l2.
    + intros (i' & l1 & o & l2 & [= <-] & ? & ? & ? & ?). by exists l1, o, l2.
  - split; [discriminate|]. by intros (i & l1 & o & l2 & [=] & _).
Qed.

(** X5: [validatePIN] accepts a PIN exactly when the device is
    biometric and the PIN is empty, or the device has no PIN
    configured, or the PIN is the configured one; in particular a
    device without a configured PIN accepts any PIN. *)
Theorem validatePIN_accepts f pinArg :
  validatePIN f pinArg = None
  ↔ (isBio f = true ∧ pinArg = "") ∨ pin f = "" ∨ pin f = pinArg.
Proof.
  unfold validatePIN.
  destruct (isBio f); destruct (String.eqb pinArg "") eqn:Hp;
    destruct (String.eqb (pin f) "") eqn:Hf;
    destruct (String.eqb (pin f) pinArg) eqn:Hfp; simpl;
    rewrite ?String.eqb_eq, ?String.eqb_neq in *;
    split; try done; try (intros _; by auto); try by intuition congruence.
Qed.

(** X6: a call that waits for the user returns only after a touch or a
    cancel, a cancel taking precedence over a touch; it resets both, so
    that one interaction serves one call: the next call that waits for
    the user blocks. *)
Theorem interaction_serves_one_call f r f' :
  maybeLockUntilInteraction true f = Returns r f' →
  (up f = true ∨ cancel f = true)
  ∧ r = (if cancel f then Some ErrKeepaliveCancel else None)
  ∧ f' = released f
  ∧ maybeLockUntilInteraction true f' = Blocks.
Proof.
  unfold maybeLockUntilInteraction. simpl.
  destruct (up f) eqn:Hu; destruct (cancel f) eqn:Hc; simpl;
    try discriminate; intros [= <- <-]; split_and!; auto.
Qed.

Lemma interaction_serves_one_call_witness :
  (up (Cancel (setUP pin1)) = true ∨ cancel (Cancel (setUP pin1)) = true)
  ∧ Some ErrKeepaliveCancel
    = (if cancel (Cancel (setUP pin1)) then Some ErrKeepaliveCancel else None)
  ∧ released pin1 = released (Cancel (setUP pin1))
  ∧ maybeLockUntilInteraction true (released pin1) = Blocks.
Proof.
  apply (interaction_serves_one_call (Cancel (setUP pin1))
           (Some ErrKeepaliveCancel) (released pin1)).
  reflexivity.
Defined.

(** ** The calls of the authenticator *)

(** What [Assertion] does once its checks have passed. *)
Lemma Assertion_checked td f rpID h ids pinArg opts :
  asChecksOK f rpID h pinArg opts →
  Assertion td f rpID h ids pinArg opts
  = match maybeLockUntilInteraction
            (String.eqb (as_UP opts) libfido2.True) f with
    | Blocks => Blocks
    | Returns (Some err) f1 => Returns (Err err) f1
    | Returns None f1 =>
        match collectAssertions td f1 ids
                (isBio f || negb (String.eqb pinArg "")
                            && String.eqb (as_UP opts) libfido2.True) with
        | [] => Returns (Err ErrNoCredentials) f1
        | [a] => Returns (Ok [stripUser a]) f1
        | a :: b :: l => Returns (Ok (a :: b :: l)) f1
        end
    end.
Proof.
  intros ((He & Hrp & Hw & Hh) & Huv & Hpin). unfold Assertion.
  rewrite He, (eqb_empty_false _ Hrp), (wantRPID_check_passes _ _ Hw),
    (length_eqb_false _ Hh).
  assert ((if String.eqb (as_UV opts) ""
           then true
           else if String.eqb (as_UV opts) libfido2.True && failUV f
                then false
                else if String.eqb (as_UV opts) libfido2.True && isBio f
                     then true
                     else if String.eqb (as_UV opts) libfido2.True
                             && hasClientPin f && negb (String.eqb pinArg "")
                          then true else false) = true) as ->.
  { destruct Huv as [-> | (-> & -> & Hcase)]; simpl; [done|].
    destruct Hcase as [-> | [-> Hp]]; [done|].
    rewrite (eqb_empty_false _ Hp). by destruct (isBio f). }
  change (negb true) with false. cbv beta iota.
  assert ((if negb (String.eqb pinArg "")
              && String.eqb (as_UP opts) libfido2.True
           then validatePIN f pinArg else None) = None) as ->.
  { destruct (String.eqb pinArg "") eqn:Hp; [done|]. simpl.
    destruct (String.eqb (as_UP opts) libfido2.True) eqn:Hup; [|done].
    apply String.eqb_neq in Hp. apply String.eqb_eq in Hup. auto. }
  destruct (maybeLockUntilInteraction _ f) as [[err|] f1|]; try done.
  by destruct (collectAssertions _ _ _ _) as [|a [|b l]].
Qed.

Lemma asUVOK_iff f pinArg opts :
  asUVOK f pinArg opts
  ↔ (if String.eqb (as_UV opts) "" then true
     else if String.eqb (as_UV opts) libfido2.True && failUV f then false
     else if String.eqb (as_UV opts) libfido2.True && isBio f then true
     else if String.eqb (as_UV opts) libfido2.True && hasClientPin f
             && negb (String.eqb pinArg "") then true
     else false) = true.
Proof.
  unfold asUVOK, libfido2.Default.
  destruct (String.eqb (as_UV opts) "") eqn:Hu0;
    destruct (String.eqb (as_UV opts) libfido2.True) eqn:Hu1;
    destruct (failUV f); destruct (isBio f); destruct (hasClientPin f);
    destruct (String.eqb pinArg "") eqn:Hp;
    rewrite ?String.eqb_eq, ?String.eqb_neq in *; simpl;
    split; try done; try (intros _; by auto);
    try (intros [? | (? & ? & [? | [? ?]])]; congruence);
    try (intros _; right; by auto).
Qed.

(** A call without queued errors passes its checks or is rejected with
    the device as it was. *)
Lemma Assertion_checks_or_rejects td f rpID h ids pinArg opts :
  assertionErrors f = [] →
  asChecksOK f rpID h pinArg opts
  ∨ (¬ asChecksOK f rpID h pinArg opts
     ∧ ∃ e, Assertion td f rpID h ids pinArg opts = Returns (Err e) f
         ∧ e ≠ ErrKeepaliveCancel
         ∧ (e = ErrNoCredentials → wantRPID f ≠ "" ∧ wantRPID f ≠ rpID)
         ∧ (e = ErrPinRequired ∨ e = ErrPinInvalid →
            pinArg ≠ "" ∧ as_UP opts = libfido2.True)).
Proof.
  intros He. unfold asChecksOK, asArgsOK, Assertion. rewrite He.
  destruct (String.eqb rpID "") eqn:Hrp.
  { apply String.eqb_eq in Hrp. right. split; [tauto|].
    eexists. split_and!; try done. by intros [|]. }
  apply String.eqb_neq in Hrp.
  destruct (negb (String.eqb (wantRPID f) "")
            && negb (String.eqb (wantRPID f) rpID)) eqn:Hw.
  { apply andb_true_iff in Hw as [Hw1 Hw2].
    apply negb_true_iff in Hw1, Hw2. apply String.eqb_neq in Hw1, Hw2.
    right. split; [tauto|]. eexists. split_and!; try done. by intros [|]. }
  assert (wantRPID f = "" ∨ wantRPID f = rpID) as Hw'.
  { apply andb_false_iff in Hw as [Hw|Hw]; apply negb_false_iff in Hw;
      apply String.eqb_eq in Hw; auto. }
  destruct (Nat.eqb (String.length h) 0) eqn:Hh.
  { apply Nat.eqb_eq in Hh. right. split; [tauto|].
    eexists. split_and!; try done. by intros [|]. }
  apply Nat.eqb_neq in Hh.
  pose proof (asUVOK_iff f pinArg opts) as Huv.
  match goal with
  | |- context [if negb ?c then _ else _] => destruct c eqn:Huvb
  end; [change (negb true) with false|change (negb false) with true];
    cbv beta iota.
  2:{ right. split; [|eexists; split_and!; try done; by intros [|]].
      intros (_ & Hu & _). apply Huv in Hu. discriminate. }
  destruct (negb (String.eqb pinArg "")
            && String.eqb (as_UP opts) libfido2.True) eqn:Hcheck.
  - apply andb_true_iff in Hcheck as [Hp Hup].
    apply negb_true_iff, String.eqb_neq in Hp. apply String.eqb_eq in Hup.
    destruct (validatePIN f pinArg) as [e|] eqn:Hv.
    + right. split; [intros (_ & _ & Hpin); by specialize (Hpin Hp Hup)|].
      eexists. split; [done|].
      destruct (validatePIN_error _ _ _ Hv) as [-> | ->]; by split_and!.
    + left. split_and!; try done. by apply Huv.
  - left. split_and!; try done; [by apply Huv|].
    intros Hp Hup. apply String.eqb_neq in Hp. apply String.eqb_eq in Hup.
    rewrite Hp, Hup in Hcheck. discriminate.
Qed.

Lemma maybeLockUntilInteraction_cases upArg f :
  maybeLockUntilInteraction upArg f
  = if negb upArg then Returns None f
    else if cancel f then Returns (Some ErrKeepaliveCancel) (released f)
    else if up f then Returns None (released f)
    else Blocks.
Proof.
  unfold maybeLockUntilInteraction, released.
  by destruct upArg, (up f), (cancel f).
Qed.

Lemma collectAssertions_released td f ids p :
  collectAssertions td (released f) ids p = collectAssertions td f ids p.
Proof. done. Qed.

Lemma list_to_set_size_0 (ids : list string) :
  size (list_to_set ids : gset string) = 0 → ids = [].
Proof.
  intros Hs. apply size_empty_inv in Hs. destruct ids as [|x ids]; [done|].
  exfalso. apply (not_elem_of_empty (C := gset string) x). rewrite <- Hs.
  apply elem_of_list_to_set, list_elem_of_here.
Qed.

Lemma collectAssertions_elem_allowed td f ids p a :
  a ∈ collectAssertions td f ids p →
  (a = baseAssertion td f ∧ KeyHandle (key f) ∈ ids)
  ∨ (p = true ∧ ∃ r, r ∈ credentials f ∧ a = residentAssertion td r
       ∧ (ids = [] ∨ cred_ID r ∈ ids)).
Proof.
  unfold collectAssertions. intros [Ha|Ha]%elem_of_app.
  - case_bool_decide as Hk; [|by apply not_elem_of_nil in Ha].
    apply list_elem_of_singleton in Ha. apply elem_of_list_to_set in Hk. auto.
  - destruct p; [|by apply not_elem_of_nil in Ha].
    apply list_elem_of_fmap in Ha as (r & -> & Hr).
    apply list_elem_of_filter in Hr as [Hal Hr]. right. split; [done|].
    exists r. split_and!; [done..|].
    unfold residentAllowed in Hal. apply orb_true_iff in Hal as [Hal|Hal];
      apply bool_decide_eq_true in Hal.
    + left. by apply list_to_set_size_0.
    + right. by apply elem_of_list_to_set in Hal.
Qed.

(** What a successful [Assertion] call is made of. *)
Lemma Assertion_ok_inv td f rpID h ids pinArg opts l f' :
  Assertion td f rpID h ids pinArg opts = Returns (Ok l) f' →
  asChecksOK f rpID h pinArg opts
  ∧ f' = (if String.eqb (as_UP opts) libfido2.True then released f else f)
  ∧ (as_UP opts = libfido2.True → up f = true ∧ cancel f = false)
  ∧ ((∃ a, collectAssertions td f ids
             (isBio f || negb (String.eqb pinArg "")
                         && String.eqb (as_UP opts) libfido2.True) = [a]
           ∧ l = [stripUser a])
     ∨ ((2 ≤ length l)%nat
        ∧ l = collectAssertions td f ids
                (isBio f || negb (String.eqb pinArg "")
                            && String.eqb (as_UP opts) libfido2.True))).
Proof.
  intros H.
  destruct (assertionErrors f) as [|e rest] eqn:He.
  2:{ by rewrite (Assertion_replays _ _ _ _ _ _ _ _ _ He) in H. }
  destruct (Assertion_checks_or_rejects td f rpID h ids pinArg opts He)
    as [Hok | (_ & e & Hrej & _)]; [|by rewrite Hrej in H].
  split; [done|]. rewrite (Assertion_checked _ _ _ _ _ _ _ Hok) in H.
  rewrite maybeLockUntilInteraction_cases in H.
  destruct (String.eqb (as_UP opts) libfido2.True) eqn:Hup; simpl in H.
  - destruct (cancel f); [discriminate|]. destruct (up f); [|discriminate].
    rewrite collectAssertions_released in H.
    destruct (collectAssertions td f ids _) as [|a [|b c]] eqn:Hc;
      [discriminate| |]; injection H as <- <-; split_and!; try done.
    + left. eauto.
    + right. split; [simpl; lia|done].
  - apply String.eqb_neq in Hup.
    destruct (collectAssertions td f ids _) as [|a [|b c]] eqn:Hc;
      [discriminate| |]; injection H as <- <-;
      (split; [done|]); (split; [by intros ?|]).
    + left. eauto.
    + right. split; [simpl; lia|done].
Qed.

Lemma Assertion_blocks_inv td f rpID h ids pinArg opts :
  Assertion td f rpID h ids pinArg opts = Blocks →
  asChecksOK f rpID h pinArg opts ∧ as_UP opts = libfido2.True
  ∧ up f = false ∧ cancel f = false.
Proof.
  intros H. destruct (assertionErrors f) as [|e rest] eqn:He.
  2:{ by rewrite (Assertion_replays _ _ _ _ _ _ _ _ _ He) in H. }
  destruct (Assertion_checks_or_rejects td f rpID h ids pinArg opts He)
    as [Hok | (_ & e & Hrej & _)]; [|by rewrite Hrej in H].
  split; [done|]. rewrite (Assertion_checked _ _ _ _ _ _ _ Hok) in H.
  rewrite maybeLockUntilInteraction_cases in H.
  destruct (String.eqb (as_UP opts) libfido2.True) eqn:Hup; simpl in H.
  - apply String.eqb_eq in Hup.
    destruct (cancel f); [discriminate|].
    destruct (up f); [|done].
    by destruct (collectAssertions _ _ _ _) as [|a [|b c]].
  - by destruct (collectAssertions _ _ _ _) as [|a [|b c]].
Qed.

(** X7: the assertions of a successful [Assertion] call are never
    empty and never invented: each is for the key handle of the device,
    which was then asked for by id and carries no user, or for one of
    its resident credentials, with that credential's user id; when ids
    were given, every assertion is for one of them. *)
Theorem Assertion_answers_within_allow_list td f rpID h ids pinArg opts l f' :
  Assertion td f rpID h ids pinArg opts = Returns (Ok l) f' →
  l ≠ []
  ∧ ∀ a, a ∈ l →
      AuthDataCBOR a = assertionAuthDataCBOR td ∧ Sig a = assertionSig td
      ∧ (ids ≠ [] → CredentialID a ∈ ids)
      ∧ ((CredentialID a = KeyHandle (key f) ∧ KeyHandle (key f) ∈ ids
          ∧ asr_User a = emptyUser)
         ∨ ∃ r, r ∈ credentials f ∧ CredentialID a = cred_ID r
             ∧ user_ID (asr_User a) = user_ID (cred_User r)).
Proof.
  intros H. apply Assertion_ok_inv in H as (_ & _ & _ & Hl).
  assert (∀ a p, a ∈ collectAssertions td f ids p →
            AuthDataCBOR (stripUser a) = assertionAuthDataCBOR td
            ∧ Sig (stripUser a) = assertionSig td
            ∧ (ids ≠ [] → CredentialID (stripUser a) ∈ ids)
            ∧ ((CredentialID (stripUser a) = KeyHandle (key f)
                ∧ KeyHandle (key f) ∈ ids
                ∧ asr_User (stripUser a) = emptyUser
                ∧ asr_User a = emptyUser)
               ∨ ∃ r, r ∈ credentials f
                   ∧ CredentialID (stripUser a) = cred_ID r
                   ∧ user_ID (asr_User (stripUser a)) = user_ID (cred_User r)))
    as Hcol.
  { intros a p [[-> Hk] | (_ & r & Hr & -> & Hal)]%collectAssertions_elem_allowed.
    - split_and!; try done. left. by split_and!.
    - split_and!; try done.
      + intros Hne. by destruct Hal.
      + right. eauto. }
  destruct Hl as [(a & Hc & ->) | (Hlen & ->)].
  - split; [done|]. intros a' ->%list_elem_of_singleton.
    destruct (Hcol a _ ltac:(rewrite Hc; apply list_elem_of_here))
      as (? & ? & ? & [(? & ? & ? & ?) | ?]); split_and!; auto.
  - split; [by intros Hnil; rewrite Hnil in Hlen; simpl in Hlen; lia|].
    intros a Ha.
    destruct (Hcol a _ Ha) as (? & ? & ? & [(? & ? & ? & ?) | ?]);
      split_and!; auto.
Qed.

Lemma Assertion_answers_within_allow_list_witness :
  map (residentAssertion sampleData) (credentials bio1) ≠ []
  ∧ ∀ a, a ∈ map (residentAssertion sampleData) (credentials bio1) →
      AuthDataCBOR a = assertionAuthDataCBOR sampleData
      ∧ Sig a = assertionSig sampleData
      ∧ (@nil string ≠ [] → CredentialID a ∈ @nil string)
      ∧ ((CredentialID a = KeyHandle (key (setUP bio1))
          ∧ KeyHandle (key (setUP bio1)) ∈ @nil string
          ∧ asr_User a = emptyUser)
         ∨ ∃ r, r ∈ credentials (setUP bio1) ∧ CredentialID a = cred_ID r
             ∧ user_ID (asr_User a) = user_ID (cred_User r)).
Proof.
  apply (Assertion_answers_within_allow_list sampleData (setUP bio1)
           "example.com" "hash" [] ""
           {| as_UP := libfido2.True; as_UV := libfido2.True |}
           (map (residentAssertion sampleData) (credentials bio1))
           (released bio1)).
  vm_compute. reflexivity.
Defined.

(** X8: an [Assertion] call that does not ask for user presence, on a
    device without queued errors, never waits, never changes the
    device (a pending touch or cancel stays pending) and never
    validates the PIN: it reports neither a required nor an invalid
    PIN, nor a cancellation. *)
Theorem Assertion_without_UP_is_passive td f rpID h ids pinArg opts :
  as_UP opts ≠ libfido2.True → assertionErrors f = [] →
  ∃ r, Assertion td f rpID h ids pinArg opts = Returns r f
    ∧ r ≠ Err ErrPinRequired ∧ r ≠ Err ErrPinInvalid
    ∧ r ≠ Err ErrKeepaliveCancel.
Proof.
  intros Hup He.
  destruct (Assertion_checks_or_rejects td f rpID h ids pinArg opts He)
    as [Hok | (_ & e & Hrej & Hc & _ & Hpin)].
  - rewrite (Assertion_checked _ _ _ _ _ _ _ Hok).
    rewrite maybeLockUntilInteraction_cases.
    apply String.eqb_neq in Hup. rewrite Hup. simpl.
    destruct (collectAssertions td f ids _) as [|a [|b c]];
      eexists; by split_and!.
  - exists (Err e). split; [done|].
    split_and!; intros [= ->]; try done.
    + by destruct Hpin as [_ ?]; [left|].
    + by destruct Hpin as [_ ?]; [right|].
Qed.

Lemma Assertion_without_UP_is_passive_witness :
  ∃ r, Assertion sampleData (setUP pin1) "example.com" "hash"
         [credentialID pin1] "wrong pin" probeOpts = Returns r (setUP pin1)
    ∧ r ≠ Err ErrPinRequired ∧ r ≠ Err ErrPinInvalid
    ∧ r ≠ Err ErrKeepaliveCancel.
Proof.
  apply (Assertion_without_UP_is_passive sampleData (setUP pin1) "example.com"
           "hash" [credentialID pin1] "wrong pin" probeOpts).
  - discriminate.
  - reflexivity.
Defined.

(** X9: an [Assertion] call on a device without queued errors that is
    refused for a bad argument, an unsupported option or a missing or
    wrong PIN (any error but "no credentials" and the cancellation)
    leaves the device exactly as it was: a pending touch is not
    consumed and serves the next call. *)
Theorem Assertion_rejection_keeps_touch td f rpID h ids pinArg opts e f' :
  Assertion td f rpID h ids pinArg opts = Returns (Err e) f' →
  assertionErrors f = [] →
  e ≠ ErrNoCredentials → e ≠ ErrKeepaliveCancel →
  f' = f ∧ ¬ asChecksOK f rpID h pinArg opts.
Proof.
  intros H He Hnc Hkc.
  destruct (Assertion_checks_or_rejects td f rpID h ids pinArg opts He)
    as [Hok | (Hno & e' & Hrej & _)].
  - rewrite (Assertion_checked _ _ _ _ _ _ _ Hok) in H.
    rewrite maybeLockUntilInteraction_cases in H.
    destruct (negb _); [|destruct (cancel f); [|destruct (up f)]];
      try (by injection H as <- <-); try discriminate;
      destruct (collectAssertions _ _ _ _) as [|a [|b c]];
      try discriminate; by injection H as <- <-.
  - rewrite Hrej in H. by injection H as <- <-.
Qed.

Lemma Assertion_rejection_keeps_touch_witness :
  setUP pin1 = setUP pin1
  ∧ ¬ asChecksOK (setUP pin1) "example.com" "hash" "wrong pin" upOnly.
Proof.
  apply (Assertion_rejection_keeps_touch sampleData (setUP pin1) "example.com"
           "hash" [] "wrong pin" upOnly ErrPinInvalid (setUP pin1));
    [vm_compute; reflexivity|reflexivity|discriminate|discriminate].
Defined.

(** X10: an [Assertion] call that asks for user presence succeeds only
    on a device that was touched and not cancelled, and uses the touch
    up: the device it leaves is the one it found with [up] and
    [cancel] reset and nothing else changed, so that the same call
    made again waits for a new touch. *)
Theorem Assertion_success_consumes_touch td f rpID h ids pinArg opts l f' :
  Assertion td f rpID h ids pinArg opts = Returns (Ok l) f' →
  as_UP opts = libfido2.True →
  up f = true ∧ cancel f = false ∧ f' = released f
  ∧ Assertion td f' rpID h ids pinArg opts = Blocks.
Proof.
  intros H Hup. apply Assertion_ok_inv in H as (Hok & -> & Hu & _).
  destruct (Hu Hup) as [Hu1 Hu2]. rewrite Hup. simpl.
  split_and!; try done.
  assert (asChecksOK (released f) rpID h pinArg opts) as Hok' by exact Hok.
  rewrite (Assertion_checked _ _ _ _ _ _ _ Hok').
  rewrite maybeLockUntilInteraction_cases. by rewrite Hup.
Qed.

Lemma Assertion_success_consumes_touch_witness :
  up (setUP bio1) = true ∧ cancel (setUP bio1) = false
  ∧ released bio1 = released (setUP bio1)
  ∧ Assertion sampleData (released bio1) "example.com" "hash" [] ""
      upOnly = Blocks.
Proof.
  apply (Assertion_success_consumes_touch sampleData (setUP bio1)
           "example.com" "hash" [] "" upOnly
           (map (residentAssertion sampleData) (credentials bio1))
           (released bio1)); reflexivity.
Defined.

(** X11: an [Assertion] call waits for the user exactly when no error
    is queued, its checks pass, it asks for user presence and the
    device has been neither touched nor cancelled; once its checks
    pass, a pending cancel makes it fail with the keep-alive
    cancellation, touched or not, and resets the device. *)
Theorem Assertion_waits_for_the_user td f rpID h ids pinArg opts :
  (Assertion td f rpID h ids pinArg opts = Blocks
   ↔ asChecksOK f rpID h pinArg opts ∧ as_UP opts = libfido2.True
     ∧ up f = false ∧ cancel f = false)
  ∧ (asChecksOK f rpID h pinArg opts → as_UP opts = libfido2.True →
     cancel f = true →
     Assertion td f rpID h ids pinArg opts
     = Returns (Err ErrKeepaliveCancel) (released f)).
Proof.
  split; [split|].
  - apply Assertion_blocks_inv.
  - intros (Hok & Hup & Hu & Hc).
    rewrite (Assertion_checked _ _ _ _ _ _ _ Hok).
    rewrite maybeLockUntilInteraction_cases. by rewrite Hup, Hu, Hc.
  - intros Hok Hup Hc.
    rewrite (Assertion_checked _ _ _ _ _ _ _ Hok).
    rewrite maybeLockUntilInteraction_cases. by rewrite Hup, Hc.
Qed.

Lemma Assertion_waits_for_the_user_witness :
  Assertion sampleData (Cancel (setUP bio1)) "example.com" "hash" [] "" upOnly
  = Returns (Err ErrKeepaliveCancel) (released (Cancel (setUP bio1))).
Proof.
  apply (proj2 (Assertion_waits_for_the_user sampleData (Cancel (setUP bio1))
                  "example.com" "hash" [] "" upOnly)).
  - split; [|split; [by left|intros _ _; reflexivity]].
    split_and!; [reflexivity|discriminate|by left|simpl; lia].
  - reflexivity.
  - reflexivity.
Defined.

(** What [MakeCredential] does once its checks have passed. *)
Lemma MakeCredential_checked td rnd f h rp user typ pinArg opts :
  mcChecksOK f h rp typ pinArg opts →
  MakeCredential td rnd f h rp user typ pinArg opts
  = if cancel f then Returns (Err ErrKeepaliveCancel) (released f)
    else if up f then
      Returns
        (Ok {| att_ClientDataHash := h;
               att_AuthData := makeCredentialAuthDataCBOR td;
               att_CredentialID :=
                 if String.eqb (mc_RK opts) libfido2.True then rnd
                 else KeyHandle (key f);
               att_CredentialType := libfido2.ES256;
               att_PubKey := pubKey f;
               att_Cert :=
                 if String.eqb (format f) "none" then None
                 else Some (cert f);
               att_Sig :=
                 if String.eqb (format f) "none" then None
                 else Some (makeCredentialSig td);
               att_Format := format f |})
        (if String.eqb (mc_RK opts) libfido2.True
         then set_credentials
                (credentials f ++
                 [{| cred_ID := rnd; cred_Type := libfido2.ES256;
                     cred_User := user |}]) (released f)
         else released f)
    else Blocks.
Proof.
  intros ((Hh & Hrp & ->) & (Huv & Huv' & Hrk) & Hv). unfold MakeCredential.
  rewrite (length_eqb_false _ Hh), (eqb_empty_false _ Hrp). simpl.
  apply String.eqb_neq in Huv. rewrite Huv.
  assert (String.eqb (mc_UV opts) libfido2.True && negb (hasUV f) = false) as ->.
  { destruct (String.eqb (mc_UV opts) libfido2.True) eqn:E; [|done].
    apply String.eqb_eq in E. by rewrite Huv'. }
  assert (String.eqb (mc_RK opts) libfido2.True && negb (hasRK f) = false) as ->.
  { destruct (String.eqb (mc_RK opts) libfido2.True) eqn:E; [|done].
    apply String.eqb_eq in E. by rewrite Hrk. }
  rewrite Hv, maybeLockUntilInteraction_cases. simpl.
  destruct (cancel f); [done|]. destruct (up f); [|done].
  unfold released. simpl.
  by destruct (String.eqb (format f) "none"),
       (String.eqb (mc_RK opts) libfido2.True).
Qed.

(** A call passes its checks or is rejected with the device as it
    was. *)
Lemma MakeCredential_checks_or_rejects td rnd f h rp user typ pinArg opts :
  mcChecksOK f h rp typ pinArg opts
  ∨ (¬ mcChecksOK f h rp typ pinArg opts
     ∧ ∃ e, MakeCredential td rnd f h rp user typ pinArg opts
            = Returns (Err e) f
         ∧ e ≠ ErrKeepaliveCancel).
Proof.
  unfold mcChecksOK, mcArgsOK, mcOptsOK, MakeCredential.
  destruct (Nat.eqb (String.length h) 0) eqn:Hh.
  { apply Nat.eqb_eq in Hh. right. split; [tauto|]. by eexists. }
  apply Nat.eqb_neq in Hh.
  destruct (String.eqb (rp_ID rp) "") eqn:Hrp.
  { apply String.eqb_eq in Hrp. right. split; [tauto|]. by eexists. }
  apply String.eqb_neq in Hrp.
  destruct (Z.eqb typ libfido2.ES256) eqn:Ht; simpl.
  2:{ apply Z.eqb_neq in Ht. right. split; [tauto|]. by eexists. }
  apply Z.eqb_eq in Ht.
  destruct (String.eqb (mc_UV opts) libfido2.False) eqn:Hu0.
  { apply String.eqb_eq in Hu0. right. split; [tauto|]. by eexists. }
  apply String.eqb_neq in Hu0.
  destruct (String.eqb (mc_UV opts) libfido2.True && negb (hasUV f)) eqn:Hu1.
  { apply andb_true_iff in Hu1 as [Hu1 Hu2]. apply String.eqb_eq in Hu1.
    apply negb_true_iff in Hu2. right. split; [|by eexists].
    intros (_ & (_ & Huv & _) & _). rewrite (Huv Hu1) in Hu2. discriminate. }
  destruct (String.eqb (mc_RK opts) libfido2.True && negb (hasRK f)) eqn:Hr1.
  { apply andb_true_iff in Hr1 as [Hr1 Hr2]. apply String.eqb_eq in Hr1.
    apply negb_true_iff in Hr2. right. split; [|by eexists].
    intros (_ & (_ & _ & Hrk) & _). rewrite (Hrk Hr1) in Hr2. discriminate. }
  destruct (validatePIN f pinArg) as [e|] eqn:Hv.
  { right. split; [by intros (_ & _ & ?)|]. eexists. split; [done|].
    by destruct (validatePIN_error _ _ _ Hv) as [-> | ->]. }
  left. split_and!; try done.
  - intros Hu. rewrite Hu in Hu1. simpl in Hu1. by apply negb_false_iff in Hu1.
  - intros Hr. rewrite Hr in Hr1. simpl in Hr1. by apply negb_false_iff in Hr1.
Qed.

(** X12: [MakeCredential] waits for the user exactly when its checks
    pass and the device has been neither touched nor cancelled; once
    its checks pass, a pending cancel makes it fail with the keep-alive
    cancellation, touched or not, without creating a credential. *)
Theorem MakeCredential_waits_for_the_user td rnd f h rp user typ pinArg opts :
  (MakeCredential td rnd f h rp user typ pinArg opts = Blocks
   ↔ mcChecksOK f h rp typ pinArg opts ∧ up f = false ∧ cancel f = false)
  ∧ (mcChecksOK f h rp typ pinArg opts → cancel f = true →
     MakeCredential td rnd f h rp user typ pinArg opts
     = Returns (Err ErrKeepaliveCancel) (released f)).
Proof.
  split; [split|].
  - intros H.
    destruct (MakeCredential_checks_or_rejects td rnd f h rp user typ pinArg opts)
      as [Hok | (_ & e & Hrej & _)]; [|by rewrite Hrej in H].
    split; [done|]. rewrite (MakeCredential_checked _ _ _ _ _ _ _ _ _ Hok) in H.
    destruct (cancel f); [discriminate|]. by destruct (up f).
  - intros (Hok & Hu & Hc).
    rewrite (MakeCredential_checked _ _ _ _ _ _ _ _ _ Hok). by rewrite Hu, Hc.
  - intros Hok Hc.
    rewrite (MakeCredential_checked _ _ _ _ _ _ _ _ _ Hok). by rewrite Hc.
Qed.

Lemma MakeCredential_waits_for_the_user_witness :
  MakeCredential sampleData "fresh" (Cancel (setUP bio1)) "hash" sampleRP
    sampleUser libfido2.ES256 "" rkOpts
  = Returns (Err ErrKeepaliveCancel) (released (Cancel (setUP bio1))).
Proof.
  apply (proj2 (MakeCredential_waits_for_the_user sampleData "fresh"
                  (Cancel (setUP bio1)) "hash" sampleRP sampleUser
                  libfido2.ES256 "" rkOpts)).
  - split; [|split; [|reflexivity]].
    + split_and!; [simpl; lia|discriminate|reflexivity].
    + split_and!; [discriminate|reflexivity|reflexivity].
  - reflexivity.
Defined.

(** What a successful [MakeCredential] call is made of. *)
Lemma MakeCredential_ok_inv td rnd f h rp user typ pinArg opts att f' :
  MakeCredential td rnd f h rp user typ pinArg opts = Returns (Ok att) f' →
  mcChecksOK f h rp typ pinArg opts ∧ up f = true ∧ cancel f = false
  ∧ att = {| att_ClientDataHash := h;
             att_AuthData := makeCredentialAuthDataCBOR td;
             att_CredentialID :=
               if String.eqb (mc_RK opts) libfido2.True then rnd
               else KeyHandle (key f);
             att_CredentialType := libfido2.ES256;
             att_PubKey := pubKey f;
             att_Cert :=
               if String.eqb (format f) "none" then None else Some (cert f);
             att_Sig :=
               if String.eqb (format f) "none" then None
               else Some (makeCredentialSig td);
             att_Format := format f |}
  ∧ f' = (if String.eqb (mc_RK opts) libfido2.True
          then set_credentials
                 (credentials f ++
                  [{| cred_ID := rnd; cred_Type := libfido2.ES256;
                      cred_User := user |}]) (released f)
          else released f).
Proof.
  intros H.
  destruct (MakeCredential_checks_or_rejects td rnd f h rp user typ pinArg opts)
    as [Hok | (_ & e & Hrej & _)]; [|by rewrite Hrej in H].
  rewrite (MakeCredential_checked _ _ _ _ _ _ _ _ _ Hok) in H.
  destruct (cancel f); [discriminate|]. destruct (up f); [|discriminate].
  by injection H as <- <-.
Qed.

(** X13: [MakeCredential] succeeds only on a device that was touched
    and not cancelled, and uses the touch up.  With RK=true it stores
    one new credential, after those the device had, of type ES256, for
    the given user and under the fresh id, which is the credential id
    of the attestation; otherwise it stores nothing and the credential
    id of the attestation is the key handle of the device.  The device
    it leaves is the device it found with the touch and cancel flags
    cleared and that list of credentials: no other field changes. *)
Theorem MakeCredential_stores_resident_key td rnd f h rp user typ pinArg opts
    att f' :
  MakeCredential td rnd f h rp user typ pinArg opts = Returns (Ok att) f' →
  up f = true ∧ cancel f = false ∧ up f' = false ∧ cancel f' = false
  ∧ f' = set_credentials (credentials f') (set_up_cancel false false f)
  ∧ (mc_RK opts = libfido2.True →
     hasRK f = true
     ∧ credentials f'
       = (credentials f ++ [{| cred_ID := rnd; cred_Type := libfido2.ES256;
                               cred_User := user |}])%list
     ∧ att_CredentialID att = rnd)
  ∧ (mc_RK opts ≠ libfido2.True →
     credentials f' = credentials f
     ∧ att_CredentialID att = KeyHandle (key f)).
Proof.
  intros H. apply MakeCredential_ok_inv in H
    as ((_ & (_ & _ & Hrk) & _) & Hu & Hc & -> & ->).
  destruct (String.eqb (mc_RK opts) libfido2.True) eqn:E;
    rewrite ?String.eqb_eq, ?String.eqb_neq in E; simpl;
    split_and!; try done; auto.
Qed.

Lemma MakeCredential_stores_resident_key_witness :
  up (setUP bio1) = true ∧ cancel (setUP bio1) = false
  ∧ up bio1Registered = false ∧ cancel bio1Registered = false
  ∧ bio1Registered
    = set_credentials (credentials bio1Registered)
        (set_up_cancel false false (setUP bio1))
  ∧ (mc_RK rkOpts = libfido2.True →
     hasRK (setUP bio1) = true
     ∧ credentials bio1Registered
       = (credentials (setUP bio1)
          ++ [{| cred_ID := "fresh"; cred_Type := libfido2.ES256;
                 cred_User := sampleUser |}])%list
     ∧ att_CredentialID freshAttestation = "fresh")
  ∧ (mc_RK rkOpts ≠ libfido2.True →
     credentials bio1Registered = credentials (setUP bio1)
     ∧ att_CredentialID freshAttestation = KeyHandle (key (setUP bio1))).
Proof.
  apply (MakeCredential_stores_resident_key sampleData "fresh" (setUP bio1)
           "hash" sampleRP sampleUser libfido2.ES256 "" rkOpts).
  vm_compute. reflexivity.
Defined.

(** X14: the attestation of a successful [MakeCredential] call carries
    the client data hash of the call, the authenticator data of the
    tests, the type ES256, the public key and the format of the
    device; with the format "none" it carries neither certificate nor
    signature, with any other format it carries both. *)
Theorem MakeCredential_attestation td rnd f h rp user typ pinArg opts att f' :
  MakeCredential td rnd f h rp user typ pinArg opts = Returns (Ok att) f' →
  att_ClientDataHash att = h
  ∧ att_AuthData att = makeCredentialAuthDataCBOR td
  ∧ att_CredentialType att = libfido2.ES256 ∧ typ = libfido2.ES256
  ∧ att_PubKey att = pubKey f ∧ att_Format att = format f
  ∧ (format f = "none" → att_Cert att = None ∧ att_Sig att = None)
  ∧ (format f ≠ "none" →
     att_Cert att = Some (cert f)
     ∧ att_Sig att = Some (makeCredentialSig td)).
Proof.
  intros H. apply MakeCredential_ok_inv in H
    as (((_ & _ & ->) & _ & _) & _ & _ & -> & _). simpl.
  split_and!; try done.
  - intros ->. by rewrite String.eqb_refl.
  - intros Hf. apply String.eqb_neq in Hf. by rewrite Hf.
Qed.

Lemma MakeCredential_attestation_witness :
  att_ClientDataHash freshAttestation = "hash"
  ∧ att_AuthData freshAttestation = makeCredentialAuthDataCBOR sampleData
  ∧ att_CredentialType freshAttestation = libfido2.ES256
  ∧ libfido2.ES256 = libfido2.ES256
  ∧ att_PubKey freshAttestation = pubKey (setUP bio1)
  ∧ att_Format freshAttestation = format (setUP bio1)
  ∧ (format (setUP bio1) = "none" →
     att_Cert freshAttestation = None ∧ att_Sig freshAttestation = None)
  ∧ (format (setUP bio1) ≠ "none" →
     att_Cert freshAttestation = Some (cert (setUP bio1))
     ∧ att_Sig freshAttestation = Some (makeCredentialSig sampleData)).
Proof.
  apply (MakeCredential_attestation sampleData "fresh" (setUP bio1)
           "hash" sampleRP sampleUser libfido2.ES256 "" rkOpts
           freshAttestation bio1Registered).
  vm_compute. reflexivity.
Defined.

(** X15: a [MakeCredential] call that fails never stores a credential.
    Refused for a bad argument, an unsupported option or a missing or
    wrong PIN, it leaves the device exactly as it was, a pending touch
    included; it fails with the keep-alive cancellation only when a
    cancel was pending after its checks had passed, and then resets
    [up] and [cancel]. *)
Theorem MakeCredential_failure_stores_nothing td rnd f h rp user typ pinArg
    opts e f' :
  MakeCredential td rnd f h rp user typ pinArg opts = Returns (Err e) f' →
  credentials f' = credentials f
  ∧ (e ≠ ErrKeepaliveCancel →
     f' = f ∧ ¬ mcChecksOK f h rp typ pinArg opts)
  ∧ (e = ErrKeepaliveCancel →
     f' = released f ∧ cancel f = true ∧ mcChecksOK f h rp typ pinArg opts).
Proof.
  intros H.
  destruct (MakeCredential_checks_or_rejects td rnd f h rp user typ pinArg opts)
    as [Hok | (Hno & e' & Hrej & Hne)].
  - rewrite (MakeCredential_checked _ _ _ _ _ _ _ _ _ Hok) in H.
    destruct (cancel f) eqn:Hc; [|by destruct (up f)].
    injection H as <- <-. by split_and!.
  - rewrite Hrej in H. injection H as <- <-. by split_and!.
Qed.

Lemma MakeCredential_failure_stores_nothing_witness :
  credentials (setUP pin1) = credentials (setUP pin1)
  ∧ (ErrPinRequired ≠ ErrKeepaliveCancel →
     setUP pin1 = setUP pin1
     ∧ ¬ mcChecksOK (setUP pin1) "hash" sampleRP libfido2.ES256 "" noOpts)
  ∧ (ErrPinRequired = ErrKeepaliveCancel →
     setUP pin1 = released (setUP pin1) ∧ cancel (setUP pin1) = true
     ∧ mcChecksOK (setUP pin1) "hash" sampleRP libfido2.ES256 "" noOpts).
Proof.
  apply (MakeCredential_failure_stores_nothing sampleData "fresh" (setUP pin1)
           "hash" sampleRP sampleUser libfido2.ES256 "" noOpts).
  vm_compute. reflexivity.
Defined.

Lemma collectAssertions_passwordless td f :
  collectAssertions td f [] true
  = map (residentAssertion td) (credentials f).
Proof.
  unfold collectAssertions. rewrite list_to_set_nil.
  rewrite bool_decide_eq_false_2 by apply not_elem_of_empty.
  simpl. f_equal. induction (credentials f) as [|r rs IH]; [done|].
  rewrite filter_cons_True; [by rewrite IH|].
  unfold residentAllowed. by rewrite size_empty.
Qed.

(** X16: a passwordless [Assertion] call (no credential ids) that asks
    for user presence on a touched device where access is privileged
    (a biometric device, or a PIN given) answers with one assertion for
    every resident credential of the device, in the order they are
    stored, and never with the key handle: no credentials stored is the
    error "no credentials", a single one comes with its user name
    stripped, several come with their full users. *)
Theorem Assertion_passwordless_lists_residents td f rpID h pinArg opts :
  asChecksOK f rpID h pinArg opts → as_UP opts = libfido2.True →
  up f = true → cancel f = false →
  isBio f = true ∨ pinArg ≠ "" →
  Assertion td f rpID h [] pinArg opts
  = match credentials f with
    | [] => Returns (Err ErrNoCredentials) (released f)
    | [r] => Returns (Ok [stripUser (residentAssertion td r)]) (released f)
    | rs => Returns (Ok (map (residentAssertion td) rs)) (released f)
    end.
Proof.
  intros Hok Hup Hu Hc Hpriv.
  rewrite (Assertion_checked _ _ _ _ _ _ _ Hok).
  rewrite maybeLockUntilInteraction_cases, Hup, Hu, Hc. simpl.
  assert (isBio f || negb (String.eqb pinArg "") = true) as Hp.
  { destruct Hpriv as [-> | Hp]; [done|].
    rewrite (eqb_empty_false _ Hp). by rewrite orb_true_r. }
  rewrite andb_true_r, Hp, collectAssertions_released,
    collectAssertions_passwordless.
  by destruct (credentials f) as [|r [|r' rs]].
Qed.

Lemma Assertion_passwordless_lists_residents_witness :
  Assertion sampleData (setUP pin1) "example.com" "hash" []
    "supersecretpin1" upOnly
  = match credentials (setUP pin1) with
    | [] => Returns (Err ErrNoCredentials) (released (setUP pin1))
    | [r] => Returns (Ok [stripUser (residentAssertion sampleData r)])
               (released (setUP pin1))
    | rs => Returns (Ok (map (residentAssertion sampleData) rs))
              (released (setUP pin1))
    end.
Proof.
  apply (Assertion_passwordless_lists_residents sampleData (setUP pin1)
           "example.com" "hash" "supersecretpin1" upOnly).
  - split; [|split; [by left|intros _ _; reflexivity]].
    split_and!; [reflexivity|discriminate|by left|simpl; lia].
  - reflexivity.
  - reflexivity.
  - reflexivity.
  - right. discriminate.
Defined.

(** X17: a resident key registered by [MakeCredential] is found again:
    after a successful call with RK=true, a touch, and a passwordless
    [Assertion] call for the same relying party with the same PIN, on a
    device where access is privileged, the answer has one assertion
    more than the device had credentials, and the last one is for the
    credential id of the attestation and the user id of the
    registration. *)
Theorem resident_key_round_trip td rnd f h rp user typ pinArg opts att f' h2 :
  MakeCredential td rnd f h rp user typ pinArg opts = Returns (Ok att) f' →
  mc_RK opts = libfido2.True →
  assertionErrors f = [] → wantRPID f = "" ∨ wantRPID f = rp_ID rp →
  String.length h2 ≠ 0 → isBio f = true ∨ pinArg ≠ "" →
  ∃ l a,
    Assertion td (setUP f') (rp_ID rp) h2 [] pinArg upOnly = Returns (Ok l) f'
    ∧ length l = S (length (credentials f))
    ∧ last l = Some a
    ∧ CredentialID a = att_CredentialID att
    ∧ user_ID (asr_User a) = user_ID user
    ∧ (credentials f ≠ [] → asr_User a = user).
Proof.
  intros H Hrk He Hw Hh2 Hpriv.
  apply MakeCredential_ok_inv in H
    as (((_ & Hrp & _) & _ & Hv) & _ & _ & -> & ->).
  rewrite Hrk. simpl.
  set (new := {| cred_ID := rnd; cred_Type := libfido2.ES256;
                 cred_User := user |}).
  set (f' := set_credentials (credentials f ++ [new]) (released f)).
  assert (asChecksOK (setUP f') (rp_ID rp) h2 pinArg upOnly) as Hok.
  { split_and!; try done. by left. }
  rewrite (Assertion_checked _ _ _ _ _ _ _ Hok).
  rewrite maybeLockUntilInteraction_cases. simpl.
  assert (isBio f || negb (String.eqb pinArg "") = true) as Hp.
  { destruct Hpriv as [-> | Hp]; [done|].
    rewrite (eqb_empty_false _ Hp). by rewrite orb_true_r. }
  change (isBio (setUP f')) with (isBio f).
  rewrite andb_true_r, Hp, collectAssertions_released,
    collectAssertions_passwordless.
  change (credentials (setUP f')) with (credentials f ++ [new])%list.
  change (released (setUP f')) with f'.
  destruct (credentials f) as [|r rs] eqn:Hcs.
  - exists [stripUser (residentAssertion td new)], (stripUser (residentAssertion td new)).
    by split_and!.
  - assert (last (map (residentAssertion td) ((r :: rs) ++ [new]))
            = Some (residentAssertion td new)) as Hlast
      by (rewrite map_app; apply last_snoc).
    assert (length (map (residentAssertion td) ((r :: rs) ++ [new]))
            = S (length (r :: rs))) as Hlen
      by (rewrite length_map, length_app; simpl; lia).
    exists (map (residentAssertion td) ((r :: rs) ++ [new])),
      (residentAssertion td new).
    split_and!; try done.
    + by destruct rs.
    + intros _. by destruct user.
Qed.

Lemma resident_key_round_trip_witness :
  ∃ l a,
    Assertion sampleData (setUP bio1Registered) (rp_ID sampleRP) "hash2" []
      "" upOnly = Returns (Ok l) bio1Registered
    ∧ length l = S (length (credentials (setUP bio1)))
    ∧ last l = Some a
    ∧ CredentialID a = att_CredentialID freshAttestation
    ∧ user_ID (asr_User a) = user_ID sampleUser
    ∧ (credentials (setUP bio1) ≠ [] → asr_User a = sampleUser).
Proof.
  apply (resident_key_round_trip sampleData "fresh" (setUP bio1) "hash"
           sampleRP sampleUser libfido2.ES256 "" rkOpts freshAttestation
           bio1Registered "hash2").
  - vm_compute. reflexivity.
  - reflexivity.
  - reflexivity.
  - by left.
  - simpl. lia.
  - by left.
Defined.

(** X18: a credential registered without resident key is found again
    by its id: after a successful [MakeCredential] call without
    RK=true, a touch, and an [Assertion] call for the same relying
    party and PIN that lists the credential id of the attestation, the
    first assertion of the answer is for that id, which is the key
    handle of the device, and carries no user; any further assertion
    is for a resident credential stored under the same id. *)
Theorem key_handle_round_trip td rnd f h rp user typ pinArg opts att f' h2 :
  MakeCredential td rnd f h rp user typ pinArg opts = Returns (Ok att) f' →
  mc_RK opts ≠ libfido2.True →
  assertionErrors f = [] → wantRPID f = "" ∨ wantRPID f = rp_ID rp →
  String.length h2 ≠ 0 →
  ∃ a rest,
    Assertion td (setUP f') (rp_ID rp) h2 [att_CredentialID att] pinArg upOnly
    = Returns (Ok (a :: rest)) f'
    ∧ CredentialID a = att_CredentialID att
    ∧ att_CredentialID att = KeyHandle (key f)
    ∧ asr_User a = emptyUser
    ∧ ∀ b, b ∈ rest →
        ∃ r, r ∈ credentials f ∧ cred_ID r = KeyHandle (key f)
          ∧ CredentialID b = cred_ID r.
Proof.
  intros H Hrk He Hw Hh2.
  apply MakeCredential_ok_inv in H
    as (((_ & Hrp & _) & _ & Hv) & _ & _ & -> & ->).
  apply String.eqb_neq in Hrk. rewrite Hrk. simpl.
  assert (asChecksOK (setUP (released f)) (rp_ID rp) h2 pinArg upOnly) as Hok.
  { split_and!; try done. by left. }
  rewrite (Assertion_checked _ _ _ _ _ _ _ Hok).
  rewrite maybeLockUntilInteraction_cases. simpl.
  change (released (setUP (released f))) with (released f).
  rewrite collectAssertions_released.
  set (p := isBio _ || _).
  assert (KeyHandle (key f) ∈ (list_to_set [KeyHandle (key f)] : gset string))
    as Hkh by apply elem_of_list_to_set, list_elem_of_here.
  destruct (collectAssertions td f [KeyHandle (key f)] p) as [|a rest] eqn:Hc.
  { exfalso. unfold collectAssertions in Hc.
    rewrite bool_decide_eq_true_2 in Hc by exact Hkh. discriminate. }
  assert (a = baseAssertion td f) as ->.
  { unfold collectAssertions in Hc.
    rewrite bool_decide_eq_true_2 in Hc by exact Hkh. by injection Hc as <- _. }
  assert (∀ b, b ∈ rest →
            ∃ r, r ∈ credentials f ∧ cred_ID r = KeyHandle (key f)
              ∧ CredentialID b = cred_ID r) as Hrest.
  { intros b Hb.
    assert (b ∈ collectAssertions td f [KeyHandle (key f)] p) as Hin
      by (rewrite Hc; by apply list_elem_of_further).
    unfold collectAssertions in Hc.
    rewrite bool_decide_eq_true_2 in Hc by exact Hkh.
    injection Hc as Hc. destruct p; [|by rewrite <- Hc in Hb; apply not_elem_of_nil in Hb].
    rewrite <- Hc in Hb. apply list_elem_of_fmap in Hb as (r & -> & Hr).
    apply list_elem_of_filter in Hr as [Hal Hr]. exists r. split_and!; try done.
    unfold residentAllowed in Hal. apply orb_true_iff in Hal as [Hal|Hal];
      apply bool_decide_eq_true in Hal.
    - by rewrite (right_id_L ∅ (∪)), size_singleton in Hal.
    - apply elem_of_union in Hal as [Hal|Hal];
        [by apply elem_of_singleton in Hal|by apply not_elem_of_empty in Hal]. }
  destruct rest as [|b rest].
  - exists (stripUser (baseAssertion td f)), []. split_and!; try done.
  - exists (baseAssertion td f), (b :: rest). by split_and!.
Qed.

Lemma key_handle_round_trip_witness :
  ∃ a rest,
    Assertion sampleData (setUP (released auth1)) (rp_ID sampleRP) "hash2"
      [att_CredentialID auth1Attestation] "" upOnly
    = Returns (Ok (a :: rest)) (released auth1)
    ∧ CredentialID a = att_CredentialID auth1Attestation
    ∧ att_CredentialID auth1Attestation = KeyHandle (key (setUP auth1))
    ∧ asr_User a = emptyUser
    ∧ ∀ b, b ∈ rest →
        ∃ r, r ∈ credentials (setUP auth1)
          ∧ cred_ID r = KeyHandle (key (setUP auth1))
          ∧ CredentialID b = cred_ID r.
Proof.
  apply (key_handle_round_trip sampleData "fresh" (setUP auth1) "hash"
           sampleRP sampleUser libfido2.ES256 "" noOpts auth1Attestation
           (released auth1) "hash2").
  - vm_compute. reflexivity.
  - discriminate.
  - reflexivity.
  - by left.
  - simpl. lia.
Defined.

Lemma AssertionCalls_replay td f rpID h ids pinArg opts es :
  (AssertionCalls (length es) td (set_assertionErrors es f) rpID h ids pinArg
     opts)
  = (map Err es, set_assertionErrors [] f).
Proof.
  induction es as [|e es IH]; [done|].
  cbn [length AssertionCalls].
  rewrite (Assertion_replays _ _ _ _ _ _ _ e es) by done.
  rewrite set_assertionErrors_twice, IH. done.
Qed.

(** X20: the errors queued on a device are replayed in order, one per
    [Assertion] call, whatever the arguments of the calls, touched or
    not: as many calls as errors are queued return exactly those
    errors, never wait, and leave the device with an empty queue and
    otherwise as it was, a pending touch included. *)
Theorem Assertion_replays_queue td f rpID h ids pinArg opts :
  AssertionCalls (length (assertionErrors f)) td f rpID h ids pinArg opts
  = (map Err (assertionErrors f), set_assertionErrors [] f).
Proof.
  rewrite <- (AssertionCalls_replay td f rpID h ids pinArg opts
                (assertionErrors f)).
  by destruct f.
Qed.

(** X21: on a device without queued errors, [Assertion] reports "no
    credentials" for one of two reasons only.  Either the device
    expects another relying party, and then it is left exactly as it
    was; or the checks passed, the wait for the user (if presence was
    asked for) is over and the touch used up, and the device holds
    nothing to answer with: its key handle was not asked for and, where
    access is privileged, ids were given and none is the id of a
    resident credential. *)
Theorem no_credentials_causes td f rpID h ids pinArg opts f' :
  Assertion td f rpID h ids pinArg opts = Returns (Err ErrNoCredentials) f' →
  assertionErrors f = [] →
  (wantRPID f ≠ "" ∧ wantRPID f ≠ rpID ∧ f' = f)
  ∨ (asChecksOK f rpID h pinArg opts
     ∧ f' = (if String.eqb (as_UP opts) libfido2.True then released f else f)
     ∧ (as_UP opts = libfido2.True → up f = true ∧ cancel f = false)
     ∧ (KeyHandle (key f) ∉ ids)
     ∧ ((isBio f = true ∨ (pinArg ≠ "" ∧ as_UP opts = libfido2.True)) →
        ∀ r, r ∈ credentials f → ids ≠ [] ∧ cred_ID r ∉ ids)).
Proof.
  intros H He.
  destruct (Assertion_checks_or_rejects td f rpID h ids pinArg opts He)
    as [Hok | (_ & e & Hrej & _ & Hnc & _)].
  2:{ rewrite Hrej in H. injection H as -> <-. left.
      destruct (Hnc eq_refl) as [? ?]. by split_and!. }
  right. split; [done|].
  rewrite (Assertion_checked _ _ _ _ _ _ _ Hok) in H.
  rewrite maybeLockUntilInteraction_cases in H.
  assert (∀ p, collectAssertions td f ids p = [] →
            (KeyHandle (key f) ∉ ids)
            ∧ (p = true → ∀ r, r ∈ credentials f → ids ≠ [] ∧ cred_ID r ∉ ids))
    as Hnone.
  { intros p Hc. unfold collectAssertions in Hc.
    apply app_eq_nil in Hc as [Hb Hr]. split.
    - case_bool_decide as Hk; [discriminate|].
      by rewrite elem_of_list_to_set in Hk.
    - intros -> r Hin.
      assert (residentAllowed (list_to_set ids) r ≠ true) as Hal.
      { intros Hal.
        assert (residentAssertion td r
                ∈ map (residentAssertion td)
                    (filter (λ r, residentAllowed (list_to_set ids) r = true)
                       (credentials f))) as Hx
          by (apply list_elem_of_fmap_2, list_elem_of_filter; by split).
        rewrite Hr in Hx. by apply not_elem_of_nil in Hx. }
      unfold residentAllowed in Hal. split.
      + intros ->. apply Hal. by rewrite list_to_set_nil, size_empty.
      + intros Hid. apply Hal. apply orb_true_iff. right.
        apply bool_decide_eq_true. by apply elem_of_list_to_set. }
  assert (∀ p, (isBio f = true ∨ (pinArg ≠ "" ∧ as_UP opts = libfido2.True))
               → p = isBio f || negb (String.eqb pinArg "")
                               && String.eqb (as_UP opts) libfido2.True
               → p = true) as Hpriv.
  { intros p [-> | [Hp Hup]] ->; [done|].
    rewrite (eqb_empty_false _ Hp), Hup. by rewrite orb_true_r. }
  destruct (String.eqb (as_UP opts) libfido2.True) eqn:Hup; simpl in H.
  - destruct (cancel f); [discriminate|]. destruct (up f); [|discriminate].
    rewrite collectAssertions_released in H.
    destruct (collectAssertions td f ids _) as [|a [|b c]] eqn:Hc;
      try discriminate.
    injection H as <-. destruct (Hnone _ Hc) as [Hk Hres].
    split_and!; try done. intros Hp. apply Hres. by eapply Hpriv.
  - apply String.eqb_neq in Hup.
    destruct (collectAssertions td f ids _) as [|a [|b c]] eqn:Hc;
      try discriminate.
    injection H as <-. destruct (Hnone _ Hc) as [Hk Hres].
    split_and!; try done. intros Hp. apply Hres. by eapply Hpriv.
Qed.

Lemma no_credentials_causes_witness :
  (wantRPID (setUP bio1) ≠ "" ∧ wantRPID (setUP bio1) ≠ "example.com"
   ∧ released bio1 = setUP bio1)
  ∨ (asChecksOK (setUP bio1) "example.com" "hash" "" upOnly
     ∧ released bio1
       = (if String.eqb (as_UP upOnly) libfido2.True
          then released (setUP bio1) else setUP bio1)
     ∧ (as_UP upOnly = libfido2.True →
        up (setUP bio1) = true ∧ cancel (setUP bio1) = false)
     ∧ (KeyHandle (key (setUP bio1)) ∉ ["unknown id"])
     ∧ ((isBio (setUP bio1) = true
         ∨ ("" ≠ "" ∧ as_UP upOnly = libfido2.True)) →
        ∀ r, r ∈ credentials (setUP bio1) →
          ["unknown id"] ≠ [] ∧ cred_ID r ∉ ["unknown id"])).
Proof.
  apply (no_credentials_causes sampleData (setUP bio1) "example.com" "hash"
           ["unknown id"] "" upOnly (released bio1)).
  - vm_compute. reflexivity.
  - reflexivity.
Defined.



